(** * Ariane Atlas / Theseus: a shallow embedding of the in-memory core

    The development follows the Python sources:
    - [atlas/storage/graph_store.py]     (GraphStore)
    - [atlas/api/endpoints/query.py]     (QueryHandler.shortest_path)
    - [atlas/api/endpoints/ingest.py]    (IngestHandler)
    - [atlas/api/endpoints/workflows.py] (WorkflowStore)
    - [atlas/storage/signing.py]         (Signer)
    - [theseus/core/state_tracker.py]    (StateTracker)

    Python dicts are [gmap]s, Python sets are [gset]s, Python [int]s are
    [Z], exceptions are an explicit [result] type, and every mutating
    method is a function from the object before the call to the object
    after it, together with the outcome of the call.  A [while] loop is a
    function with fuel, and the fuel it is given is proved to suffice.

    Records handed to a store are values here.  In Python they are
    shared objects, and the one field the store assigns,
    [record.times_observed], changes under the caller's alias too; no
    store operation reads it back through that alias, so the store
    behaves as it does on values. *)

From Stdlib Require Import Ascii String ZArith NArith Lia.
From stdpp Require Import gmap strings list fin_maps pretty sorting.

Set Warnings "-register-all,-clear-no-such-hyp".
Open Scope string_scope.
Open Scope list_scope.
Open Scope Z_scope.

(** ** Python-level scaffolding *)

(** Exceptions raised by the modelled code. *)
Inductive exn :=
| RuntimeError (msg : string)
| ValueError (msg : string)
| KeyError (key : string)
| TypeError (msg : string)
| IngestError (msg : string)
| QueryError (msg : string).

(** [str(exc)] *)
Definition exn_str (e : exn) : string :=
  match e with
  | RuntimeError m | ValueError m | TypeError m | IngestError m
  | QueryError m => m
  | KeyError k => "'" +:+ k +:+ "'"
  end.

(** Outcome of a call: a returned value or a raised exception. *)
Inductive result (A : Type) :=
| Return (a : A)
| Raise (e : exn).
Arguments Return {A} a.
Arguments Raise {A} e.

(** A Python [float] as far as the modelled code looks at it: the code
    only stores floats and hands them to [json.dumps], which rejects the
    three non-finite values when [allow_nan=False]. *)
Inductive pyfloat :=
| FFinite (mantissa : Z) (exponent : Z)
| FNaN
| FPosInf
| FNegInf.

(** JSON-like Python values ([Dict[str, Any]] payloads and metadata).
    [JOpaque] stands for any Python object [json.dumps] cannot encode. *)
Inductive json :=
| JNull
| JBool (b : bool)
| JInt (z : Z)
| JFloat (f : pyfloat)
| JStr (s : string)
| JList (l : list json)
| JDict (m : gmap string json)
| JOpaque (tag : string).

(** Python truthiness ([not x] is the negation of this). *)
Definition truthy (v : json) : bool :=
  match v with
  | JNull => false
  | JBool b => b
  | JInt z => negb (Z.eqb z 0)
  | JFloat (FFinite m _) => negb (Z.eqb m 0)
  | JFloat _ => true
  | JStr s => negb (String.eqb s "")
  | JList l => match l with [] => false | _ => true end
  | JDict m => negb (bool_decide (size m = 0%nat))
  | JOpaque _ => true
  end.

(** ** Domain model ([common/models], [atlas/schema]) *)

Inductive Platform := WEB | WINDOWS | LINUX | ANDROID | MACOS | PLATFORM_OTHER.

Inductive ActionType :=
| CLICK | DOUBLE_CLICK | RIGHT_CLICK | KEY_PRESS | TEXT_INPUT | FOCUS
| HOVER | SCROLL | TOUCH_TAP | TOUCH_LONG_PRESS | GESTURE | OTHER.

(** [member.value] and [Enum(value)] for the two enums; a value that is
    not a member's string has no member. *)
Definition Platform_value (p : Platform) : string :=
  match p with
  | WEB => "web" | WINDOWS => "windows" | LINUX => "linux"
  | ANDROID => "android" | MACOS => "macos" | PLATFORM_OTHER => "other"
  end.

Definition Platform_member (value : json) : option Platform :=
  match value with
  | JStr s =>
      if String.eqb s "web" then Some WEB
      else if String.eqb s "windows" then Some WINDOWS
      else if String.eqb s "linux" then Some LINUX
      else if String.eqb s "android" then Some ANDROID
      else if String.eqb s "macos" then Some MACOS
      else if String.eqb s "other" then Some PLATFORM_OTHER
      else None
  | _ => None
  end.

Definition ActionType_value (a : ActionType) : string :=
  match a with
  | CLICK => "click" | DOUBLE_CLICK => "double_click"
  | RIGHT_CLICK => "right_click" | KEY_PRESS => "key_press"
  | TEXT_INPUT => "text_input" | FOCUS => "focus" | HOVER => "hover"
  | SCROLL => "scroll" | TOUCH_TAP => "touch_tap"
  | TOUCH_LONG_PRESS => "touch_long_press" | GESTURE => "gesture"
  | OTHER => "other"
  end.

Definition ActionType_member (value : json) : option ActionType :=
  match value with
  | JStr s =>
      if String.eqb s "click" then Some CLICK
      else if String.eqb s "double_click" then Some DOUBLE_CLICK
      else if String.eqb s "right_click" then Some RIGHT_CLICK
      else if String.eqb s "key_press" then Some KEY_PRESS
      else if String.eqb s "text_input" then Some TEXT_INPUT
      else if String.eqb s "focus" then Some FOCUS
      else if String.eqb s "hover" then Some HOVER
      else if String.eqb s "scroll" then Some SCROLL
      else if String.eqb s "touch_tap" then Some TOUCH_TAP
      else if String.eqb s "touch_long_press" then Some TOUCH_LONG_PRESS
      else if String.eqb s "gesture" then Some GESTURE
      else if String.eqb s "other" then Some OTHER
      else None
  | _ => None
  end.

(** ** Reading fields of a payload

    The records of the model are typed as the dataclasses are
    annotated, while [from_dict] stores whatever value the payload
    carries.  A decoder therefore answers [None] where Python goes on
    with a value that the annotation does not allow, or raises an
    exception other than those of [exn] ([AttributeError] on a
    [.get] of a non-dict, whatever [dict(x)] raises on a non-dict). *)
Module Field.
(** [dict(x or {})], and [x or {}] followed by [.get] *)
Definition dict_or_empty (x : option json) : option (gmap string json) :=
  match x with
  | None => Some ∅
  | Some v =>
      if truthy v
      then match v with JDict m => Some m | _ => None end
      else Some ∅
  end.

(** A field annotated [str]. *)
Definition as_str (v : json) : option string :=
  match v with JStr s => Some s | _ => None end.

(** A field annotated [Optional[str]], read with [.get]. *)
Definition as_opt_str (x : option json) : option (option string) :=
  match x with
  | None | Some JNull => Some None
  | Some (JStr s) => Some (Some s)
  | Some _ => None
  end.

(** [x or now] for a field annotated [str]. *)
Definition str_or (x : option json) (now : string) : option string :=
  match x with
  | None => Some now
  | Some v => if truthy v then as_str v else Some now
  end.

(** [None] or a string, as [to_dict] writes an [Optional[str]]. *)
Definition of_opt_str (x : option string) : json :=
  match x with Some s => JStr s | None => JNull end.
End Field.

Module BoundingBox.
Record t := mk { x : Z; y : Z; width : Z; height : Z }.
End BoundingBox.

Module InteractiveElement.
Record t := mk {
  id : string;
  role : string;
  label : option string;
  bounding_box : option BoundingBox.t;
  path : option string;
  enabled : bool;
  visible : bool;
  metadata : gmap string json
}.
End InteractiveElement.

Module UIState.
Record t := mk {
  id : string;
  app_id : string;
  version : option string;
  platform : Platform;
  locale : option string;
  fingerprints : gmap string string;
  screenshot_ref : option string;
  interactive_elements : list InteractiveElement.t;
  metadata : gmap string json
}.

(** [state.id = new_id] *)
Definition set_id (new_id : string) (s : t) : t :=
  mk new_id (app_id s) (version s) (platform s) (locale s) (fingerprints s)
     (screenshot_ref s) (interactive_elements s) (metadata s).
End UIState.

Module Action.
Record t := mk {
  type : ActionType;
  element_id : option string;
  raw_input : option string;
  metadata : gmap string json
}.

Definition to_dict (self : t) : gmap string json :=
  <["type" := JStr (ActionType_value (type self))]>
  (<["element_id" := Field.of_opt_str (element_id self)]>
   (<["raw_input" := Field.of_opt_str (raw_input self)]>
    (<["metadata" := JDict (metadata self)]> ∅))).
End Action.

Module Transition.
Record t := mk {
  id : string;
  source_state_id : string;
  target_state_id : string;
  action : Action.t;
  intent_id : option string;
  confidence : pyfloat;
  metadata : gmap string json
}.

Definition to_dict (self : t) : gmap string json :=
  <["id" := JStr (id self)]>
  (<["source_state_id" := JStr (source_state_id self)]>
   (<["target_state_id" := JStr (target_state_id self)]>
    (<["action" := JDict (Action.to_dict (action self))]>
     (<["intent_id" := Field.of_opt_str (intent_id self)]>
      (<["confidence" := JFloat (confidence self)]>
       (<["metadata" := JDict (metadata self)]> ∅)))))).
End Transition.

Module Context.
Record t := mk {
  context_id : string;
  app_id : string;
  version : option string;
  platform : Platform;
  locale : option string;
  schema_version : string;
  created_at : string;
  environment : gmap string json;
  metadata : gmap string json
}.

Definition SCHEMA_VERSION : string := "1.0.0".

Definition to_dict (self : t) : gmap string json :=
  <["context_id" := JStr (context_id self)]>
  (<["app_id" := JStr (app_id self)]>
   (<["version" := Field.of_opt_str (version self)]>
    (<["platform" := JStr (Platform_value (platform self))]>
     (<["locale" := Field.of_opt_str (locale self)]>
      (<["schema_version" := JStr (schema_version self)]>
       (<["created_at" := JStr (created_at self)]>
        (<["environment" := JDict (environment self)]>
         (<["metadata" := JDict (metadata self)]> ∅)))))))).

Section Decode.
(** [repr(x)], and the clock reading
    [datetime.utcnow().replace(microsecond=0).isoformat() + "Z"]. *)
Variable repr : json → string.
Variable now : string.

Definition from_dict (data : gmap string json) : option (result t) :=
  match data !! "context_id" with
  | None => Some (Raise (KeyError "context_id"))
  | Some context_id =>
      match data !! "app_id" with
      | None => Some (Raise (KeyError "app_id"))
      | Some app_id =>
          let platform_value := default (JStr "other") (data !! "platform") in
          match Platform_member platform_value with
          | None =>
              Some (Raise (ValueError (repr platform_value
                                       +:+ " is not a valid Platform")))
          | Some platform =>
              environment ← Field.dict_or_empty (data !! "environment");
              metadata ← Field.dict_or_empty (data !! "metadata");
              context_id ← Field.as_str context_id;
              app_id ← Field.as_str app_id;
              version ← Field.as_opt_str (data !! "version");
              locale ← Field.as_opt_str (data !! "locale");
              schema_version ←
                Field.as_str (default (JStr SCHEMA_VERSION)
                                (data !! "schema_version"));
              created_at ← Field.str_or (data !! "created_at") now;
              Some (Return (mk context_id app_id version platform locale
                              schema_version created_at environment metadata))
          end
      end
  end.
End Decode.
End Context.

Module StateRecord.
Record t := mk {
  context_id : string;
  state : UIState.t;
  discovered_at : string;
  is_entry : bool;
  is_terminal : bool;
  tags : list string;
  metadata : gmap string json
}.

(** The [id] property. *)
Definition id (r : t) : string := UIState.id (state r).
End StateRecord.

Module TransitionRecord.
Record t := mk {
  context_id : string;
  transition : Transition.t;
  discovered_at : string;
  times_observed : Z;
  metadata : gmap string json
}.

(** The [id], [source_state_id] and [target_state_id] properties. *)
Definition id (r : t) : string := Transition.id (transition r).
Definition source_state_id (r : t) : string :=
  Transition.source_state_id (transition r).
Definition target_state_id (r : t) : string :=
  Transition.target_state_id (transition r).

(** [record.times_observed = n] *)
Definition set_times_observed (n : Z) (r : t) : t :=
  mk (context_id r) (transition r) (discovered_at r) n (metadata r).

Definition to_dict (self : t) : gmap string json :=
  <["context_id" := JStr (context_id self)]>
  (<["discovered_at" := JStr (discovered_at self)]>
   (<["times_observed" := JInt (times_observed self)]>
    (<["metadata" := JDict (metadata self)]>
     (<["transition" := JDict (Transition.to_dict (transition self))]> ∅)))).

Section Decode.
(** [repr(x)]; [float(x)] and [int(x)] on an [x] that is not a float,
    respectively not an int ([None]: the result or the exception is
    outside the model); and the clock reading. *)
Variable repr : json → string.
Variable float_other : json → option (result pyfloat).
Variable int_other : json → option (result Z).
Variable now : string.

(** [float(x)] *)
Definition float (x : json) : option (result pyfloat) :=
  match x with
  | JFloat f => Some (Return f)
  | _ => float_other x
  end.

(** [int(x)] *)
Definition int (x : json) : option (result Z) :=
  match x with
  | JInt z => Some (Return z)
  | _ => int_other x
  end.

Definition from_dict (data : gmap string json) : option (result t) :=
  match data !! "context_id" with
  | None =>
      Some (Raise (ValueError "TransitionRecord.from_dict: missing 'context_id'"))
  | Some context_id =>
      match data !! "transition" with
      | None =>
          Some (Raise (ValueError
                         "TransitionRecord.from_dict: missing 'transition' payload"))
      | Some (JDict tr_dict) =>
          (* Action(...) *)
          match Field.dict_or_empty (tr_dict !! "action") with
          | None => None
          | Some action_dict =>
              let type_value := default (JStr "other") (action_dict !! "type") in
              match ActionType_member type_value with
              | None =>
                  Some (Raise (ValueError (repr type_value
                                           +:+ " is not a valid ActionType")))
              | Some type =>
                  match Field.dict_or_empty (action_dict !! "metadata") with
                  | None => None
                  | Some action_metadata =>
                      (* Transition(...) *)
                      match tr_dict !! "id" with
                      | None => Some (Raise (KeyError "id"))
                      | Some id =>
                      match tr_dict !! "source_state_id" with
                      | None => Some (Raise (KeyError "source_state_id"))
                      | Some source_state_id =>
                      match tr_dict !! "target_state_id" with
                      | None => Some (Raise (KeyError "target_state_id"))
                      | Some target_state_id =>
                      match float (default (JFloat (FFinite 1 0))
                                     (tr_dict !! "confidence")) with
                      | None => None
                      | Some (Raise e) => Some (Raise e)
                      | Some (Return confidence) =>
                      match Field.dict_or_empty (tr_dict !! "metadata") with
                      | None => None
                      | Some transition_metadata =>
                      (* cls(...) *)
                      match int (default (JInt 1) (data !! "times_observed")) with
                      | None => None
                      | Some (Raise e) => Some (Raise e)
                      | Some (Return times_observed) =>
                          metadata ← Field.dict_or_empty (data !! "metadata");
                          element_id ← Field.as_opt_str (action_dict !! "element_id");
                          raw_input ← Field.as_opt_str (action_dict !! "raw_input");
                          id ← Field.as_str id;
                          source_state_id ← Field.as_str source_state_id;
                          target_state_id ← Field.as_str target_state_id;
                          intent_id ← Field.as_opt_str (tr_dict !! "intent_id");
                          context_id ← Field.as_str context_id;
                          discovered_at ←
                            Field.str_or (data !! "discovered_at") now;
                          Some (Return
                            (mk context_id
                               (Transition.mk id source_state_id target_state_id
                                  (Action.mk type element_id raw_input
                                             action_metadata)
                                  intent_id confidence transition_metadata)
                               discovered_at times_observed metadata))
                      end
                      end
                      end
                      end
                      end
                      end
                  end
              end
          end
      | Some _ => None
      end
  end.
End Decode.
End TransitionRecord.

(** ** The graph store ([atlas/storage/graph_store.py]) *)

Module GraphStoreConfig.
Record t := mk {
  max_contexts : option Z;
  max_states_per_context : option Z;
  max_transitions_per_context : option Z
}.

(** [GraphStoreConfig()] with its defaults. *)
Definition default : t := mk None None None.
End GraphStoreConfig.

Module GraphStore.

(** The object's attributes.  The two incidence indices are
    [defaultdict]s of [defaultdict]s of sets, [_states] and
    [_transitions] are [defaultdict]s of dicts: reading a missing key
    with [d[k]] creates the entry, reading with [d.get(k, dflt)] does
    not. *)
Record t := mk {
  _config : GraphStoreConfig.t;
  _contexts : gmap string Context.t;
  _states : gmap string (gmap string StateRecord.t);
  _transitions : gmap string (gmap string TransitionRecord.t);
  _outgoing : gmap string (gmap string (gset string));
  _incoming : gmap string (gmap string (gset string))
}.

(** [GraphStore(config)] *)
Definition init (config : option GraphStoreConfig.t) : t :=
  mk (default GraphStoreConfig.default config) ∅ ∅ ∅ ∅ ∅.

(** [d[k]] on a [defaultdict(dict)]: the value, and the dict with the
    entry created when it was missing. *)
Definition dd_get {V} (m : gmap string (gmap string V)) (k : string)
  : gmap string V * gmap string (gmap string V) :=
  match m !! k with
  | Some v => (v, m)
  | None => (∅, <[k := ∅]> m)
  end.

(** [idx[c][s].op(...)] on an incidence index: both levels are created
    on demand, then the set is updated in place by [f]. *)
Definition index_update (f : gset string → gset string) (c s : string)
    (idx : gmap string (gmap string (gset string)))
  : gmap string (gmap string (gset string)) :=
  let inner := default ∅ (idx !! c) in
  <[c := <[s := f (default ∅ (inner !! s))]> inner]> idx.

(** [idx.get(c, {}).get(s, set())] *)
Definition index_get (idx : gmap string (gmap string (gset string)))
    (c s : string) : gset string :=
  default ∅ (default ∅ (idx !! c) !! s).

(** [len(d) >= limit] for an optional limit ([None] = unlimited). *)
Definition at_capacity (limit : option Z) (n : nat) : bool :=
  match limit with
  | Some k => bool_decide (k ≤ Z.of_nat n)
  | None => false
  end.

(** The limit as an f-string prints it. *)
Definition limit_str (limit : option Z) : string :=
  match limit with Some k => pretty k | None => "None" end.

Definition upsert_context (context : Context.t) (self : t) : t * result unit :=
  let cid := Context.context_id context in
  if at_capacity (GraphStoreConfig.max_contexts (_config self))
                 (size (_contexts self))
     && bool_decide (_contexts self !! cid = None)
  then (self, Raise (RuntimeError
                       ("GraphStore exceeded max_contexts="
                        +:+ limit_str (GraphStoreConfig.max_contexts (_config self)))))
  else
    (mk (_config self) (<[cid := context]> (_contexts self)) (_states self)
        (_transitions self) (_outgoing self) (_incoming self),
     Return ()).

Definition get_context (context_id : string) (self : t) : option Context.t :=
  _contexts self !! context_id.

Definition upsert_state (record : StateRecord.t) (self : t) : t * result unit :=
  let ctx_id := StateRecord.context_id record in
  let state_id := StateRecord.id record in
  match GraphStoreConfig.max_states_per_context (_config self) with
  | Some limit =>
      (* the limit is set: [self._states[ctx_id]] is read by the test *)
      let '(ctx_states, states1) := dd_get (_states self) ctx_id in
      if bool_decide (ctx_states !! state_id = None)
         && bool_decide (limit ≤ Z.of_nat (size ctx_states))
      then
        (mk (_config self) (_contexts self) states1 (_transitions self)
            (_outgoing self) (_incoming self),
         Raise (RuntimeError
                  ("Context '" +:+ ctx_id +:+ "' exceeded max_states_per_context="
                   +:+ pretty limit)))
      else
        (mk (_config self) (_contexts self)
            (<[ctx_id := <[state_id := record]> ctx_states]> states1)
            (_transitions self) (_outgoing self) (_incoming self),
         Return ())
  | None =>
      let '(ctx_states, states1) := dd_get (_states self) ctx_id in
      (mk (_config self) (_contexts self)
          (<[ctx_id := <[state_id := record]> ctx_states]> states1)
          (_transitions self) (_outgoing self) (_incoming self),
       Return ())
  end.

Definition get_state (context_id state_id : string) (self : t)
  : option StateRecord.t :=
  default ∅ (_states self !! context_id) !! state_id.

(** The records of a context.  Python lists them in insertion order;
    here they come in the order of the map, and nothing below depends on
    the order. *)
Definition list_states (context_id : string) (self : t) : list StateRecord.t :=
  (map_to_list (default ∅ (_states self !! context_id))).*2.

Definition upsert_transition (record : TransitionRecord.t)
    (increment_observed : bool) (self : t) : t * result unit :=
  let ctx_id := TransitionRecord.context_id record in
  let tr_id := TransitionRecord.id record in
  let src := TransitionRecord.source_state_id record in
  let tgt := TransitionRecord.target_state_id record in
  let '(ctx_transitions, transitions1) := dd_get (_transitions self) ctx_id in
  match ctx_transitions !! tr_id with
  | Some existing =>
      let old_src := TransitionRecord.source_state_id existing in
      let old_tgt := TransitionRecord.target_state_id existing in
      let outgoing1 :=
        if bool_decide (old_src = src) then _outgoing self
        else index_update (λ X, X ∖ {[tr_id]}) ctx_id old_src (_outgoing self) in
      let incoming1 :=
        if bool_decide (old_tgt = tgt) then _incoming self
        else index_update (λ X, X ∖ {[tr_id]}) ctx_id old_tgt (_incoming self) in
      let record1 :=
        if increment_observed
        then TransitionRecord.set_times_observed
               (TransitionRecord.times_observed existing + 1) record
        else record in
      (mk (_config self) (_contexts self) (_states self)
          (<[ctx_id := <[tr_id := record1]> ctx_transitions]> transitions1)
          (index_update (λ X, X ∪ {[tr_id]}) ctx_id src outgoing1)
          (index_update (λ X, X ∪ {[tr_id]}) ctx_id tgt incoming1),
       Return ())
  | None =>
      if at_capacity
           (GraphStoreConfig.max_transitions_per_context (_config self))
           (size ctx_transitions)
      then
        (mk (_config self) (_contexts self) (_states self) transitions1
            (_outgoing self) (_incoming self),
         Raise (RuntimeError
                  ("Context '" +:+ ctx_id
                   +:+ "' exceeded max_transitions_per_context="
                   +:+ limit_str (GraphStoreConfig.max_transitions_per_context
                                    (_config self)))))
      else
        (mk (_config self) (_contexts self) (_states self)
            (<[ctx_id := <[tr_id := record]> ctx_transitions]> transitions1)
            (index_update (λ X, X ∪ {[tr_id]}) ctx_id src (_outgoing self))
            (index_update (λ X, X ∪ {[tr_id]}) ctx_id tgt (_incoming self)),
         Return ())
  end.

Definition get_transition (context_id transition_id : string) (self : t)
  : option TransitionRecord.t :=
  default ∅ (_transitions self !! context_id) !! transition_id.

Definition list_transitions (context_id : string) (self : t)
  : list TransitionRecord.t :=
  (map_to_list (default ∅ (_transitions self !! context_id))).*2.

(** *** Shortest path (breadth-first search)

    [iter_set] is the order in which Python iterates over a set; the
    language leaves it unspecified, so it is a parameter. *)

Section ShortestPath.
Variable iter_set : gset string → list string.

(** The local variables of the search loop. *)
Record bfs := mk_bfs {
  queue : list string;
  visited : gset string;
  prev : gmap string (option string * option string);
  depth : gmap string Z
}.

(** The [for tr_id in outgoing.get(current, [])] loop over the ids
    still to be iterated.  [inl]: the loop ran to its end; [inr]: the
    target was reached and the method returns from inside the loop. *)
Fixpoint expand (ctx_transitions : gmap string TransitionRecord.t)
    (target_state_id current : string) (current_depth : Z)
    (tr_ids : list string) (b : bfs) : bfs + bfs :=
  match tr_ids with
  | [] => inl b
  | tr_id :: rest =>
      match ctx_transitions !! tr_id with
      | None => expand ctx_transitions target_state_id current current_depth rest b
      | Some tr =>
          let nxt := TransitionRecord.target_state_id tr in
          if bool_decide (nxt ∈ visited b)
          then expand ctx_transitions target_state_id current current_depth rest b
          else
            let visited1 := visited b ∪ {[nxt]} in
            let prev1 := <[nxt := (Some current, Some tr_id)]> (prev b) in
            let depth1 := <[nxt := current_depth + 1]> (depth b) in
            if bool_decide (nxt = target_state_id)
            then inr (mk_bfs (queue b) visited1 prev1 depth1)
            else expand ctx_transitions target_state_id current current_depth rest
                   (mk_bfs (queue b ++ [nxt]) visited1 prev1 depth1)
      end
  end.

(** The [while True] loop of [_reconstruct_path]; [None] when the
    fuel runs out. *)
Fixpoint reconstruct_loop (fuel : nat)
    (ctx_transitions : gmap string TransitionRecord.t)
    (prev : gmap string (option string * option string))
    (current : string) (path_transitions : list TransitionRecord.t)
  : option (list TransitionRecord.t) :=
  match fuel with
  | O => None
  | S fuel' =>
      match default (None, None) (prev !! current) with
      | (Some prev_state, Some tr_id) =>
          let path1 :=
            match ctx_transitions !! tr_id with
            | Some tr => path_transitions ++ [tr]
            | None => path_transitions
            end in
          reconstruct_loop fuel' ctx_transitions prev prev_state path1
      | _ => Some path_transitions
      end
  end.

Definition _reconstruct_path (fuel : nat) (context_id : string)
    (prev : gmap string (option string * option string))
    (target_state_id : string) (self : t)
  : option (list TransitionRecord.t) :=
  let ctx_transitions := default ∅ (_transitions self !! context_id) in
  reverse <$> reconstruct_loop fuel ctx_transitions prev target_state_id [].

(** [max_depth is not None and current_depth >= max_depth] *)
Definition depth_reached (max_depth : option Z) (current_depth : Z) : bool :=
  match max_depth with
  | Some m => bool_decide (m ≤ current_depth)
  | None => false
  end.

(** The [while queue] loop.  Outer [option]: [None] when the fuel runs
    out.  Inside: what the method does, which is to return a path,
    return [None], or raise [KeyError] at [depth[current]]. *)
Fixpoint search_loop (fuel : nat) (context_id target_state_id : string)
    (max_depth : option Z) (self : t) (b : bfs)
  : option (result (option (list TransitionRecord.t))) :=
  match fuel with
  | O => None
  | S fuel' =>
      match queue b with
      | [] => Some (Return None)
      | current :: queue1 =>
          match depth b !! current with
          | None => Some (Raise (KeyError current))
          | Some current_depth =>
              let b1 := mk_bfs queue1 (visited b) (prev b) (depth b) in
              if depth_reached max_depth current_depth
              then search_loop fuel' context_id target_state_id max_depth self b1
              else
                let ctx_transitions :=
                  default ∅ (_transitions self !! context_id) in
                let outgoing := default ∅ (_outgoing self !! context_id) in
                let tr_ids :=
                  match outgoing !! current with
                  | Some ids => iter_set ids
                  | None => []
                  end in
                match expand ctx_transitions target_state_id current
                             current_depth tr_ids b1 with
                | inl b2 =>
                    search_loop fuel' context_id target_state_id max_depth self b2
                | inr b2 =>
                    (λ p, Return (Some p)) <$>
                      _reconstruct_path (S (size (prev b2))) context_id
                        (prev b2) target_state_id self
                end
          end
      end
  end.

(** The search state before the first iteration. *)
Definition bfs_init (source_state_id : string) : bfs :=
  mk_bfs [source_state_id] {[source_state_id]}
         {[source_state_id := (None, None)]} {[source_state_id := 0]}.

(** [shortest_path]: the loops are run with fuel that bounds the
    number of their iterations (see [shortest_path_terminates]). *)
Definition shortest_path (context_id source_state_id target_state_id : string)
    (max_depth : option Z) (self : t)
  : option (result (option (list TransitionRecord.t))) :=
  if bool_decide (source_state_id = target_state_id)
  then Some (Return (Some []))
  else
    let ctx_transitions := default ∅ (_transitions self !! context_id) in
    if bool_decide (size ctx_transitions = 0%nat)
    then Some (Return None)
    else
      search_loop (size ctx_transitions + 2) context_id target_state_id
                  max_depth self (bfs_init source_state_id).
End ShortestPath.

(** *** Sequences of store operations *)

Inductive op :=
| UpsertContext (context : Context.t)
| UpsertState (record : StateRecord.t)
| UpsertTransition (record : TransitionRecord.t) (increment_observed : bool).

(** The store after one call, whether it returned or raised. *)
Definition step (self : t) (o : op) : t :=
  match o with
  | UpsertContext c => (upsert_context c self).1
  | UpsertState r => (upsert_state r self).1
  | UpsertTransition r inc => (upsert_transition r inc self).1
  end.

Definition run (ops : list op) (self : t) : t := foldl step self ops.

(** What one call answers. *)
Definition outcome (self : t) (o : op) : result unit :=
  match o with
  | UpsertContext c => (upsert_context c self).2
  | UpsertState r => (upsert_state r self).2
  | UpsertTransition r inc => (upsert_transition r inc self).2
  end.

(** *** The other reads and the deprecated [add_context] *)

Definition add_context (context : Context.t) (overwrite : bool) (self : t)
  : t * result unit :=
  let cid := Context.context_id context in
  if negb overwrite && bool_decide (is_Some (_contexts self !! cid))
  then (self, Raise (ValueError ("Context '" +:+ cid +:+ "' already exists")))
  else upsert_context context self.

Definition list_contexts (self : t) : list Context.t :=
  (map_to_list (_contexts self)).*2.

Section Listing.
(** Iteration order of a Python set, and [s.strip().lower()]. *)
Variable iter_set : gset string → list string.
Variable strip_lower : string → string.

(** [any(t.strip().lower() == tag for t in tags)] for a normalised
    [tag]. *)
Definition has_tag (tag : string) (tags : list string) : Prop :=
  Exists (λ t, strip_lower t = tag) tags.

Definition find_states_by_tag (context_id tag : string) (self : t)
  : list StateRecord.t :=
  let tag1 := strip_lower tag in
  filter (λ s, has_tag tag1 (StateRecord.tags s)) (list_states context_id self).

(** [[ctx_transitions[tid] for tid in transition_ids
      if tid in ctx_transitions]] *)
Definition resolve (ctx_transitions : gmap string TransitionRecord.t)
    (transition_ids : gset string) : list TransitionRecord.t :=
  omap (λ tid, ctx_transitions !! tid) (iter_set transition_ids).

Definition get_outgoing_transitions (context_id state_id : string) (self : t)
  : list TransitionRecord.t :=
  resolve (default ∅ (_transitions self !! context_id))
          (index_get (_outgoing self) context_id state_id).

Definition get_incoming_transitions (context_id state_id : string) (self : t)
  : list TransitionRecord.t :=
  resolve (default ∅ (_transitions self !! context_id))
          (index_get (_incoming self) context_id state_id).

Definition list_outgoing (context_id state_id : string) (self : t)
  : list TransitionRecord.t :=
  get_outgoing_transitions context_id state_id self.

Definition list_incoming (context_id state_id : string) (self : t)
  : list TransitionRecord.t :=
  get_incoming_transitions context_id state_id self.
End Listing.

End GraphStore.

(** ** The path query ([atlas/api/endpoints/query.py]) *)

Module QueryHandler.
Section Query.
(** Iteration order of a Python set, and [_transition_record_to_dict]. *)
Variable iter_set : gset string → list string.
Variable _transition_record_to_dict : TransitionRecord.t → json.

Definition _require_context (context_id : string) (store : GraphStore.t)
  : result unit :=
  match GraphStore.get_context context_id store with
  | None => Raise (QueryError ("Context '" +:+ context_id +:+ "' not found"))
  | Some _ => Return ()
  end.

Definition _require_state (context_id state_id : string) (store : GraphStore.t)
  : result unit :=
  match GraphStore.get_state context_id state_id store with
  | None =>
      Raise (QueryError ("State '" +:+ state_id +:+ "' not found in context '"
                         +:+ context_id +:+ "'"))
  | Some _ => Return ()
  end.

(** The ["path"] entry of the response: [null] for no path, a list for a
    path. *)
Definition path_payload (transitions : option (list TransitionRecord.t)) : json :=
  match transitions with
  | None => JNull
  | Some ts => JList (_transition_record_to_dict <$> ts)
  end.

Definition shortest_path (context_id source_state_id target_state_id : string)
    (max_depth : option Z) (store : GraphStore.t)
  : option (result (gmap string json)) :=
  match _require_context context_id store with
  | Raise e => Some (Raise e)
  | Return _ =>
      match _require_state context_id source_state_id store with
      | Raise e => Some (Raise e)
      | Return _ =>
          match _require_state context_id target_state_id store with
          | Raise e => Some (Raise e)
          | Return _ =>
              match GraphStore.shortest_path iter_set context_id source_state_id
                      target_state_id max_depth store with
              | None => None
              | Some (Raise e) => Some (Raise e)
              | Some (Return transitions) =>
                  Some (Return
                    (<["context_id" := JStr context_id]>
                     (<["source_state_id" := JStr source_state_id]>
                      (<["target_state_id" := JStr target_state_id]>
                       (<["path" := path_payload transitions]> ∅)))))
              end
          end
      end
  end.
End Query.

(** *** The listing queries *)

Section Lists.
(** Iteration order of a Python set, [s.strip().lower()], and the two
    record serializers. *)
Variable iter_set : gset string → list string.
Variable strip_lower : string → string.
Variable _state_record_to_dict : StateRecord.t → json.
Variable _transition_record_to_dict : TransitionRecord.t → json.

(** Truth value of an [Optional[str]] argument: [None] and [""] are
    false. *)
Definition given (arg : option string) : bool :=
  match arg with
  | Some s => negb (String.eqb s "")
  | None => false
  end.

(** [metadata.get(key) == value] for a string [value]. *)
Definition metadata_is (key value : string) (metadata : gmap string json) : bool :=
  match metadata !! key with
  | Some (JStr s) => String.eqb s value
  | _ => false
  end.

(** [if value is not None: records = [r for r in records
      if r.metadata.get(key) == value]] *)
Definition by_metadata {R} (metadata : R → gmap string json) (key : string)
    (value : option string) (records : list R) : list R :=
  match value with
  | Some v => filter (λ r, metadata_is key v (metadata r) = true) records
  | None => records
  end.

(** [if intent_id is not None: records = [r for r in records
      if r.transition.intent_id == intent_id]] *)
Definition by_intent (intent_id : option string)
    (records : list TransitionRecord.t) : list TransitionRecord.t :=
  match intent_id with
  | Some v =>
      filter (λ r, Transition.intent_id (TransitionRecord.transition r) = Some v)
             records
  | None => records
  end.

Definition list_states (context_id : string)
    (tag source review_status : option string) (store : GraphStore.t)
  : result (gmap string json) :=
  match _require_context context_id store with
  | Raise e => Raise e
  | Return _ =>
      let records :=
        if given tag && negb (given source || given review_status)
        then GraphStore.find_states_by_tag strip_lower context_id
               (default "" tag) store
        else GraphStore.list_states context_id store in
      let records := by_metadata StateRecord.metadata "source" source records in
      let records :=
        by_metadata StateRecord.metadata "review_status" review_status records in
      let records :=
        if given tag
        then filter (λ r, GraphStore.has_tag strip_lower
                            (strip_lower (default "" tag)) (StateRecord.tags r))
                    records
        else records in
      Return (<["context_id" := JStr context_id]>
              (<["states" := JList (_state_record_to_dict <$> records)]> ∅))
  end.

(** The three filters of the transition listings. *)
Definition transition_filters (source review_status intent_id : option string)
    (records : list TransitionRecord.t) : list TransitionRecord.t :=
  by_intent intent_id
    (by_metadata TransitionRecord.metadata "review_status" review_status
       (by_metadata TransitionRecord.metadata "source" source records)).

Definition list_transitions (context_id : string)
    (source review_status intent_id : option string) (store : GraphStore.t)
  : result (gmap string json) :=
  match _require_context context_id store with
  | Raise e => Raise e
  | Return _ =>
      let records := GraphStore.list_transitions context_id store in
      let records := transition_filters source review_status intent_id records in
      Return (<["context_id" := JStr context_id]>
              (<["transitions" := JList (_transition_record_to_dict <$> records)]> ∅))
  end.

Definition list_outgoing (context_id state_id : string)
    (source review_status intent_id : option string) (store : GraphStore.t)
  : result (gmap string json) :=
  match _require_context context_id store with
  | Raise e => Raise e
  | Return _ =>
      match _require_state context_id state_id store with
      | Raise e => Raise e
      | Return _ =>
          let records := GraphStore.list_outgoing iter_set context_id state_id store in
          let records :=
            transition_filters source review_status intent_id records in
          Return (<["context_id" := JStr context_id]>
                  (<["state_id" := JStr state_id]>
                   (<["outgoing" :=
                        JList (_transition_record_to_dict <$> records)]> ∅)))
      end
  end.

Definition list_incoming (context_id state_id : string)
    (source review_status intent_id : option string) (store : GraphStore.t)
  : result (gmap string json) :=
  match _require_context context_id store with
  | Raise e => Raise e
  | Return _ =>
      match _require_state context_id state_id store with
      | Raise e => Raise e
      | Return _ =>
          let records := GraphStore.list_incoming iter_set context_id state_id store in
          let records :=
            transition_filters source review_status intent_id records in
          Return (<["context_id" := JStr context_id]>
                  (<["state_id" := JStr state_id]>
                   (<["incoming" :=
                        JList (_transition_record_to_dict <$> records)]> ∅)))
      end
  end.
End Lists.
End QueryHandler.

(** ** Transition ingest ([atlas/api/endpoints/ingest.py]) *)

Module IngestHandler.
Section Ingest.
(** [TransitionRecord.from_dict], the decoder of
    [atlas/schema/transition_schema.py]: a record, or the exception
    the decoder raises on the payload. *)
Variable from_dict : gmap string json → result TransitionRecord.t.

(** The handler holds a [GraphStore]; a call maps the store before to
    the store after and the response or exception. *)
Definition ingest_transition_record (payload : json) (store : GraphStore.t)
  : GraphStore.t * result (gmap string json) :=
  match payload with
  | JDict data =>
      match from_dict data with
      | Raise (KeyError k) =>
          (store, Raise (IngestError
                           ("Missing transition record field: "
                            +:+ exn_str (KeyError k))))
      | Raise e =>
          (store, Raise (IngestError
                           ("Invalid transition record payload: " +:+ exn_str e)))
      | Return record =>
          let ctx := TransitionRecord.context_id record in
          let src := TransitionRecord.source_state_id record in
          let tgt := TransitionRecord.target_state_id record in
          match GraphStore.get_context ctx store with
          | None =>
              (store, Raise (IngestError
                               ("Context '" +:+ ctx +:+ "' does not exist")))
          | Some _ =>
              match GraphStore.get_state ctx src store with
              | None =>
                  (store, Raise (IngestError
                                   ("Source state '" +:+ src +:+ "' not found "
                                    +:+ "in context '" +:+ ctx +:+ "'")))
              | Some _ =>
                  match GraphStore.get_state ctx tgt store with
                  | None =>
                      (store, Raise (IngestError
                                       ("Target state '" +:+ tgt +:+ "' not found "
                                        +:+ "in context '" +:+ ctx +:+ "'")))
                  | Some _ =>
                      match GraphStore.upsert_transition record true store with
                      | (store1, Raise e) => (store1, Raise e)
                      | (store1, Return _) =>
                          (store1,
                           Return (<["status" := JStr "ok"]>
                                   (<["context_id" := JStr ctx]>
                                    (<["transition_id" :=
                                         JStr (TransitionRecord.id record)]> ∅))))
                      end
                  end
              end
          end
      end
  | _ => (store, Raise (IngestError "TransitionRecord payload must be an object"))
  end.

(** The store after a sequence of [/ingest/transition] requests,
    whatever each of them answered. *)
Definition ingest_all (payloads : list json) (store : GraphStore.t) : GraphStore.t :=
  foldl (λ st p, (ingest_transition_record p st).1) store payloads.
End Ingest.

(** *** Contexts, states, batches and bundles *)

Section Bundle.
(** [Context.from_dict], [StateRecord.from_dict] and
    [TransitionRecord.from_dict]. *)
Variable context_from_dict : gmap string json → result Context.t.
Variable state_from_dict : gmap string json → result StateRecord.t.
Variable transition_from_dict : gmap string json → result TransitionRecord.t.

Definition ok_response (fields : list (string * json)) : gmap string json :=
  <["status" := JStr "ok"]> (list_to_map fields).

Definition ingest_context (payload : json) (overwrite : bool)
    (store : GraphStore.t) : GraphStore.t * result (gmap string json) :=
  match payload with
  | JDict data =>
      match context_from_dict data with
      | Raise (KeyError k) =>
          (store, Raise (IngestError
                           ("Missing context field: " +:+ exn_str (KeyError k))))
      | Raise e =>
          (store, Raise (IngestError ("Invalid context payload: " +:+ exn_str e)))
      | Return ctx =>
          let cid := Context.context_id ctx in
          match GraphStore.get_context cid store with
          | Some _ =>
              if negb overwrite
              then (store, Raise (IngestError
                                    ("Context '" +:+ cid +:+ "' already exists")))
              else
                match GraphStore.upsert_context ctx store with
                | (store1, Raise e) => (store1, Raise e)
                | (store1, Return _) =>
                    (store1, Return (ok_response [("context_id", JStr cid)]))
                end
          | None =>
              match GraphStore.upsert_context ctx store with
              | (store1, Raise e) => (store1, Raise e)
              | (store1, Return _) =>
                  (store1, Return (ok_response [("context_id", JStr cid)]))
              end
          end
      end
  | _ => (store, Raise (IngestError "Context payload must be an object"))
  end.

(** [ingest_state_record] up to its answer: the context id and state id
    the answer carries. *)
Definition ingest_state (payload : json) (store : GraphStore.t)
  : GraphStore.t * result (string * string) :=
  match payload with
  | JDict data =>
      match state_from_dict data with
      | Raise (KeyError k) =>
          (store, Raise (IngestError
                           ("Missing state record field: "
                            +:+ exn_str (KeyError k))))
      | Raise e =>
          (store, Raise (IngestError
                           ("Invalid state record payload: " +:+ exn_str e)))
      | Return record =>
          let ctx := StateRecord.context_id record in
          match GraphStore.get_context ctx store with
          | None =>
              (store, Raise (IngestError
                               ("Context '" +:+ ctx +:+ "' does not exist")))
          | Some _ =>
              match GraphStore.upsert_state record store with
              | (store1, Raise e) => (store1, Raise e)
              | (store1, Return _) =>
                  (store1, Return (ctx, StateRecord.id record))
              end
          end
      end
  | _ => (store, Raise (IngestError "StateRecord payload must be an object"))
  end.

Definition ingest_state_record (payload : json) (store : GraphStore.t)
  : GraphStore.t * result (gmap string json) :=
  match ingest_state payload store with
  | (store1, Raise e) => (store1, Raise e)
  | (store1, Return (ctx, sid)) =>
      (store1, Return (ok_response [("context_id", JStr ctx);
                                    ("state_id", JStr sid)]))
  end.

(** [ingest_transition_record] up to its answer. *)
Definition ingest_transition (payload : json) (store : GraphStore.t)
  : GraphStore.t * result (string * string) :=
  match ingest_transition_record transition_from_dict payload store with
  | (store1, Raise e) => (store1, Raise e)
  | (store1, Return response) =>
      (store1,
       Return (match response !! "context_id", response !! "transition_id" with
               | Some (JStr ctx), Some (JStr tid) => (ctx, tid)
               | _, _ => ("", "")
               end))
  end.

(** The [for item in payload] loop of a batch: the ids and the set of
    context ids collected so far are carried along; the first item that
    raises ends the loop. *)
Fixpoint ingest_loop
    (ingest_one : json → GraphStore.t → GraphStore.t * result (string * string))
    (items : list json) (ids : list string) (ctx_ids_set : gset string)
    (store : GraphStore.t)
  : GraphStore.t * result (list string * gset string) :=
  match items with
  | [] => (store, Return (ids, ctx_ids_set))
  | item :: rest =>
      match ingest_one item store with
      | (store1, Raise e) => (store1, Raise e)
      | (store1, Return (ctx, i)) =>
          ingest_loop ingest_one rest (ids ++ [i]) (ctx_ids_set ∪ {[ctx]}) store1
      end
  end.

(** [sorted(ctx_ids_set)] *)
Definition str_le (a b : string) : Prop := String.leb a b = true.

#[global] Instance str_le_dec : RelDecision str_le :=
  λ a b, decide (String.leb a b = true).

Definition sorted (X : gset string) : list string :=
  merge_sort str_le (elements X).

Definition batch_response (ids_key : string) (ids : list string)
    (ctx_ids_set : gset string) : gmap string json :=
  ok_response [("count", JInt (Z.of_nat (length ids)));
               (ids_key, JList (JStr <$> ids));
               ("context_ids", JList (JStr <$> sorted ctx_ids_set))].

Definition ingest_state_records (payload : json) (store : GraphStore.t)
  : GraphStore.t * result (gmap string json) :=
  match payload with
  | JList items =>
      match ingest_loop ingest_state items [] ∅ store with
      | (store1, Raise e) => (store1, Raise e)
      | (store1, Return (ids, ctxs)) =>
          (store1, Return (batch_response "state_ids" ids ctxs))
      end
  | _ => (store, Raise (IngestError "StateRecords payload must be a list"))
  end.

Definition ingest_transition_records (payload : json) (store : GraphStore.t)
  : GraphStore.t * result (gmap string json) :=
  match payload with
  | JList items =>
      match ingest_loop ingest_transition items [] ∅ store with
      | (store1, Raise e) => (store1, Raise e)
      | (store1, Return (ids, ctxs)) =>
          (store1, Return (batch_response "transition_ids" ids ctxs))
      end
  | _ => (store, Raise (IngestError "TransitionRecords payload must be a list"))
  end.

(** [key in payload and payload[key] is not None] *)
Definition present (key : string) (data : gmap string json) : option json :=
  match data !! key with
  | Some JNull | None => None
  | Some v => Some v
  end.

(** [result["count"]] of a batch answer. *)
Definition count_of (response : gmap string json) : json :=
  default JNull (response !! "count").

Definition ingest_bundle (payload : json) (store : GraphStore.t)
  : GraphStore.t * result (gmap string json) :=
  match payload with
  | JDict data =>
      (* 1) context *)
      let step1 :=
        match present "context" data with
        | Some c =>
            match ingest_context c true store with
            | (store1, Raise e) => (store1, Raise e)
            | (store1, Return r) =>
                (store1,
                 Return (<["ingested" := JBool true]>
                         (<["context_id" := default JNull (r !! "context_id")]> ∅)))
            end
        | None =>
            (store,
             Return (<["ingested" := JBool false]> (<["context_id" := JNull]> ∅)))
        end in
      match step1 with
      | (store1, Raise e) => (store1, Raise e)
      | (store1, Return context_info) =>
          (* 2) states *)
          let step2 :=
            match present "states" data with
            | Some l =>
                match ingest_state_records l store1 with
                | (store2, Raise e) => (store2, Raise e)
                | (store2, Return r) => (store2, Return (count_of r))
                end
            | None => (store1, Return (JInt 0))
            end in
          match step2 with
          | (store2, Raise e) => (store2, Raise e)
          | (store2, Return states_count) =>
              (* 3) transitions *)
              let step3 :=
                match present "transitions" data with
                | Some l =>
                    match ingest_transition_records l store2 with
                    | (store3, Raise e) => (store3, Raise e)
                    | (store3, Return r) => (store3, Return (count_of r))
                    end
                | None => (store2, Return (JInt 0))
                end in
              match step3 with
              | (store3, Raise e) => (store3, Raise e)
              | (store3, Return transitions_count) =>
                  (store3,
                   Return (ok_response
                     [("context", JDict context_info);
                      ("states", JDict {[ "count" := states_count ]});
                      ("transitions", JDict {[ "count" := transitions_count ]})]))
              end
          end
      end
  | _ => (store, Raise (IngestError "Bundle payload must be an object"))
  end.

(** *** Sequences of ingest requests *)

Inductive request :=
| PostContext (payload : json) (overwrite : bool)
| PostState (payload : json)
| PostStates (payload : json)
| PostTransition (payload : json)
| PostTransitions (payload : json)
| PostBundle (payload : json).

(** The store after one request, whatever its answer. *)
Definition serve (store : GraphStore.t) (rq : request) : GraphStore.t :=
  match rq with
  | PostContext p o => (ingest_context p o store).1
  | PostState p => (ingest_state_record p store).1
  | PostStates p => (ingest_state_records p store).1
  | PostTransition p => (ingest_transition_record transition_from_dict p store).1
  | PostTransitions p => (ingest_transition_records p store).1
  | PostBundle p => (ingest_bundle p store).1
  end.

Definition serve_all (rqs : list request) (store : GraphStore.t) : GraphStore.t :=
  foldl serve store rqs.
End Bundle.
End IngestHandler.

(** ** The workflow store ([atlas/api/endpoints/workflows.py]) *)

Module Workflow.
Record t := mk {
  workflow_id : string;
  context_id : string;
  label : string;
  description : string;
  transition_ids : list string;
  intent_id : option string;
  tags : list string;
  metadata : gmap string json
}.

(** Outcome of a call of the workflow layer: a value, a
    [WorkflowError], or an exception the layer does not catch. *)
Inductive answer (A : Type) :=
| Ok (a : A)
| WorkflowError (msg : string)
| Uncaught (e : exn).
Arguments Ok {A} a.
Arguments WorkflowError {A} msg.
Arguments Uncaught {A} e.

Definition to_dict (self : t) : gmap string json :=
  <["workflow_id" := JStr (workflow_id self)]>
  (<["context_id" := JStr (context_id self)]>
   (<["label" := JStr (label self)]>
    (<["description" := JStr (description self)]>
     (<["transition_ids" := JList (JStr <$> transition_ids self)]>
      (<["intent_id" := match intent_id self with
                        | Some i => JStr i
                        | None => JNull
                        end]>
       (<["tags" := JList (JStr <$> tags self)]>
        (<["metadata" := JDict (metadata self)]> ∅))))))).

Section Decode.
(** [str(x)] for an [x] that is not a string. *)
Variable str_other : json → string.

(** [str(x)] *)
Definition str (x : json) : string :=
  match x with
  | JStr s => s
  | _ => str_other x
  end.

(** The four required fields, read in the order of the [try] block;
    the first missing key is the [KeyError]. *)
Definition required (payload : gmap string json)
  : string + (string * string * string * string) :=
  match payload !! "workflow_id" with
  | None => inl "workflow_id"
  | Some w =>
      match payload !! "context_id" with
      | None => inl "context_id"
      | Some c =>
          match payload !! "label" with
          | None => inl "label"
          | Some l =>
              match payload !! "description" with
              | None => inl "description"
              | Some d => inr (str w, str c, str l, str d)
              end
          end
      end
  end.

Definition from_dict (payload : json) : answer t :=
  match payload with
  | JDict data =>
      match required data with
      | inl key =>
          WorkflowError ("Missing workflow field: " +:+ exn_str (KeyError key))
      | inr (workflow_id, context_id, label, description) =>
          match default (JList []) (data !! "transition_ids") with
          | JList transition_ids_raw =>
              let transition_ids := str <$> transition_ids_raw in
              let intent_id :=
                match data !! "intent_id" with
                | None | Some JNull => None
                | Some intent_id_raw => Some (str intent_id_raw)
                end in
              match default (JList []) (data !! "tags") with
              | JList tags_raw =>
                  let tags := str <$> tags_raw in
                  match default (JDict ∅) (data !! "metadata") with
                  | JNull =>
                      Ok (mk workflow_id context_id label description
                            transition_ids intent_id tags ∅)
                  | JDict metadata_raw =>
                      Ok (mk workflow_id context_id label description
                            transition_ids intent_id tags metadata_raw)
                  | _ =>
                      WorkflowError
                        "workflow.metadata must be an object when provided"
                  end
              | _ => WorkflowError "workflow.tags must be a list when provided"
              end
          | _ => WorkflowError "workflow.transition_ids must be a list"
          end
      end
  | _ => WorkflowError "Workflow payload must be an object"
  end.
End Decode.
End Workflow.

Module WorkflowStore.
Record t := mk {
  _workflows : gmap string Workflow.t;
  _by_context : gmap string (gset string)
}.

(** [WorkflowStore()] *)
Definition init : t := mk ∅ ∅.

Definition upsert_workflow (workflow : Workflow.t) (self : t) : t :=
  let wid := Workflow.workflow_id workflow in
  let ctx := Workflow.context_id workflow in
  (* [setdefault(ctx, set())], then [add] on the set it returned *)
  let ctx_ids := default ∅ (_by_context self !! ctx) in
  mk (<[wid := workflow]> (_workflows self))
     (<[ctx := ctx_ids ∪ {[wid]}]> (_by_context self)).

Definition get_workflow (workflow_id : string) (self : t) : option Workflow.t :=
  _workflows self !! workflow_id.

Section Listing.
(** Iteration order of a Python set, and [s.strip().lower()]. *)
Variable iter_set : gset string → list string.
Variable strip_lower : string → string.

(** [[self._workflows[w_id] for w_id in ids]]: a missing id raises
    [KeyError]. *)
Fixpoint lookup_all (workflows : gmap string Workflow.t) (ids : list string)
  : result (list Workflow.t) :=
  match ids with
  | [] => Return []
  | w_id :: rest =>
      match workflows !! w_id with
      | None => Raise (KeyError w_id)
      | Some wf =>
          match lookup_all workflows rest with
          | Return wfs => Return (wf :: wfs)
          | Raise e => Raise e
          end
      end
  end.

Definition list_workflows (context_id intent_id tag : option string) (self : t)
  : result (list Workflow.t) :=
  let selected :=
    match context_id with
    | Some c =>
        lookup_all (_workflows self)
                   (iter_set (default ∅ (_by_context self !! c)))
    | None => Return (map_to_list (_workflows self)).*2
    end in
  match selected with
  | Raise e => Raise e
  | Return workflows =>
      let workflows1 :=
        match intent_id with
        | Some i =>
            filter (λ wf, Workflow.intent_id wf = Some i) workflows
        | None => workflows
        end in
      let workflows2 :=
        match tag with
        | Some tg =>
            let t_norm := strip_lower tg in
            filter (λ wf, Exists (λ tt, strip_lower tt = t_norm)
                                 (Workflow.tags wf)) workflows1
        | None => workflows1
        end in
      Return workflows2
  end.
End Listing.

Definition delete_workflow (workflow_id : string) (self : t) : t * bool :=
  match _workflows self !! workflow_id with
  | None => (self, false)
  | Some wf =>
      let workflows1 := delete workflow_id (_workflows self) in
      let ctx := Workflow.context_id wf in
      match _by_context self !! ctx with
      | None => (mk workflows1 (_by_context self), true)
      | Some ctx_set =>
          let ctx_set1 := ctx_set ∖ {[workflow_id]} in
          if bool_decide (size ctx_set1 = 0%nat)
          then (mk workflows1 (delete ctx (_by_context self)), true)
          else (mk workflows1 (<[ctx := ctx_set1]> (_by_context self)), true)
      end
  end.

Inductive op :=
| Upsert (workflow : Workflow.t)
| Delete (workflow_id : string).

Definition step (self : t) (o : op) : t :=
  match o with
  | Upsert w => upsert_workflow w self
  | Delete i => (delete_workflow i self).1
  end.

Definition run (ops : list op) (self : t) : t := foldl step self ops.
End WorkflowStore.

(** ** The workflow handler ([atlas/api/endpoints/workflows.py]) *)

Module WorkflowHandler.
Import Workflow.

(** The handler holds the graph store and the workflow store. *)
Record t := mk {
  store : GraphStore.t;
  workflow_store : WorkflowStore.t
}.

Section Handler.
(** Iteration order of a Python set, [s.strip().lower()], [str(x)] for
    a non-string and [_transition_record_to_dict]. *)
Variable iter_set : gset string → list string.
Variable strip_lower : string → string.
Variable str_other : json → string.
Variable _transition_record_to_dict : TransitionRecord.t → json.

(** [[tr_id for tr_id in transition_ids if get_transition(...) is None]] *)
Definition missing (context_id : string) (transition_ids : list string)
    (store : GraphStore.t) : list string :=
  filter (λ tr_id, GraphStore.get_transition context_id tr_id store = None)
         transition_ids.

Definition upsert_workflow (payload : json) (self : t)
  : t * answer (gmap string json) :=
  match Workflow.from_dict str_other payload with
  | Ok workflow =>
      let ctx := Workflow.context_id workflow in
      match GraphStore.get_context ctx (store self) with
      | None => (self, WorkflowError ("Context '" +:+ ctx +:+ "' not found"))
      | Some _ =>
          match missing ctx (Workflow.transition_ids workflow) (store self) with
          | [] =>
              (mk (store self)
                  (WorkflowStore.upsert_workflow workflow (workflow_store self)),
               Ok (<["status" := JStr "ok"]>
                   (<["workflow" := JDict (Workflow.to_dict workflow)]> ∅)))
          | m =>
              (self,
               WorkflowError ("Transitions not found in context '" +:+ ctx
                              +:+ "': " +:+ String.concat ", " m))
          end
      end
  | WorkflowError msg => (self, WorkflowError msg)
  | Uncaught e => (self, Uncaught e)
  end.

(** [[rec for tr_id in transition_ids if (rec := get_transition(...))
      is not None]] *)
Definition found (context_id : string) (transition_ids : list string)
    (store : GraphStore.t) : list TransitionRecord.t :=
  omap (λ tr_id, GraphStore.get_transition context_id tr_id store)
       transition_ids.

Definition get_workflow (workflow_id : string) (expand_transitions : bool)
    (self : t) : answer (gmap string json) :=
  match WorkflowStore.get_workflow workflow_id (workflow_store self) with
  | None => WorkflowError ("Workflow '" +:+ workflow_id +:+ "' not found")
  | Some workflow =>
      let response : gmap string json :=
        {[ "workflow" := JDict (Workflow.to_dict workflow) ]} in
      if expand_transitions
      then
        let records := found (Workflow.context_id workflow)
                             (Workflow.transition_ids workflow) (store self) in
        Ok (<["transitions" := JList (_transition_record_to_dict <$> records)]>
            response)
      else Ok response
  end.

Definition list_workflows (context_id intent_id tag : option string) (self : t)
  : answer (gmap string json) :=
  let unknown :=
    match context_id with
    | Some c => bool_decide (GraphStore.get_context c (store self) = None)
    | None => false
    end in
  if unknown
  then WorkflowError ("Context '" +:+ default "" context_id +:+ "' not found")
  else
    match WorkflowStore.list_workflows iter_set strip_lower
            context_id intent_id tag (workflow_store self) with
    | Raise e => Uncaught e
    | Return workflows =>
        Ok (<["context_id" := match context_id with
                              | Some c => JStr c
                              | None => JNull
                              end]>
            (<["workflows" :=
                 JList ((λ wf, JDict (Workflow.to_dict wf)) <$> workflows)]> ∅))
    end.

Definition delete_workflow (workflow_id : string) (self : t)
  : t * gmap string json :=
  let '(workflow_store1, deleted) :=
    WorkflowStore.delete_workflow workflow_id (workflow_store self) in
  (mk (store self) workflow_store1,
   <["status" := JStr "ok"]> (<["deleted" := JBool deleted]> ∅)).

(** *** What happens to a handler and its two stores *)

Inductive event :=
| GraphCall (o : GraphStore.op)
| PutWorkflow (payload : json)
| DropWorkflow (workflow_id : string).

Definition play (self : t) (ev : event) : t :=
  match ev with
  | GraphCall o => mk (GraphStore.step (store self) o) (workflow_store self)
  | PutWorkflow payload => (upsert_workflow payload self).1
  | DropWorkflow workflow_id => (delete_workflow workflow_id self).1
  end.

Definition play_all (events : list event) (self : t) : t :=
  foldl play self events.
End Handler.
End WorkflowHandler.

(** ** The HMAC signer ([atlas/storage/signing.py]) *)

Module Base64.
(** [base64.urlsafe_b64encode] (RFC 4648, section 5) on a byte string
    given as a list of byte values. *)
Definition alphabet : list ascii :=
  list_ascii_of_string
    "ABCDEFGHIJKLMNOPQRSTUVWXYZabcdefghijklmnopqrstuvwxyz0123456789-_".

Definition digit (n : N) : ascii := nth (N.to_nat n) alphabet "A"%char.

Fixpoint urlsafe_b64encode (bs : list N) : string :=
  match bs with
  | [] => ""
  | [a] =>
      String (digit (a / 4)) (String (digit ((a mod 4) * 16)) "==")
  | [a; b] =>
      String (digit (a / 4))
        (String (digit ((a mod 4) * 16 + b / 16))
           (String (digit ((b mod 16) * 4)) "="))
  | a :: b :: c :: rest =>
      String (digit (a / 4))
        (String (digit ((a mod 4) * 16 + b / 16))
           (String (digit ((b mod 16) * 4 + c / 64))
              (String (digit (c mod 64)) (urlsafe_b64encode rest))))
  end%N.

(** [s.rstrip("=")] *)
Fixpoint rstrip_eq (s : string) : string :=
  match s with
  | EmptyString => EmptyString
  | String c s' =>
      match rstrip_eq s' with
      | EmptyString => if Ascii.eqb c "="%char then EmptyString
                       else String c EmptyString
      | r => String c r
      end
  end.
End Base64.

Module SignerConfig.
Record t := mk { secret : string; algorithm : string }.
End SignerConfig.

Module Signer.
(** The bytes of a [str] ([encode] for the signature alphabet, and the
    model's strings are byte strings). *)
Definition encode (s : string) : list N := N_of_ascii <$> list_ascii_of_string s.

(** [s.isascii()] *)
Definition isascii (s : string) : bool :=
  forallb (λ c, N.ltb (N_of_ascii c) 128) (list_ascii_of_string s).

Record t := mk {
  _config : SignerConfig.t;
  _key_bytes : list N;
  (** [hmac.new(key, msg, digestmod).digest()] for the configured
      [digestmod] *)
  _digestmod : list N → list N → list N
}.

Section Signing.
(** [getattr(hashlib, name)] as [hmac.new] uses it; [None]:
    [AttributeError]. *)
Variable hashlib : string → option (list N → list N → list N).
(** [json.dumps(payload, sort_keys=True, separators=(",", ":"),
    ensure_ascii=False, allow_nan=False)], which raises on payloads
    that are not JSON-serializable. *)
Variable json_dumps : json → result string.

Definition get_digestmod (config : SignerConfig.t)
  : result (list N → list N → list N) :=
  match hashlib (SignerConfig.algorithm config) with
  | Some d => Return d
  | None =>
      Raise (ValueError ("Unsupported hash algorithm: "
                         +:+ SignerConfig.algorithm config))
  end.

(** [Signer(config)] *)
Definition init (config : SignerConfig.t) : result t :=
  match get_digestmod config with
  | Return d => Return (mk config (encode (SignerConfig.secret config)) d)
  | Raise e => Raise e
  end.

Definition _canonical_json_bytes (payload : json) : result (list N) :=
  match json_dumps payload with
  | Return s => Return (encode s)
  | Raise e => Raise e
  end.

Definition sign (payload : json) (self : t) : result string :=
  match _canonical_json_bytes payload with
  | Raise e => Raise e
  | Return canon =>
      let raw := _digestmod self (_key_bytes self) canon in
      Return (Base64.rstrip_eq (Base64.urlsafe_b64encode raw))
  end.

(** [hmac.compare_digest(a, b)] with [a] a [str]: [b] must be an
    ASCII [str] too, anything else raises [TypeError]. *)
Definition compare_digest (a : string) (b : json) : result bool :=
  match b with
  | JStr s =>
      if isascii a && isascii s then Return (String.eqb a s)
      else Raise (TypeError "comparing strings with non-ASCII characters is not supported")
  | _ => Raise (TypeError "unsupported operand types(s) or combination of types")
  end.

Definition verify (payload : json) (signature : json) (self : t) : result bool :=
  if negb (truthy signature) then Return false
  else
    match sign payload self with
    | Raise e => Raise e
    | Return expected => compare_digest expected signature
    end.

Definition sign_record (record : gmap string json) (field : string) (self : t)
  : result (gmap string json) :=
  let payload := delete field record in
  match sign (JDict payload) self with
  | Raise e => Raise e
  | Return sig => Return (<[field := JStr sig]> payload)
  end.

Definition verify_record (record : gmap string json) (field : string) (self : t)
  : result bool :=
  match record !! field with
  | None => Return false
  | Some signature =>
      let payload := delete field record in
      verify (JDict payload) signature self
  end.
End Signing.
End Signer.

(** ** The state tracker ([theseus/core/state_tracker.py]) *)

Module TrackedState.
Record t := mk {
  state : UIState.t;
  first_seen_at : string;
  last_seen_at : string;
  times_seen : Z
}.

(** [TrackedState(state=state)] at time [now] *)
Definition new (state : UIState.t) (now : string) : t := mk state now now 1.

Definition touch (now : string) (self : t) : t :=
  mk (state self) (first_seen_at self) now (times_seen self + 1).
End TrackedState.

Module StateTrackerConfig.
Record t := mk {
  prefer_fingerprint_keys : list string;
  allow_id_fallback : bool;
  auto_generate_ids : bool
}.

Definition default : t := mk ["structural"; "visual"; "semantic"] true true.
End StateTrackerConfig.

Module StateTracker.
Record t := mk {
  _config : StateTrackerConfig.t;
  _states_by_id : gmap string TrackedState.t;
  _index_by_key : gmap string string
}.

(** [StateTracker(config)] *)
Definition init (config : option StateTrackerConfig.t) : t :=
  mk (default StateTrackerConfig.default config) ∅ ∅.

(** The [for key in prefer_fingerprint_keys] loop of [_make_dedup_key]. *)
Fixpoint first_fingerprint (fingerprint_map : gmap string string)
    (keys : list string) : option string :=
  match keys with
  | [] => None
  | key :: rest =>
      match fingerprint_map !! key with
      | Some value =>
          if String.eqb value "" then first_fingerprint fingerprint_map rest
          else Some (key +:+ ":" +:+ value)
      | None => first_fingerprint fingerprint_map rest
      end
  end.

Definition _make_dedup_key (state : UIState.t) (self : t) : option string :=
  match first_fingerprint (UIState.fingerprints state)
          (StateTrackerConfig.prefer_fingerprint_keys (_config self)) with
  | Some k => Some k
  | None =>
      if StateTrackerConfig.allow_id_fallback (_config self)
         && negb (String.eqb (UIState.id state) "")
      then Some ("id:" +:+ UIState.id state)
      else None
  end.

(** [observe_state(state)].  [uuid] is what [uuid.uuid4().hex] returns
    if it is called, [now] the clock reading. *)
Definition observe_state (state : UIState.t) (uuid now : string) (self : t)
  : t * result (string * bool) :=
  let state1 :=
    if String.eqb (UIState.id state) ""
       && StateTrackerConfig.auto_generate_ids (_config self)
    then UIState.set_id uuid state
    else state in
  let dedup_key := _make_dedup_key state1 self in
  let register :=
    let state_id := UIState.id state1 in
    let tracked := TrackedState.new state1 now in
    (mk (_config self)
        (<[state_id := tracked]> (_states_by_id self))
        (match dedup_key with
         | Some k => <[k := state_id]> (_index_by_key self)
         | None => _index_by_key self
         end),
     Return (state_id, true)) in
  match dedup_key with
  | Some k =>
      match _index_by_key self !! k with
      | Some state_id =>
          match _states_by_id self !! state_id with
          | None => (self, Raise (KeyError state_id))
          | Some tracked =>
              (mk (_config self)
                  (<[state_id := TrackedState.touch now tracked]>
                     (_states_by_id self))
                  (_index_by_key self),
               Return (state_id, false))
          end
      | None => register
      end
  | None => register
  end.

Definition get_tracked (state_id : string) (self : t) : option TrackedState.t :=
  _states_by_id self !! state_id.

Definition all_states (self : t) : list UIState.t :=
  TrackedState.state <$> (map_to_list (_states_by_id self)).*2.

(** [len(tracker)] *)
Definition len (self : t) : nat := size (_states_by_id self).

(** The tracker after a sequence of [observe_state] calls, each with
    the state observed, the id [uuid4] would give and the clock
    reading. *)
Definition observe_all (observations : list (UIState.t * string * string))
    (self : t) : t :=
  foldl (λ st '(state, uuid, now), (observe_state state uuid now st).1)
        self observations.
End StateTracker.
(** ** Properties of stores *)

Module StoreSpec.
Import GraphStore.

(** An incidence index [idx] agrees with the stored transitions on the
    endpoint [endpoint] (source or target): [tid ∈ idx[c][s]] iff [tid]
    is stored in [transitions[c]] and its record has endpoint [s]. *)
Definition index_consistent (endpoint : TransitionRecord.t → string)
  (idx : gmap string (gmap string (gset string)))
  (transitions : gmap string (gmap string TransitionRecord.t)) : Prop :=
  ∀ c s tid,
  tid ∈ index_get idx c s ↔
  ∃ r, default ∅ (transitions !! c) !! tid = Some r ∧ endpoint r = s.

Definition outgoing_consistent (self : t) : Prop :=
  index_consistent TransitionRecord.source_state_id
                 (_outgoing self) (_transitions self).

Definition incoming_consistent (self : t) : Prop :=
  index_consistent TransitionRecord.target_state_id
                 (_incoming self) (_transitions self).

(** A stored record was observed at least once. *)
Definition observed_once (self : t) : Prop :=
  ∀ c tid r,
  get_transition c tid self = Some r → 1 ≤ TransitionRecord.times_observed r.

(** The data model's constraint on an input record:
    [times_observed ≥ 1]. *)
Definition well_formed_op (o : op) : Prop :=
  match o with
  | UpsertTransition r _ => 1 ≤ TransitionRecord.times_observed r
  | _ => True
  end.

(** [r] and [r'] agree on every field but [times_observed]. *)
Definition same_but_times (r r' : TransitionRecord.t) : Prop :=
  TransitionRecord.context_id r' = TransitionRecord.context_id r
  ∧ TransitionRecord.transition r' = TransitionRecord.transition r
  ∧ TransitionRecord.discovered_at r' = TransitionRecord.discovered_at r
  ∧ TransitionRecord.metadata r' = TransitionRecord.metadata r.

(** [times_observed] of the record stored before the call, [0] when
    there is none. *)
Definition prior (c tid : string) (self : t) : Z :=
  match get_transition c tid self with
  | Some old => TransitionRecord.times_observed old
  | None => 0
  end.

(** What the specification promises for [times_observed] after
    [upsert_transition(t, increment_observed)]. *)
Definition merged_as_specified (t0 : TransitionRecord.t) (inc : bool)
  (before after : t) : Prop :=
  let c := TransitionRecord.context_id t0 in
  let tid := TransitionRecord.id t0 in
  ∃ r', get_transition c tid after = Some r'
      ∧ same_but_times t0 r'
      ∧ TransitionRecord.times_observed r' =
          if inc then Z.max (prior c tid before + 1) 1
          else TransitionRecord.times_observed t0.

(** The record [upsert_transition(record, increment_observed)] stores
    when it does not raise. *)
Definition stored_record (record : TransitionRecord.t) (inc : bool) (self : t)
  : TransitionRecord.t :=
  match get_transition (TransitionRecord.context_id record)
                     (TransitionRecord.id record) self with
  | Some existing =>
    if inc
    then TransitionRecord.set_times_observed
           (TransitionRecord.times_observed existing + 1) record
    else record
  | None => record
  end.

(** The call raises: the id is new and the context is full. *)
Definition full_for (record : TransitionRecord.t) (self : t) : bool :=
  let c := TransitionRecord.context_id record in
  bool_decide (get_transition c (TransitionRecord.id record) self = None)
  && at_capacity (GraphStoreConfig.max_transitions_per_context (_config self))
               (size (default ∅ (_transitions self !! c))).

(** *** Paths *)

(** [es] is a chain of edges leading from [s] to [t]. *)
Fixpoint chain (es : list TransitionRecord.t) (s t : string) : Prop :=
  match es with
  | [] => s = t
  | e :: es' =>
    TransitionRecord.source_state_id e = s
    ∧ chain es' (TransitionRecord.target_state_id e) t
  end.

(** [e] is one of the transitions of context [c]. *)
Definition stored (c : string) (self : GraphStore.t) (e : TransitionRecord.t) : Prop :=
  ∃ tid, get_transition c tid self = Some e.

(** A sequence of transitions of context [c] that leads from [s] to [t]. *)
Definition path (c : string) (self : GraphStore.t)
  (es : list TransitionRecord.t) (s t : string) : Prop :=
  Forall (stored c self) es ∧ chain es s t.

(** Consecutive edges fit together. *)
Definition linked (es : list TransitionRecord.t) : Prop :=
  ∀ i e e',
  es !! i = Some e → es !! S i = Some e' →
  TransitionRecord.target_state_id e = TransitionRecord.source_state_id e'.

(** The first edge leaves [s] and the last edge enters [t]. *)
Definition endpoints (es : list TransitionRecord.t) (s t : string) : Prop :=
  (∀ e, head es = Some e → TransitionRecord.source_state_id e = s)
  ∧ (∀ e, last es = Some e → TransitionRecord.target_state_id e = t).

(** [max_depth], when set, bounds the length [n]. *)
Definition within (max_depth : option Z) (n : nat) : Prop :=
  match max_depth with
  | Some m => Z.of_nat n ≤ m
  | None => True
  end.
End StoreSpec.

(** ** Properties of the workflow store *)

Module WorkflowSpec.
Import WorkflowStore.

(** Every stored workflow is indexed under its current context. *)
Definition indexed (self : t) : Prop :=
  ∀ wid w,
    _workflows self !! wid = Some w →
    wid ∈ default ∅ (_by_context self !! Workflow.context_id w).

(** Every indexed id is the id of a stored workflow of that context:
    what [list_workflows(context_id=c)] needs to answer with workflows
    of [c] only. *)
Definition index_exact (self : t) : Prop :=
  ∀ c wid,
    wid ∈ default ∅ (_by_context self !! c) →
    ∃ w, _workflows self !! wid = Some w ∧ Workflow.context_id w = c.
End WorkflowSpec.

(** ** Sample data *)

Module Sample.
Definition click : Action.t := Action.mk CLICK None None ∅.

(** A transition record of context ["ctx1"]. *)
Definition edge (tid src tgt : string) (n : Z) : TransitionRecord.t :=
  TransitionRecord.mk "ctx1"
  (Transition.mk tid src tgt click None (FFinite 1 0) ∅) "2024-01-01T00:00:00Z" n ∅.

Definition ui (sid : string) (fps : gmap string string) : UIState.t :=
  UIState.mk sid "app" None PLATFORM_OTHER None fps None [] ∅.

Definition state (sid : string) : StateRecord.t :=
  StateRecord.mk "ctx1" (ui sid ∅) "2024-01-01T00:00:00Z" false false [] ∅.

Definition ctx1 : Context.t :=
  Context.mk "ctx1" "app" None PLATFORM_OTHER None "1.0.0"
           "2024-01-01T00:00:00Z" ∅ ∅.

(** Context ["ctx1"] alone. *)
Definition store_ctx : GraphStore.t :=
  GraphStore.run [GraphStore.UpsertContext ctx1] (GraphStore.init None).

(** Context ["ctx1"] with the states ["s1"] and ["s2"]. *)
Definition store_states : GraphStore.t :=
  GraphStore.run [GraphStore.UpsertState (state "s1");
                GraphStore.UpsertState (state "s2")] store_ctx.

(** The graph of scenario D: [A→B (t1), B→C (t2), C→D (t3), A→D (t4)]. *)
Definition store_abcd : GraphStore.t :=
  GraphStore.run
  [GraphStore.UpsertTransition (edge "t1" "A" "B" 1) true;
   GraphStore.UpsertTransition (edge "t2" "B" "C" 1) true;
   GraphStore.UpsertTransition (edge "t3" "C" "D" 1) true;
   GraphStore.UpsertTransition (edge "t4" "A" "D" 1) true]
  (GraphStore.init None).

(** The tracker of scenario F. *)
Definition tracker_f : StateTracker.t :=
  StateTracker.init (Some (StateTrackerConfig.mk ["structural"] true true)).

Definition workflow (wid ctx : string) : Workflow.t :=
  Workflow.mk wid ctx "label" "description" [] None [] ∅.

(** Stand-ins for the library functions the signer is handed: a
    three-byte digest and an encoder that prints every payload as
    [{}]. *)
Definition toy_digest : list N → list N → list N := λ _ _, [77; 97; 110]%N.
Definition toy_dumps : json → result string := λ _, Return "{}".
Definition toy_signer : Signer.t :=
  Signer.mk (SignerConfig.mk "secret" "sha256") (Signer.encode "secret") toy_digest.

(** A decoder that answers with one fixed record. *)
Definition decode_as (r : TransitionRecord.t)
  : gmap string json → result TransitionRecord.t := λ _, Return r.
End Sample.
(** ** Invariants of the breadth-first search *)

Module SearchSpec.
Import GraphStore StoreSpec.

Section Search.
Variable iter_set : gset string → list string.
Variable self : GraphStore.t.
Variable context_id source target : string.
Variable max_depth : option Z.

(** [ctx_transitions] and the ids the [for] loop runs over at [u]. *)
Definition edges : gmap string TransitionRecord.t :=
  default ∅ (_transitions self !! context_id).

Definition tr_ids_of (u : string) : list string :=
  match default ∅ (_outgoing self !! context_id) !! u with
  | Some ids => iter_set ids
  | None => []
  end.

(** [v] is [n] edges away from the source along stored transitions. *)
Inductive reach : nat → string → Prop :=
| reach_source : reach O source
| reach_edge n u e :
    reach n u → stored context_id self e →
    TransitionRecord.source_state_id e = u →
    reach (S n) (TransitionRecord.target_state_id e).

(** Number of stored transitions whose target is not visited yet: with
    the queue length, what bounds the iterations still to come. *)
Definition unvisited (b : bfs) : nat :=
  length (filter (λ r, TransitionRecord.target_state_id r ∉ visited b)
                 (map_to_list edges).*2).

Definition remaining (b : bfs) : nat := (length (queue b) + unvisited b)%nat.

(** Shape of the search state, whatever the store holds: the three
    tables have the same keys, the queue holds visited states, and
    [prev] links every visited state but the source to a visited state
    one level up through a stored transition that the loop iterated. *)
Record bfs_wf (b : bfs) : Prop := {
  wf_depth : dom (depth b) = visited b;
  wf_prev : dom (prev b) = visited b;
  wf_queue : ∀ q, q ∈ queue b → q ∈ visited b;
  wf_source : depth b !! source = Some 0
              ∧ prev b !! source = Some (None, None);
  wf_link : ∀ v p,
    prev b !! v = Some p → v ≠ source →
    ∃ u tid r du,
      p = (Some u, Some tid)
      ∧ tid ∈ tr_ids_of u
      ∧ edges !! tid = Some r
      ∧ TransitionRecord.target_state_id r = v
      ∧ depth b !! u = Some du
      ∧ depth b !! v = Some (du + 1);
  wf_bound : ∀ v d, depth b !! v = Some d → 0 ≤ d < Z.of_nat (size (prev b))
}.

(** Every edge that leaves [v] leads to a visited state. *)
Definition closed (b : bfs) (v : string) : Prop :=
  ∀ e, stored context_id self e →
       TransitionRecord.source_state_id e = v →
       TransitionRecord.target_state_id e ∈ visited b.

(** The queue is ordered by depth. *)
Fixpoint queue_sorted (d : gmap string Z) (q : list string) : Prop :=
  match q with
  | [] => True
  | x :: q' =>
      (∀ y dx dy, y ∈ q' → d !! x = Some dx → d !! y = Some dy → dx ≤ dy)
      ∧ queue_sorted d q'
  end.

(** Recorded depths are distances, and none exceeds [max_depth]. *)
Record bfs_levels (b : bfs) : Prop := {
  lv_minimal : ∀ v d n, depth b !! v = Some d → reach n v → d ≤ Z.of_nat n;
  lv_limit : ∀ v d, depth b !! v = Some d → d = 0 ∨ depth_reached max_depth (d - 1) = false
}.

(** The search while the state [u] of depth [du] is being expanded,
    [rest] being the ids the [for] loop has still to iterate. *)
Record expanding (u : string) (du : Z) (rest : list string) (b : bfs) : Prop := {
  ex_levels : bfs_levels b;
  ex_head : depth b !! u = Some du;
  ex_ahead : ∀ q dq, q ∈ queue b → depth b !! q = Some dq → du ≤ dq;
  ex_sorted : queue_sorted (depth b) (queue b);
  ex_top : ∀ v d, depth b !! v = Some d → d ≤ du + 1;
  ex_done : ∀ v d, depth b !! v = Some d → v ≠ u → v ∉ queue b → d ≤ du;
  ex_closed : ∀ v d,
    depth b !! v = Some d → v ≠ u → v ∉ queue b →
    depth_reached max_depth d = false → closed b v;
  ex_current : ∀ tid e,
    depth_reached max_depth du = false →
    edges !! tid = Some e → TransitionRecord.source_state_id e = u →
    tid ∈ rest ∨ TransitionRecord.target_state_id e ∈ visited b;
  ex_target : target ∉ visited b
}.

(** The search at the head of the [while] loop. *)
Definition searching (b : bfs) : Prop :=
  match queue b with
  | [] =>
      bfs_levels b ∧ (target ∉ visited b)
      ∧ (∀ v d, depth b !! v = Some d →
                depth_reached max_depth d = false → closed b v)
  | u :: q =>
      ∃ du, expanding u du (tr_ids_of u)
                      (mk_bfs q (visited b) (prev b) (depth b))
  end.

(** The search when the target has just been reached. *)
Definition arrived (b : bfs) : Prop :=
  bfs_wf b ∧ ∃ d, depth b !! target = Some d ∧ 0 < d.
End Search.
End SearchSpec.
(** ** What a client can read from a store *)

Module ReadSpec.
Import GraphStore.

(** Two stores answer every read alike. *)
Definition same_reads (a b : t) : Prop :=
  (∀ c, get_context c a = get_context c b)
  ∧ (∀ c s, get_state c s a = get_state c s b)
  ∧ (∀ c, list_states c a = list_states c b)
  ∧ (∀ c tid, get_transition c tid a = get_transition c tid b)
  ∧ (∀ c, list_transitions c a = list_transitions c b)
  ∧ (∀ c s, index_get (_outgoing a) c s = index_get (_outgoing b) c s)
  ∧ (∀ c s, index_get (_incoming a) c s = index_get (_incoming b) c s).

(** Every id that reads in [a] reads in [b], and the limits are the
    same. *)
Definition grows (a b : t) : Prop :=
  _config a = _config b
  ∧ (∀ c, is_Some (get_context c a) → is_Some (get_context c b))
  ∧ (∀ c s, is_Some (get_state c s a) → is_Some (get_state c s b))
  ∧ (∀ c tid, is_Some (get_transition c tid a) → is_Some (get_transition c tid b)).

(** [n] does not exceed an optional limit. *)
Definition under (limit : option Z) (n : nat) : Prop :=
  match limit with
  | Some k => Z.of_nat n ≤ Z.max k 0
  | None => True
  end.
End ReadSpec.

(** ** What the ingest layer keeps true of the store *)

Module IngestSpec.
Import GraphStore.

(** No state without its context; no transition without its context
    and both of its end states. *)
Definition referential (store : t) : Prop :=
  (∀ c s r, get_state c s store = Some r → is_Some (get_context c store))
  ∧ (∀ c tid r, get_transition c tid store = Some r →
       is_Some (get_context c store)
       ∧ is_Some (get_state c (TransitionRecord.source_state_id r) store)
       ∧ is_Some (get_state c (TransitionRecord.target_state_id r) store)).

(** The store after the items were ingested one at a time, whatever
    each call answered. *)
Definition one_by_one {A} (one : json → t → t * result A)
    (items : list json) (store : t) : t :=
  foldl (λ st p, (one p st).1) store items.

(** A batch is its items ingested one at a time up to the first one
    that raises: nothing is undone and nothing after it is tried. *)
Definition stops_at_first_failure {A}
    (one : json → t → t * result A)
    (batch : json → t → t * result (gmap string json)) : Prop :=
  ∀ items store,
    match batch (JList items) store with
    | (store', Return response) =>
        store' = one_by_one one items store
        ∧ response !! "count" = Some (JInt (Z.of_nat (length items)))
    | (store', Raise e) =>
        ∃ pre bad rest,
          items = pre ++ bad :: rest
          ∧ (∃ response, (batch (JList pre) store).2 = Return response)
          ∧ (one bad (one_by_one one pre store)).2 = Raise e
          ∧ store' = one_by_one one (pre ++ [bad]) store
    end.

(** [item] is an object that the decoder turns into [r]. *)
Definition decodes {R} (from_dict : gmap string json → result R)
    (item : json) (r : R) : Prop :=
  ∃ data, item = JDict data ∧ from_dict data = Return r.

(** The answer of a batch that ingested records with these ids and
    context ids. *)
Definition batch_answer (ids_key : string) (ids ctx_ids : list string)
    (response : gmap string json) : Prop :=
  response !! "status" = Some (JStr "ok")
  ∧ response !! "count" = Some (JInt (Z.of_nat (length ids)))
  ∧ response !! ids_key = Some (JList (JStr <$> ids))
  ∧ ∃ cs, response !! "context_ids" = Some (JList (JStr <$> cs))
          ∧ Sorted IngestHandler.str_le cs
          ∧ NoDup cs
          ∧ ∀ c, c ∈ cs ↔ c ∈ ctx_ids.
End IngestSpec.

(** Stand-ins for the three decoders: a state record and a transition
    record of context ["ctx1"] built from the ids the payload names. *)
Module IngestSample.
Definition decode_context : gmap string json → result Context.t :=
  λ _, Return Sample.ctx1.

Definition decode_state : gmap string json → result StateRecord.t :=
  λ data,
    match data !! "id" with
    | Some (JStr sid) => Return (Sample.state sid)
    | _ => Raise (KeyError "id")
    end.

Definition decode_edge : gmap string json → result TransitionRecord.t :=
  λ data,
    match data !! "id", data !! "source", data !! "target" with
    | Some (JStr tid), Some (JStr src), Some (JStr tgt) =>
        Return (Sample.edge tid src tgt 1)
    | _, _, _ => Raise (KeyError "id")
    end.

Definition state_item (sid : string) : json := JDict {[ "id" := JStr sid ]}.

Definition edge_item (tid src tgt : string) : json :=
  JDict (<["id" := JStr tid]> (<["source" := JStr src]> {[ "target" := JStr tgt ]})).

(** A bundle with context ["ctx1"], the states ["A"] and ["B"] and the
    transition ["t1"] from ["A"] to ["B"]. *)
Definition bundle : gmap string json :=
  <["context" := JDict ∅]>
  (<["states" := JList [state_item "A"; state_item "B"]]>
   {[ "transitions" := JList [edge_item "t1" "A" "B"] ]}).
End IngestSample.

(** ** What the listing queries select *)

Module QuerySpec.

(** [records] is [base] with the records that do not satisfy [P] left
    out: nothing added, nothing reordered. *)
Definition selects {R} (P : R → Prop) (base records : list R) : Prop :=
  sublist records base ∧ ∀ r, r ∈ records ↔ r ∈ base ∧ P r.

(** An [Optional[str]] filter on a metadata key: not given, or the value
    stored under the key is that string. *)
Definition metadata_passes (key : string) (value : option string)
    (metadata : gmap string json) : Prop :=
  ∀ v, value = Some v → metadata !! key = Some (JStr v).

(** The [tag] filter: not given, empty, or one of the tags is the
    given one after [strip().lower()] on both. *)
Definition tag_passes (strip_lower : string → string) (tag : option string)
    (tags : list string) : Prop :=
  ∀ v, tag = Some v → v ≠ "" → ∃ t, t ∈ tags ∧ strip_lower t = strip_lower v.

Definition state_passes (strip_lower : string → string)
    (tag source review_status : option string) (r : StateRecord.t) : Prop :=
  metadata_passes "source" source (StateRecord.metadata r)
  ∧ metadata_passes "review_status" review_status (StateRecord.metadata r)
  ∧ tag_passes strip_lower tag (StateRecord.tags r).

Definition transition_passes (source review_status intent_id : option string)
    (r : TransitionRecord.t) : Prop :=
  metadata_passes "source" source (TransitionRecord.metadata r)
  ∧ metadata_passes "review_status" review_status (TransitionRecord.metadata r)
  ∧ ∀ v, intent_id = Some v →
         Transition.intent_id (TransitionRecord.transition r) = Some v.
End QuerySpec.

(** Context ["ctx1"] with the states ["A"] and ["B"] and the
    transition ["t1"] between them, as a sequence of store calls. *)
Module QuerySample.
Definition ops_ab : list GraphStore.op :=
  [GraphStore.UpsertContext Sample.ctx1;
   GraphStore.UpsertState (Sample.state "A");
   GraphStore.UpsertState (Sample.state "B");
   GraphStore.UpsertTransition (Sample.edge "t1" "A" "B" 1) true].

(** A serializer that keeps the id only. *)
Definition id_only (r : TransitionRecord.t) : json := JStr (TransitionRecord.id r).
End QuerySample.

(** ** The workflow store and its handler *)

Module HandlerSpec.
Import WorkflowStore.

(** No [Upsert] of the sequence gives a stored workflow another
    context. *)
Fixpoint stable (ops : list op) (self : t) : Prop :=
  match ops with
  | [] => True
  | o :: rest =>
      match o with
      | Upsert w =>
          ∀ old, get_workflow (Workflow.workflow_id w) self = Some old →
                 Workflow.context_id old = Workflow.context_id w
      | Delete _ => True
      end
      ∧ stable rest (step self o)
  end.

(** A workflow is stored under its own id. *)
Definition keyed (self : t) : Prop :=
  ∀ wid w, _workflows self !! wid = Some w → Workflow.workflow_id w = wid.

(** The by-context index has no entry with an empty set. *)
Definition no_empty_entry (self : t) : Prop :=
  ∀ c X, _by_context self !! c = Some X → X ≠ ∅.

(** Every indexed id is the id of a stored workflow. *)
Definition no_dangling_id (self : t) : Prop :=
  ∀ c wid, wid ∈ default ∅ (_by_context self !! c) →
           is_Some (_workflows self !! wid).

(** Every stored workflow refers to a context and to transitions that
    the graph store holds. *)
Definition resolved (h : WorkflowHandler.t) : Prop :=
  ∀ wid w,
    get_workflow wid (WorkflowHandler.workflow_store h) = Some w →
    is_Some (GraphStore.get_context (Workflow.context_id w)
               (WorkflowHandler.store h))
    ∧ Forall (λ tid, is_Some (GraphStore.get_transition (Workflow.context_id w)
                                tid (WorkflowHandler.store h)))
             (Workflow.transition_ids w).
End HandlerSpec.

(** ** The state tracker *)

Module TrackerSpec.
Import StateTracker.

(** Every id the dedup index points to is a tracked state. *)
Definition index_tracked (self : t) : Prop :=
  ∀ key state_id,
    _index_by_key self !! key = Some state_id →
    is_Some (_states_by_id self !! state_id).

(** Every tracked state was seen at least once. *)
Definition seen_once (self : t) : Prop :=
  ∀ state_id tracked,
    _states_by_id self !! state_id = Some tracked →
    1 ≤ TrackedState.times_seen tracked.
End TrackerSpec.
(** * Facts about the graph store *)

Module StoreFacts.
Import GraphStore StoreSpec.

(** ** The [defaultdict] helpers *)

Lemma dd_get_value {V} (m : gmap string (gmap string V)) k :
  (dd_get m k).1 = default ∅ (m !! k).
Proof. unfold dd_get. by destruct (m !! k). Qed.

Lemma dd_get_lookup {V} (m : gmap string (gmap string V)) k c :
  default ∅ ((dd_get m k).2 !! c) = default ∅ (m !! c).
Proof.
  unfold dd_get. destruct (m !! k) eqn:E; simpl; [done|].
  destruct (decide (k = c)) as [->|Hne].
  - by rewrite lookup_insert_eq, E.
  - by rewrite lookup_insert_ne.
Qed.

Lemma dd_get_other {V} (m : gmap string (gmap string V)) k c :
  c ≠ k → (dd_get m k).2 !! c = m !! c.
Proof.
  intros Hne. unfold dd_get. destruct (m !! k); simpl; [done|].
  by rewrite lookup_insert_ne.
Qed.

Lemma index_get_update f c s idx c' s' :
  index_get (index_update f c s idx) c' s' =
  if decide (c = c' ∧ s = s') then f (index_get idx c s)
  else index_get idx c' s'.
Proof.
  unfold index_get, index_update.
  destruct (decide (c = c')) as [->|Hc].
  - rewrite lookup_insert_eq. simpl.
    destruct (decide (s = s')) as [->|Hs].
    + rewrite lookup_insert_eq. simpl.
      by rewrite decide_True.
    + rewrite lookup_insert_ne by done.
      rewrite decide_False; [done | by intros [_ ?]].
  - rewrite lookup_insert_ne by done.
    rewrite decide_False; [done | by intros [? _]].
Qed.

(** ** [upsert_state] *)

Lemma upsert_state_frame (record : StateRecord.t) (self : t) :
  let self' := (upsert_state record self).1 in
  _config self' = _config self
  ∧ _contexts self' = _contexts self
  ∧ _transitions self' = _transitions self
  ∧ _outgoing self' = _outgoing self
  ∧ _incoming self' = _incoming self
  ∧ ∀ c, c ≠ StateRecord.context_id record →
         _states self' !! c = _states self !! c.
Proof.
  unfold upsert_state.
  destruct (dd_get (_states self) (StateRecord.context_id record))
    as [ctx_states states1] eqn:E.
  assert (Hoth : ∀ c, c ≠ StateRecord.context_id record →
                      states1 !! c = _states self !! c).
  { intros c Hc. change states1 with (ctx_states, states1).2.
    rewrite <- E. by apply dd_get_other. }
  destruct (GraphStoreConfig.max_states_per_context (_config self)); simpl;
    [case_match|]; simpl; repeat split; try done;
    intros c Hc; rewrite ?lookup_insert_ne by done; by apply Hoth.
Qed.

Lemma step_state_transitions (record : StateRecord.t) (self : t) c tid :
  get_transition c tid (upsert_state record self).1 = get_transition c tid self.
Proof.
  unfold get_transition.
  by destruct (upsert_state_frame record self) as (_ & _ & -> & _).
Qed.

Lemma upsert_context_frame (context : Context.t) (self : t) :
  let self' := (upsert_context context self).1 in
  _config self' = _config self
  ∧ _states self' = _states self
  ∧ _transitions self' = _transitions self
  ∧ _outgoing self' = _outgoing self
  ∧ _incoming self' = _incoming self.
Proof. unfold upsert_context. by case_match. Qed.

(** ** [upsert_transition] *)

(** Replacing the record of [tid] in context [c] and moving [tid] in
    the index, the way [upsert_transition] does it, keeps an index
    consistent. *)
Lemma index_consistent_move endpoint idx transitions c tid
      (record : TransitionRecord.t) ct t1 :
  index_consistent endpoint idx transitions →
  ct = default ∅ (transitions !! c) →
  (∀ c', default ∅ (t1 !! c') = default ∅ (transitions !! c')) →
  let idx1 :=
    match ct !! tid with
    | Some existing =>
        if bool_decide (endpoint existing = endpoint record) then idx
        else index_update (λ X, X ∖ {[tid]}) c (endpoint existing) idx
    | None => idx
    end in
  index_consistent endpoint
    (index_update (λ X, X ∪ {[tid]}) c (endpoint record) idx1)
    (<[c := <[tid := record]> ct]> t1).
Proof.
  intros Hinv -> Ht1 idx1 c' s' tid'.
  rewrite index_get_update.
  assert (Hidx1 : ∀ s x, x ∈ index_get idx1 c' s ↔
            x ∈ index_get idx c' s ∧
            ¬ (c' = c ∧ x = tid ∧ endpoint record ≠ s)).
  { intros s x. subst idx1.
    destruct (default ∅ (transitions !! c) !! tid) as [existing|] eqn:Eex.
    - case_bool_decide as Hsame.
      + split; [|naive_solver]. intros Hx. split; [done|].
        intros (-> & -> & Hne). apply Hinv in Hx as (r & Hr & <-).
        congruence.
      + rewrite index_get_update. case_decide as Hd.
        * destruct Hd as [-> <-]. rewrite elem_of_difference, elem_of_singleton.
          split.
          -- intros [Hx Hne]. split; [done|]. naive_solver.
          -- intros [Hx Hn]. split; [done|]. intros ->. apply Hn.
             repeat split; congruence.
        * split; [|naive_solver]. intros Hx. split; [done|].
          intros (-> & -> & Hne). apply Hinv in Hx as (r & Hr & <-).
          apply Hd. split; [done|]. congruence.
    - split; [|naive_solver]. intros Hx. split; [done|].
      intros (-> & -> & Hne). apply Hinv in Hx as (r & Hr & <-).
      congruence. }
  assert (Hlk : default ∅ (<[c:=<[tid:=record]> (default ∅ (transitions !! c))]> t1 !! c') !! tid'
                = if decide (c' = c ∧ tid' = tid) then Some record
                  else default ∅ (transitions !! c') !! tid').
  { destruct (decide (c' = c)) as [->|Hc].
    - rewrite lookup_insert_eq. simpl.
      destruct (decide (tid' = tid)) as [->|Ht].
      + rewrite lookup_insert_eq. by rewrite decide_True.
      + rewrite lookup_insert_ne by done.
        rewrite decide_False; [done | by intros [_ ?]].
    - rewrite lookup_insert_ne by done. rewrite Ht1.
      rewrite decide_False; [done | by intros [? _]]. }
  rewrite Hlk. clear Hlk.
  case_decide as Hd2; case_decide as Hd1.
  - destruct Hd2 as [<- <-]. destruct Hd1 as [_ ->].
    rewrite elem_of_union, elem_of_singleton. naive_solver.
  - destruct Hd2 as [<- <-].
    rewrite elem_of_union, elem_of_singleton, Hidx1.
    rewrite (Hinv c (endpoint record) tid'). naive_solver.
  - destruct Hd1 as [-> ->]. rewrite Hidx1.
    split.
    + intros [Hx Hn]. exists record. split; [done|].
      destruct (decide (endpoint record = s')); [done|]. naive_solver.
    + intros (r & [= <-] & <-). naive_solver.
  - rewrite Hidx1, (Hinv c' s' tid'). naive_solver.
Qed.

(** The two components of [dd_get], as the proofs use them. *)
Lemma dd_get_inv {V} (m : gmap string (gmap string V)) k ct t1 :
  dd_get m k = (ct, t1) →
  ct = default ∅ (m !! k) ∧ ∀ c, default ∅ (t1 !! c) = default ∅ (m !! c).
Proof.
  intros E. split.
  - by rewrite <- dd_get_value, E.
  - intros c. by rewrite <- (dd_get_lookup m k c), E.
Qed.

Lemma index_consistent_ext endpoint idx transitions t1 :
  index_consistent endpoint idx transitions →
  (∀ c, default ∅ (t1 !! c) = default ∅ (transitions !! c)) →
  index_consistent endpoint idx t1.
Proof. intros Hinv Ht1 c s tid. rewrite Ht1. apply Hinv. Qed.

Lemma upsert_transition_outgoing record inc self :
  outgoing_consistent self →
  outgoing_consistent (upsert_transition record inc self).1.
Proof.
  unfold outgoing_consistent, upsert_transition. intros Hinv.
  destruct (dd_get _ _) as [ct t1] eqn:E.
  apply dd_get_inv in E as [Hct Ht1].
  pose proof (λ r, index_consistent_move _ _ _
                (TransitionRecord.context_id record)
                (TransitionRecord.id record) r ct t1 Hinv Hct Ht1) as Hmove.
  cbv zeta in Hmove.
  destruct (ct !! TransitionRecord.id record) as [existing|] eqn:Eex.
  - simpl. destruct inc.
    + specialize (Hmove (TransitionRecord.set_times_observed
                           (TransitionRecord.times_observed existing + 1) record)).
      exact Hmove.
    + exact (Hmove record).
  - case_match; simpl.
    + by eapply index_consistent_ext.
    + exact (Hmove record).
Qed.

Lemma upsert_transition_incoming record inc self :
  incoming_consistent self →
  incoming_consistent (upsert_transition record inc self).1.
Proof.
  unfold incoming_consistent, upsert_transition. intros Hinv.
  destruct (dd_get _ _) as [ct t1] eqn:E.
  apply dd_get_inv in E as [Hct Ht1].
  pose proof (λ r, index_consistent_move _ _ _
                (TransitionRecord.context_id record)
                (TransitionRecord.id record) r ct t1 Hinv Hct Ht1) as Hmove.
  cbv zeta in Hmove.
  destruct (ct !! TransitionRecord.id record) as [existing|] eqn:Eex.
  - simpl. destruct inc.
    + specialize (Hmove (TransitionRecord.set_times_observed
                           (TransitionRecord.times_observed existing + 1) record)).
      exact Hmove.
    + exact (Hmove record).
  - case_match; simpl.
    + by eapply index_consistent_ext.
    + exact (Hmove record).
Qed.

Lemma step_consistent self o :
  outgoing_consistent self ∧ incoming_consistent self →
  outgoing_consistent (step self o) ∧ incoming_consistent (step self o).
Proof.
  intros [Hout Hin]. destruct o as [ctx|rec|rec inc]; simpl.
  - unfold outgoing_consistent, incoming_consistent.
    by destruct (upsert_context_frame ctx self) as (_ & _ & -> & -> & ->).
  - unfold outgoing_consistent, incoming_consistent.
    by destruct (upsert_state_frame rec self) as (_ & _ & -> & -> & -> & _).
  - split; [by apply upsert_transition_outgoing
           | by apply upsert_transition_incoming].
Qed.

Lemma run_consistent ops self :
  outgoing_consistent self ∧ incoming_consistent self →
  outgoing_consistent (run ops self) ∧ incoming_consistent (run ops self).
Proof.
  revert self. induction ops as [|o ops IH]; intros self H; [done|].
  simpl. apply IH. by apply step_consistent.
Qed.

Lemma init_consistent config :
  outgoing_consistent (init config) ∧ incoming_consistent (init config).
Proof.
  split; intros c s tid; unfold index_get; simpl;
    rewrite !lookup_empty; simpl; rewrite !lookup_empty; simpl;
    (split; [set_solver | by intros (r & ? & _)]).
Qed.

Lemma reachable_consistent config ops :
  outgoing_consistent (run ops (init config))
  ∧ incoming_consistent (run ops (init config)).
Proof. apply run_consistent, init_consistent. Qed.

(** What [upsert_transition] returns, and what is stored after it. *)
Lemma upsert_transition_outcome record inc self :
  (upsert_transition record inc self).2 =
  if full_for record self
  then Raise (RuntimeError
                ("Context '" +:+ TransitionRecord.context_id record
                 +:+ "' exceeded max_transitions_per_context="
                 +:+ limit_str (GraphStoreConfig.max_transitions_per_context
                                  (_config self))))
  else Return ().
Proof.
  unfold upsert_transition, full_for, get_transition.
  destruct (dd_get _ _) as [ct t1] eqn:E.
  apply dd_get_inv in E as [-> Ht1].
  destruct (default ∅ _ !! TransitionRecord.id record) eqn:Eex; simpl.
  - done.
  - by case_match.
Qed.

Lemma upsert_transition_lookup record inc self c tid :
  get_transition c tid (upsert_transition record inc self).1 =
  if decide (c = TransitionRecord.context_id record
             ∧ tid = TransitionRecord.id record)
  then (if full_for record self then None
        else Some (stored_record record inc self))
  else get_transition c tid self.
Proof.
  unfold upsert_transition, full_for, stored_record, get_transition.
  destruct (dd_get _ _) as [ct t1] eqn:E.
  apply dd_get_inv in E as [-> Ht1].
  assert (Hins : ∀ r,
    default ∅ (<[TransitionRecord.context_id record :=
                  <[TransitionRecord.id record := r]>
                    (default ∅ (_transitions self
                                !! TransitionRecord.context_id record))]> t1
               !! c) !! tid =
    if decide (c = TransitionRecord.context_id record
               ∧ tid = TransitionRecord.id record)
    then Some r else default ∅ (_transitions self !! c) !! tid).
  { intros r. destruct (decide (c = TransitionRecord.context_id record)) as [->|Hc].
    - rewrite lookup_insert_eq. simpl.
      destruct (decide (tid = TransitionRecord.id record)) as [->|Ht].
      + rewrite lookup_insert_eq. by rewrite decide_True.
      + rewrite lookup_insert_ne by done.
        rewrite decide_False; [done | by intros [_ ?]].
    - rewrite lookup_insert_ne by done. rewrite Ht1.
      rewrite decide_False; [done | by intros [? _]]. }
  destruct (default ∅ _ !! TransitionRecord.id record) eqn:Eex; simpl.
  - destruct inc; apply Hins.
  - destruct (at_capacity _ _) eqn:Ecap; simpl.
    + rewrite Ht1. case_decide as Hd; [|done]. by destruct Hd as [-> ->].
    + apply Hins.
Qed.

Lemma upsert_transition_frame record inc self :
  let self' := (upsert_transition record inc self).1 in
  _config self' = _config self
  ∧ _contexts self' = _contexts self
  ∧ _states self' = _states self.
Proof.
  unfold upsert_transition. destruct (dd_get _ _) as [ct t1].
  repeat case_match; done.
Qed.

(** ** The lower bound on [times_observed] *)

Lemma step_observed_once self o :
  well_formed_op o → observed_once self → observed_once (step self o).
Proof.
  intros Hwf Hinv c tid r. destruct o as [ctx|rec|rec inc]; simpl.
  - unfold get_transition.
    destruct (upsert_context_frame ctx self) as (_ & _ & -> & _). apply Hinv.
  - rewrite step_state_transitions. apply Hinv.
  - rewrite upsert_transition_lookup. case_decide as Hd; [|apply Hinv].
    case_match; [done|]. intros [= <-]. unfold stored_record.
    destruct (get_transition _ _ self) as [old|] eqn:Eold; [|done].
    destruct inc; [|done]. simpl. apply Hinv in Eold. lia.
Qed.

Lemma run_observed_once ops self :
  Forall well_formed_op ops → observed_once self → observed_once (run ops self).
Proof.
  revert self. induction ops as [|o ops IH]; intros self Hwf Hinv; [done|].
  inversion Hwf; subst. simpl. apply IH; [done|]. by apply step_observed_once.
Qed.

Lemma init_observed_once config : observed_once (init config).
Proof.
  intros c tid r. unfold get_transition. simpl.
  by rewrite lookup_empty.
Qed.

Lemma elem_of_list_transitions c self r :
  r ∈ list_transitions c self ↔ stored c self r.
Proof.
  unfold list_transitions, stored, get_transition.
  rewrite list_elem_of_fmap. split.
  - intros ([tid r'] & -> & Hin). exists tid. by apply elem_of_map_to_list in Hin.
  - intros (tid & Hin). exists (tid, r). split; [done|].
    by apply elem_of_map_to_list.
Qed.
End StoreFacts.
(** * Facts about transition ingest *)

Module IngestFacts.
Import GraphStore StoreSpec StoreFacts.

Section Ingest.
Variable from_dict : gmap string json → result TransitionRecord.t.

Local Abbreviation ingest := (IngestHandler.ingest_transition_record from_dict).

(** The three referential checks come before any write. *)
Lemma ingest_rejects data record store :
  from_dict data = Return record →
  get_context (TransitionRecord.context_id record) store = None
  ∨ get_state (TransitionRecord.context_id record)
              (TransitionRecord.source_state_id record) store = None
  ∨ get_state (TransitionRecord.context_id record)
              (TransitionRecord.target_state_id record) store = None →
  ∃ msg, ingest (JDict data) store = (store, Raise (IngestError msg)).
Proof.
  intros Hdec Hmiss. unfold IngestHandler.ingest_transition_record.
  rewrite Hdec.
  destruct (get_context _ store); [|by eexists].
  destruct (get_state _ (TransitionRecord.source_state_id record) store);
    [|by eexists].
  destruct (get_state _ (TransitionRecord.target_state_id record) store);
    [|by eexists].
  naive_solver.
Qed.

(** An [IngestError] never comes with a changed store. *)
Lemma ingest_error_no_write payload store store' msg :
  ingest payload store = (store', Raise (IngestError msg)) → store' = store.
Proof.
  unfold IngestHandler.ingest_transition_record. intros H.
  destruct payload; try by inversion H.
  destruct (from_dict m) as [record|e]; [|destruct e; by inversion H].
  repeat (case_match; try by inversion H).
  all: simplify_eq.
  all: match goal with
       | Hu : upsert_transition ?r true ?s = (_, Raise _) |- _ =>
           pose proof (upsert_transition_outcome r true s) as Hout;
           rewrite Hu in Hout; simpl in Hout
       end.
  all: by case_match.
Qed.

(** A request that passes the checks on a store that has room is an
    [upsert_transition] with [increment_observed = true]. *)
Lemma ingest_accepts data record store :
  from_dict data = Return record →
  is_Some (get_context (TransitionRecord.context_id record) store) →
  is_Some (get_state (TransitionRecord.context_id record)
                     (TransitionRecord.source_state_id record) store) →
  is_Some (get_state (TransitionRecord.context_id record)
                     (TransitionRecord.target_state_id record) store) →
  (ingest (JDict data) store).1 = (upsert_transition record true store).1.
Proof.
  intros Hdec [ctx Hctx] [s1 Hs1] [s2 Hs2].
  unfold IngestHandler.ingest_transition_record.
  rewrite Hdec, Hctx, Hs1, Hs2.
  by destruct (upsert_transition record true store) as [store1 []].
Qed.

(** The same request, again and again: the count goes up by one each
    time the record is already there. *)
Lemma ingest_again data record store old n :
  from_dict data = Return record →
  is_Some (get_context (TransitionRecord.context_id record) store) →
  is_Some (get_state (TransitionRecord.context_id record)
                     (TransitionRecord.source_state_id record) store) →
  is_Some (get_state (TransitionRecord.context_id record)
                     (TransitionRecord.target_state_id record) store) →
  get_transition (TransitionRecord.context_id record)
                 (TransitionRecord.id record) store = Some old →
  get_transition (TransitionRecord.context_id record)
                 (TransitionRecord.id record)
                 (IngestHandler.ingest_all from_dict
                    (replicate n (JDict data)) store)
  = Some (match n with
          | O => old
          | S _ => TransitionRecord.set_times_observed
                     (TransitionRecord.times_observed old + Z.of_nat n) record
          end).
Proof.
  revert store old. induction n as [|n IH]; intros store old Hdec Hctx Hs1 Hs2 Hold;
    [done|].
  change (IngestHandler.ingest_all from_dict (replicate (S n) (JDict data)) store)
    with (IngestHandler.ingest_all from_dict (replicate n (JDict data))
            (ingest (JDict data) store).1).
  pose proof (ingest_accepts data record store Hdec Hctx Hs1 Hs2) as Hacc.
  pose proof (upsert_transition_frame record true store) as (_ & Hc & Hs).
  pose proof (upsert_transition_lookup record true store
                (TransitionRecord.context_id record)
                (TransitionRecord.id record)) as Hlk.
  rewrite decide_True in Hlk by done.
  unfold full_for, stored_record in Hlk. rewrite Hold in Hlk. simpl in Hlk.
  rewrite Hacc.
  erewrite IH; [| done | | | | exact Hlk].
  - f_equal. destruct n; simpl; f_equal; lia.
  - unfold get_context. by rewrite Hc.
  - unfold get_state. by rewrite Hs.
  - unfold get_state. by rewrite Hs.
Qed.
End Ingest.
End IngestFacts.
(** * The graph store and the ingest layer: main results *)

Module StoreTheorems.
Import GraphStore StoreSpec StoreFacts IngestFacts.

(** C1 (incidence-index consistency).  Starting from an empty store,
    after any sequence of [upsert_context], [upsert_state] and
    [upsert_transition] calls, a transition id [tid] is in
    [outgoing[c][s]] exactly when [tid] is stored in [transitions[c]]
    with [source_state_id = s], and in [incoming[c][s]] exactly when it
    is stored with [target_state_id = s]. *)
Theorem incidence_indices_consistent
    (config : option GraphStoreConfig.t) (ops : list op) (c s tid : string) :
  let st := run ops (init config) in
  (tid ∈ index_get (_outgoing st) c s ↔
     ∃ r, get_transition c tid st = Some r
          ∧ TransitionRecord.source_state_id r = s)
  ∧ (tid ∈ index_get (_incoming st) c s ↔
     ∃ r, get_transition c tid st = Some r
          ∧ TransitionRecord.target_state_id r = s).
Proof.
  destruct (reachable_consistent config ops) as [Hout Hin].
  split; [apply Hout | apply Hin].
Qed.

(** C10 (frame condition of [upsert_state]).  Whether it inserts,
    replaces or raises, [upsert_state(s)] leaves the transitions map
    and both incidence indices of every context as they were; of the
    states map only the entry of [s.context_id] may change. *)
Theorem upsert_state_touches_only_states (self : t) (record : StateRecord.t) :
  let self' := (upsert_state record self).1 in
  _transitions self' = _transitions self
  ∧ _outgoing self' = _outgoing self
  ∧ _incoming self' = _incoming self
  ∧ _contexts self' = _contexts self
  ∧ ∀ c, c ≠ StateRecord.context_id record →
         _states self' !! c = _states self !! c.
Proof.
  destruct (upsert_state_frame record self) as (_ & ? & ? & ? & ? & ?).
  by repeat split.
Qed.

(** C5 (lower bound on [times_observed]).  After any sequence of store
    operations on well-formed input records (records whose
    [times_observed] is at least 1, as the data model requires), with
    either value of [increment_observed], every transition record the
    store holds has [times_observed ≥ 1]. *)
Theorem times_observed_at_least_one
    (config : option GraphStoreConfig.t) (ops : list op)
    (Hwf : Forall well_formed_op ops) (c : string) (r : TransitionRecord.t)
    (Hin : r ∈ list_transitions c (run ops (init config))) :
  1 ≤ TransitionRecord.times_observed r.
Proof.
  apply elem_of_list_transitions in Hin as [tid Hget].
  eapply run_observed_once; [exact Hwf | apply init_observed_once | exact Hget].
Qed.

Lemma times_observed_at_least_one_witness :
  Forall well_formed_op
    [UpsertState (Sample.state "s1");
     UpsertTransition (Sample.edge "t" "s1" "s2" 1) true;
     UpsertTransition (Sample.edge "t" "s1" "s2" 7) false;
     UpsertTransition (Sample.edge "t" "s2" "s1" 1) true]
  ∧ Sample.edge "t" "s2" "s1" 8 ∈
      list_transitions "ctx1"
        (run [UpsertState (Sample.state "s1");
              UpsertTransition (Sample.edge "t" "s1" "s2" 1) true;
              UpsertTransition (Sample.edge "t" "s1" "s2" 7) false;
              UpsertTransition (Sample.edge "t" "s2" "s1" 1) true] (init None))
  ∧ 1 ≤ TransitionRecord.times_observed (Sample.edge "t" "s2" "s1" 8).
Proof.
  assert (Hwf : Forall well_formed_op
    [UpsertState (Sample.state "s1");
     UpsertTransition (Sample.edge "t" "s1" "s2" 1) true;
     UpsertTransition (Sample.edge "t" "s1" "s2" 7) false;
     UpsertTransition (Sample.edge "t" "s2" "s1" 1) true]).
  { repeat constructor; simpl; lia. }
  assert (Hin : Sample.edge "t" "s2" "s1" 8 ∈
      list_transitions "ctx1"
        (run [UpsertState (Sample.state "s1");
              UpsertTransition (Sample.edge "t" "s1" "s2" 1) true;
              UpsertTransition (Sample.edge "t" "s1" "s2" 7) false;
              UpsertTransition (Sample.edge "t" "s2" "s1" 1) true] (init None))).
  { apply elem_of_list_transitions. exists "t". vm_compute. reflexivity. }
  split; [exact Hwf|]. split; [exact Hin|].
  exact (times_observed_at_least_one None _ Hwf "ctx1" _ Hin).
Defined.
(** C3 (a failed transition ingest is rejected without a write).
    Whenever the decoded record's context does not exist, or its source
    state or its target state is not present in that context,
    [ingest_transition_record] raises [IngestError] and the store after
    the call is the store before it. *)
Theorem failed_ingest_leaves_store
    (from_dict : gmap string json → result TransitionRecord.t)
    (data : gmap string json) (record : TransitionRecord.t) (store : t)
    (Hdecoded : from_dict data = Return record)
    (Hmissing :
       get_context (TransitionRecord.context_id record) store = None
       ∨ get_state (TransitionRecord.context_id record)
                   (TransitionRecord.source_state_id record) store = None
       ∨ get_state (TransitionRecord.context_id record)
                   (TransitionRecord.target_state_id record) store = None) :
  ∃ msg,
    IngestHandler.ingest_transition_record from_dict (JDict data) store
    = (store, Raise (IngestError msg)).
Proof. exact (ingest_rejects from_dict data record store Hdecoded Hmissing). Qed.

Lemma failed_ingest_leaves_store_witness :
  get_state "ctx1" "s1" Sample.store_ctx = None
  ∧ ∃ msg,
      IngestHandler.ingest_transition_record
        (Sample.decode_as (Sample.edge "t" "s1" "s2" 1)) (JDict ∅) Sample.store_ctx
      = (Sample.store_ctx, Raise (IngestError msg)).
Proof.
  split; [reflexivity|].
  apply (failed_ingest_leaves_store
           (Sample.decode_as (Sample.edge "t" "s1" "s2" 1)) ∅
           (Sample.edge "t" "s1" "s2" 1) Sample.store_ctx).
  - reflexivity.
  - right. left. reflexivity.
Defined.

(** Scenario A, with the message it asks for. *)
Example scenario_a :
  IngestHandler.ingest_transition_record
    (Sample.decode_as (Sample.edge "t" "s1" "s2" 1)) (JDict ∅) Sample.store_ctx
  = (Sample.store_ctx,
     Raise (IngestError "Source state 's1' not found in context 'ctx1'"))
  ∧ list_transitions "ctx1" Sample.store_ctx = [].
Proof. split; reflexivity. Qed.

(** C4 as the specification states it fails: on a new id the
    caller's [times_observed] is kept ([5] here, not [1]), and on a
    stored count below zero the result is [prior + 1] without the
    clamp ([-2] here, not [1]).  Both calls return. *)
Lemma observation_merge_counterexample :
  (let t5 := Sample.edge "t" "s1" "s2" 5 in
   let before := init None in
   (upsert_transition t5 true before).2 = Return ()
   ∧ ¬ merged_as_specified t5 true before (upsert_transition t5 true before).1)
  ∧ (let t1 := Sample.edge "t" "s1" "s2" 1 in
     let before := run [UpsertTransition (Sample.edge "t" "s1" "s2" (-3)) false]
                       (init None) in
     (upsert_transition t1 true before).2 = Return ()
     ∧ ¬ merged_as_specified t1 true before (upsert_transition t1 true before).1).
Proof.
  split; (split; [reflexivity|]);
    intros (r' & Hget & _ & Htimes); vm_compute in Hget;
    injection Hget as <-; vm_compute in Htimes; discriminate.
Qed.

(** C4, amended (observation-count merge).  When
    [upsert_transition(t, increment_observed)] returns,
    [get_transition(t.context_id, t.id)] is a record equal to [t] in
    every field except [times_observed]; that field is [prior + 1] when
    a record with this id was already stored and [increment_observed] is
    true (which is [max(prior + 1, 1)] as soon as [prior ≥ 0]), and the
    caller's value when [increment_observed] is false or the id is new.
    In particular, the same request ingested four times, its record
    carrying [times_observed = 1] and its id new to a store that has the
    context, both states and room, leaves [times_observed = 4]. *)
Theorem observation_merge :
  (∀ (self : t) (t0 : TransitionRecord.t) (inc : bool) (self' : t),
     upsert_transition t0 inc self = (self', Return ()) →
     ∃ r',
       get_transition (TransitionRecord.context_id t0)
                      (TransitionRecord.id t0) self' = Some r'
       ∧ same_but_times t0 r'
       ∧ TransitionRecord.times_observed r' =
           match get_transition (TransitionRecord.context_id t0)
                                (TransitionRecord.id t0) self with
           | Some old =>
               if inc then TransitionRecord.times_observed old + 1
               else TransitionRecord.times_observed t0
           | None => TransitionRecord.times_observed t0
           end
       ∧ (∀ old,
            get_transition (TransitionRecord.context_id t0)
                           (TransitionRecord.id t0) self = Some old →
            inc = true → 0 ≤ TransitionRecord.times_observed old →
            TransitionRecord.times_observed r' =
              Z.max (TransitionRecord.times_observed old + 1) 1))
  ∧ (∀ (from_dict : gmap string json → result TransitionRecord.t)
       (data : gmap string json) (record : TransitionRecord.t) (store : t),
       from_dict data = Return record →
       TransitionRecord.times_observed record = 1 →
       is_Some (get_context (TransitionRecord.context_id record) store) →
       is_Some (get_state (TransitionRecord.context_id record)
                          (TransitionRecord.source_state_id record) store) →
       is_Some (get_state (TransitionRecord.context_id record)
                          (TransitionRecord.target_state_id record) store) →
       full_for record store = false →
       get_transition (TransitionRecord.context_id record)
                      (TransitionRecord.id record) store = None →
       ∃ r4,
         get_transition (TransitionRecord.context_id record)
                        (TransitionRecord.id record)
                        (IngestHandler.ingest_all from_dict
                           [JDict data; JDict data; JDict data; JDict data] store)
         = Some r4
         ∧ same_but_times record r4
         ∧ TransitionRecord.times_observed r4 = 4).
Proof.
  split.
  - intros self t0 inc self' Hup.
    pose proof (upsert_transition_outcome t0 inc self) as Hout.
    pose proof (upsert_transition_lookup t0 inc self
                  (TransitionRecord.context_id t0) (TransitionRecord.id t0)) as Hlk.
    rewrite Hup in Hout, Hlk. simpl in Hout, Hlk.
    rewrite decide_True in Hlk by done.
    destruct (full_for t0 self); [done|].
    eexists. split; [exact Hlk|]. unfold stored_record.
    destruct (get_transition _ _ self) as [old|]; [|by repeat split].
    destruct inc; repeat split; try done.
    + intros old' [= <-] _ Hpos. simpl. lia.
  - intros from_dict data record store Hdec Hone Hctx Hs1 Hs2 Hroom Hnew.
    change [JDict data; JDict data; JDict data; JDict data]
      with (JDict data :: replicate 3 (JDict data)).
    change (IngestHandler.ingest_all from_dict
              (JDict data :: replicate 3 (JDict data)) store)
      with (IngestHandler.ingest_all from_dict (replicate 3 (JDict data))
              (IngestHandler.ingest_transition_record from_dict
                 (JDict data) store).1).
    rewrite (ingest_accepts from_dict data record store Hdec Hctx Hs1 Hs2).
    pose proof (upsert_transition_frame record true store) as (_ & Hc & Hs).
    pose proof (upsert_transition_lookup record true store
                  (TransitionRecord.context_id record)
                  (TransitionRecord.id record)) as Hlk.
    rewrite decide_True, Hroom in Hlk by done.
    unfold stored_record in Hlk. rewrite Hnew in Hlk.
    erewrite (ingest_again from_dict data record _ record 3 Hdec); [| | | |exact Hlk].
    + eexists. split; [reflexivity|]. split; [by repeat split|]. simpl. lia.
    + unfold get_context. by rewrite Hc.
    + unfold get_state. by rewrite Hs.
    + unfold get_state. by rewrite Hs.
Qed.

Lemma observation_merge_witness :
  (upsert_transition (Sample.edge "t" "s1" "s2" 9) true
     (run [UpsertTransition (Sample.edge "t" "s1" "s2" 1) true] Sample.store_states)
   = ((upsert_transition (Sample.edge "t" "s1" "s2" 9) true
         (run [UpsertTransition (Sample.edge "t" "s1" "s2" 1) true]
              Sample.store_states)).1, Return ())
   ∧ ∃ r',
       get_transition "ctx1" "t"
         (upsert_transition (Sample.edge "t" "s1" "s2" 9) true
            (run [UpsertTransition (Sample.edge "t" "s1" "s2" 1) true]
                 Sample.store_states)).1 = Some r'
       ∧ TransitionRecord.times_observed r' = 2)
  ∧ ∃ r4,
      get_transition "ctx1" "t"
        (IngestHandler.ingest_all (Sample.decode_as (Sample.edge "t" "s1" "s2" 1))
           [JDict ∅; JDict ∅; JDict ∅; JDict ∅] Sample.store_states) = Some r4
      ∧ TransitionRecord.times_observed r4 = 4.
Proof.
  destruct observation_merge as [Hupsert Hingest].
  split.
  - split; [reflexivity|].
    destruct (Hupsert
                (run [UpsertTransition (Sample.edge "t" "s1" "s2" 1) true]
                     Sample.store_states)
                (Sample.edge "t" "s1" "s2" 9) true _ eq_refl)
      as (r' & Hget & _ & Htimes & _).
    exists r'. split; [exact Hget|]. exact Htimes.
  - destruct (Hingest (Sample.decode_as (Sample.edge "t" "s1" "s2" 1)) ∅
                (Sample.edge "t" "s1" "s2" 1) Sample.store_states)
      as (r4 & Hget & _ & Htimes);
      [reflexivity | reflexivity | by eexists | by eexists | by eexists
       | reflexivity | reflexivity |].
    exists r4. split; [exact Hget | exact Htimes].
Defined.
End StoreTheorems.
(** * The search terminates *)

Module SearchShape.
Import GraphStore StoreSpec SearchSpec.

Section Shape.
Variable iter_set : gset string → list string.
Variable self : GraphStore.t.
Variable context_id source target : string.
Variable max_depth : option Z.

Local Abbreviation edges := (SearchSpec.edges self context_id).
Local Abbreviation tr_ids_of := (SearchSpec.tr_ids_of iter_set self context_id).
Local Abbreviation wf := (bfs_wf iter_set self context_id source).
Local Abbreviation remaining := (SearchSpec.remaining self context_id).
Local Abbreviation unvisited := (SearchSpec.unvisited self context_id).

Lemma bfs_init_wf : wf (bfs_init source).
Proof.
  split; simpl.
  - by rewrite dom_singleton_L.
  - by rewrite dom_singleton_L.
  - intros q Hq. apply list_elem_of_singleton in Hq. set_solver.
  - by rewrite !lookup_singleton_eq.
  - intros v p Hp Hne. rewrite lookup_singleton_ne in Hp by done. done.
  - intros v d Hd. apply lookup_singleton_Some in Hd as [_ <-].
    rewrite map_size_singleton. lia.
Qed.

Lemma bfs_init_remaining : (remaining (bfs_init source) ≤ size edges + 1)%nat.
Proof.
  unfold SearchSpec.remaining, SearchSpec.unvisited. simpl.
  pose proof (length_filter
    (λ r, TransitionRecord.target_state_id r ∉ ({[source]} : gset string))
    (map_to_list edges).*2) as Hle.
  rewrite length_fmap, length_map_to_list in Hle. lia.
Qed.

(** Taking the head off the queue. *)
Lemma pop_wf b u q :
  wf b → queue b = u :: q →
  wf (mk_bfs q (visited b) (prev b) (depth b))
  ∧ S (remaining (mk_bfs q (visited b) (prev b) (depth b))) = remaining b
  ∧ is_Some (depth b !! u).
Proof.
  intros [] Hq. split; [|split].
  - split; simpl; try done. intros x Hx. apply wf_queue0. rewrite Hq. by right.
  - unfold SearchSpec.remaining, SearchSpec.unvisited. simpl. by rewrite Hq.
  - apply elem_of_dom. rewrite wf_depth0. apply wf_queue0. rewrite Hq. by left.
Qed.

(** Visiting one more state uses up at least one stored transition. *)
Lemma unvisited_visit b tid r q' p' d' :
  edges !! tid = Some r →
  TransitionRecord.target_state_id r ∉ visited b →
  (unvisited (mk_bfs q' (visited b ∪ {[TransitionRecord.target_state_id r]}) p' d')
   < unvisited b)%nat.
Proof.
  intros Hr Hnew. unfold SearchSpec.unvisited. simpl.
  rewrite <- (list_filter_filter_l
                (λ r0, TransitionRecord.target_state_id r0
                       ∉ visited b ∪ {[TransitionRecord.target_state_id r]})
                (λ r0, TransitionRecord.target_state_id r0 ∉ visited b))
    by set_solver.
  apply (length_filter_lt _ _ r); [|set_solver].
  apply list_elem_of_filter. split; [done|].
  apply list_elem_of_fmap. exists (tid, r). split; [done|].
  by apply elem_of_map_to_list.
Qed.

(** Recording the first visit of [target_state_id r], reached from [u]
    through [tid]. *)
Lemma visit_wf b u du tid r q' :
  wf b → depth b !! u = Some du →
  tid ∈ tr_ids_of u → edges !! tid = Some r →
  TransitionRecord.target_state_id r ∉ visited b →
  (∀ x, x ∈ q' → x ∈ queue b ∨ x = TransitionRecord.target_state_id r) →
  wf (mk_bfs q'
        (visited b ∪ {[TransitionRecord.target_state_id r]})
        (<[TransitionRecord.target_state_id r := (Some u, Some tid)]> (prev b))
        (<[TransitionRecord.target_state_id r := du + 1]> (depth b))).
Proof.
  intros [] Hu Htid Hr Hnew Hq'.
  set (nxt := TransitionRecord.target_state_id r) in *.
  assert (Hdn : depth b !! nxt = None).
  { apply not_elem_of_dom. by rewrite wf_depth0. }
  assert (Hpn : prev b !! nxt = None).
  { apply not_elem_of_dom. by rewrite wf_prev0. }
  assert (Hsrc : nxt ≠ source).
  { intros E. rewrite E in Hdn. destruct wf_source0. congruence. }
  assert (Hun : nxt ≠ u) by (intros E; rewrite E in Hdn; congruence).
  split; simpl.
  - rewrite dom_insert_L, wf_depth0. set_solver.
  - rewrite dom_insert_L, wf_prev0. set_solver.
  - intros x Hx. destruct (Hq' x Hx) as [Hin| ->]; [|set_solver].
    apply wf_queue0 in Hin. set_solver.
  - rewrite !lookup_insert_ne by done. done.
  - intros v p Hp Hv. destruct (decide (v = nxt)) as [->|Hvn].
    + rewrite lookup_insert_eq in Hp. injection Hp as <-.
      exists u, tid, r, du. repeat split; try done.
      * by rewrite lookup_insert_ne.
      * by rewrite lookup_insert_eq.
    + rewrite lookup_insert_ne in Hp by done.
      destruct (wf_link0 v p Hp Hv) as (u' & tid' & r' & du' & ? & ? & ? & ? & Hdu' & Hdv).
      exists u', tid', r', du'. repeat split; try done.
      * rewrite lookup_insert_ne; [done|]. intros E. rewrite <- E in Hdu'. congruence.
      * by rewrite lookup_insert_ne.
  - intros v d Hd. rewrite map_size_insert_None by done.
    destruct (decide (v = nxt)) as [->|Hvn].
    + rewrite lookup_insert_eq in Hd. injection Hd as <-.
      apply wf_bound0 in Hu. lia.
    + rewrite lookup_insert_ne in Hd by done. apply wf_bound0 in Hd. lia.
Qed.

(** The [for] loop keeps the shape and does not add to what remains,
    whether it runs to its end or returns from inside. *)
Lemma expand_wf u du rest b :
  wf b → depth b !! u = Some du →
  (∀ x, x ∈ rest → x ∈ tr_ids_of u) →
  match expand edges target u du rest b with
  | inl b' => wf b' ∧ (remaining b' ≤ remaining b)%nat
  | inr b' => arrived iter_set self context_id source target b'
  end.
Proof.
  revert b. induction rest as [|tid rest IH]; intros b Hwf Hu Hsub; simpl.
  { split; [done|lia]. }
  assert (Hsub' : ∀ x, x ∈ rest → x ∈ tr_ids_of u).
  { intros x Hx. apply Hsub. by right. }
  destruct (edges !! tid) as [r|] eqn:Hr; [|by apply IH].
  case_bool_decide as Hvis; [by apply IH|].
  pose proof (visit_wf b u du tid r) as Hvisit.
  case_bool_decide as Htgt.
  - split.
    + apply Hvisit; try done; [apply Hsub; by left | by left].
    + exists (du + 1). simpl. rewrite <- Htgt, lookup_insert_eq. split; [done|].
      destruct Hwf. apply wf_bound0 in Hu. lia.
  - specialize (IH (mk_bfs (queue b ++ [TransitionRecord.target_state_id r])
                       (visited b ∪ {[TransitionRecord.target_state_id r]})
                       (<[TransitionRecord.target_state_id r := (Some u, Some tid)]> (prev b))
                       (<[TransitionRecord.target_state_id r := du + 1]> (depth b)))).
    assert (Hwf' : wf (mk_bfs (queue b ++ [TransitionRecord.target_state_id r])
                       (visited b ∪ {[TransitionRecord.target_state_id r]})
                       (<[TransitionRecord.target_state_id r := (Some u, Some tid)]> (prev b))
                       (<[TransitionRecord.target_state_id r := du + 1]> (depth b)))).
    { apply Hvisit; try done; [apply Hsub; by left|].
      intros x Hx. apply elem_of_app in Hx as [?|Hx]; [by left|].
      apply list_elem_of_singleton in Hx. by right. }
    specialize (IH Hwf').
    simpl in IH. rewrite lookup_insert_ne in IH.
    2:{ intros E. apply Hvis. destruct Hwf. rewrite <- wf_depth0.
        apply elem_of_dom. rewrite E. by eexists. }
    specialize (IH Hu Hsub').
    destruct (expand _ _ _ _ _ _) as [b'|b']; [|done].
    destruct IH as [Hwfb' Hle]. split; [done|].
    pose proof (unvisited_visit b tid r
                  (queue b ++ [TransitionRecord.target_state_id r])
                  (<[TransitionRecord.target_state_id r := (Some u, Some tid)]> (prev b))
                  (<[TransitionRecord.target_state_id r := du + 1]> (depth b)) Hr Hvis) as Hlt.
    unfold SearchSpec.remaining in *. simpl in Hle. rewrite length_app in Hle.
    simpl in Hle. lia.
Qed.
(** [_reconstruct_path] walks [prev] back from a visited state [v] of
    depth [d] in [d + 1] iterations, collecting [d] stored transitions;
    read from the source they form a chain that ends in [v], provided
    every id iterated at a state is the id of an edge leaving it. *)
Lemma reconstruct_loop_wf b fuel v d acc :
  wf b → depth b !! v = Some d → d < Z.of_nat fuel →
  ∃ p,
    reconstruct_loop fuel edges (prev b) v acc = Some (acc ++ reverse p)
    ∧ Z.of_nat (length p) = d
    ∧ Forall (stored context_id self) p
    ∧ ((∀ u tid r, tid ∈ tr_ids_of u → edges !! tid = Some r →
                   TransitionRecord.source_state_id r = u) →
       chain p source v).
Proof.
  intros Hwf. revert v d acc.
  induction fuel as [|fuel IH]; intros v d acc Hd Hfuel.
  { destruct Hwf. apply wf_bound0 in Hd. lia. }
  simpl.
  assert (is_Some (prev b !! v)) as [p Hp].
  { apply elem_of_dom. destruct Hwf. rewrite wf_prev0, <- wf_depth0.
    apply elem_of_dom. by eexists. }
  rewrite Hp. simpl.
  destruct (decide (v = source)) as [->|Hv].
  - destruct Hwf. destruct wf_source0 as [Hd0 Hp0].
    rewrite Hp0 in Hp. injection Hp as <-.
    rewrite Hd0 in Hd. injection Hd as <-.
    exists []. rewrite reverse_nil, app_nil_r. by repeat split.
  - destruct (wf_link _ _ _ _ _ Hwf v p Hp Hv)
      as (u & tid & r & du & -> & Htid & Hr & Htgt & Hdu & Hdv).
    rewrite Hr. rewrite Hdv in Hd. injection Hd as <-.
    destruct (IH u du (acc ++ [r]) Hdu) as (p & Hrec & Hlen & Hst & Hch); [lia|].
    exists (p ++ [r]). rewrite Hrec. split; [|split; [|split]].
    + by rewrite reverse_snoc, <- app_assoc.
    + rewrite length_app. simpl. lia.
    + apply Forall_app. split; [done|]. apply Forall_singleton. by exists tid.
    + intros Hsound. specialize (Hch Hsound).
      pose proof (Hsound u tid r Htid Hr) as Hsrc.
      clear - Hch Hsrc Htgt. revert Hch. generalize source.
      induction p as [|e p IHp]; intros s Hch; simpl in *.
      * subst. done.
      * destruct Hch as [? Hch]. split; [done|]. by apply IHp.
Qed.

(** The [while] loop ends within [remaining b + 1] iterations, and it
    ends by returning: [depth[current]] is always there. *)
Lemma search_loop_total fuel b :
  wf b → (remaining b < fuel)%nat →
  ∃ r, search_loop iter_set fuel context_id target max_depth self b
       = Some (Return r).
Proof.
  revert b. induction fuel as [|fuel IH]; intros b Hwf Hfuel; [lia|].
  simpl. destruct (queue b) as [|u q] eqn:Hq; [by eexists|].
  destruct (pop_wf b u q Hwf Hq) as (Hwf1 & Hrem & [du Hdu]).
  rewrite Hdu.
  destruct (depth_reached max_depth du).
  { apply IH; [done|lia]. }
  pose proof (expand_wf u du (tr_ids_of u)
                (mk_bfs q (visited b) (prev b) (depth b)) Hwf1 Hdu) as Hex.
  unfold SearchSpec.tr_ids_of, SearchSpec.edges in Hex.
  destruct (expand _ _ _ _ _ _) as [b2|b2].
  - destruct Hex as [Hwf2 Hle]; [done|]. apply IH; [done|lia].
  - destruct Hex as [Hwf2 (d & Hd & Hpos)]; [done|].
    unfold _reconstruct_path.
    destruct (reconstruct_loop_wf b2 (S (size (prev b2))) target d [] Hwf2 Hd)
      as (p & Hrec & _).
    { destruct Hwf2. apply wf_bound0 in Hd. lia. }
    unfold SearchSpec.edges in Hrec. rewrite Hrec. simpl. by eexists.
Qed.

(** [shortest_path] always returns, on every store and for every
    iteration order: the fuel it is run with is never used up. *)
Lemma shortest_path_total :
  ∃ r, shortest_path iter_set context_id source target max_depth self
       = Some (Return r).
Proof.
  unfold shortest_path.
  case_bool_decide; [by eexists|].
  case_bool_decide; [by eexists|].
  apply search_loop_total; [apply bfs_init_wf|].
  pose proof bfs_init_remaining as Hle. unfold SearchSpec.edges in Hle. lia.
Qed.
End Shape.
End SearchShape.
(** * The search finds shortest paths *)

Module SearchFacts.
Import GraphStore StoreSpec SearchSpec SearchShape.

(** ** Chains, paths and distances *)

Lemma chain_snoc es e s :
  chain es s (TransitionRecord.source_state_id e) →
  chain (es ++ [e]) s (TransitionRecord.target_state_id e).
Proof.
  revert s. induction es as [|e0 es IH]; intros s Hch; simpl in *.
  - by subst.
  - destruct Hch as [? Hch]. split; [done|]. by apply IH.
Qed.

Lemma chain_linked es s t : chain es s t → linked es.
Proof.
  revert s. induction es as [|e0 es IH]; intros s Hch i e e' Hi Hi'; [done|].
  destruct Hch as [_ Hch]. destruct i as [|i]; simpl in *.
  - injection Hi as <-. destruct es as [|e1 es]; [done|].
    simpl in Hi'. injection Hi' as <-. by destruct Hch.
  - by eapply IH.
Qed.

Lemma chain_endpoints es s t : chain es s t → endpoints es s t.
Proof.
  intros Hch. split.
  - intros e He. destruct es as [|e0 es]; [done|].
    injection He as <-. by destruct Hch.
  - revert s Hch. induction es as [|e0 es IH]; intros s Hch e He; [done|].
    destruct Hch as [_ Hch]. destruct es as [|e1 es].
    + simpl in He. injection He as <-. done.
    + by eapply IH.
Qed.

Lemma reach_prepend self c e n v :
  stored c self e →
  reach self c (TransitionRecord.target_state_id e) n v →
  reach self c (TransitionRecord.source_state_id e) (S n) v.
Proof.
  intros Hst Hr. induction Hr as [|n u e' Hr IH Hst' Hsrc].
  - by apply (reach_edge _ _ _ O (TransitionRecord.source_state_id e) e);
      [constructor| |].
  - by apply (reach_edge _ _ _ (S n) u e').
Qed.

Lemma path_reach self c es s t :
  path c self es s t → reach self c s (length es) t.
Proof.
  intros [Hst Hch]. revert s Hch.
  induction es as [|e es IH]; intros s Hch; simpl in *.
  - subst. constructor.
  - destruct Hch as [<- Hch]. inversion Hst; subst.
    apply reach_prepend; [done|]. by apply IH.
Qed.

Lemma reach_path self c s n t :
  reach self c s n t → ∃ es, path c self es s t ∧ length es = n.
Proof.
  induction 1 as [|n u e Hr (es & [Hst Hch] & Hlen) Hs Hsrc].
  - exists []. by repeat split.
  - exists (es ++ [e]). split; [split|].
    + apply Forall_app. split; [done|]. by apply Forall_singleton.
    + apply chain_snoc. by rewrite Hsrc.
    + rewrite length_app. simpl. lia.
Qed.

Lemma within_pred md n : within md (S n) → within md n.
Proof. destruct md; simpl; [lia|done]. Qed.

Lemma queue_sorted_snoc (d : gmap string Z) q x dx top :
  queue_sorted d q →
  (∀ y, y ∈ q → is_Some (d !! y)) → d !! x = None →
  (∀ y dy, d !! y = Some dy → dy ≤ top) → top ≤ dx →
  queue_sorted (<[x := dx]> d) (q ++ [x]).
Proof.
  intros Hs Hin Hx Htop Hdx. induction q as [|a q IH]; simpl.
  - split; [|done]. intros y ? ? Hy. by apply elem_of_nil in Hy.
  - destruct Hs as [Ha Hs]. split.
    + intros y da dy Hy Hda Hdy.
      assert (a ≠ x).
      { intros ->. destruct (Hin x) as [? ?]; [by left|congruence]. }
      rewrite lookup_insert_ne in Hda by done.
      apply elem_of_app in Hy as [Hy|Hy].
      * assert (y ≠ x).
        { intros ->. destruct (Hin x) as [? ?]; [by right|congruence]. }
        rewrite lookup_insert_ne in Hdy by done. by eapply Ha.
      * apply list_elem_of_singleton in Hy as ->.
        rewrite lookup_insert_eq in Hdy. injection Hdy as <-.
        apply Htop in Hda. lia.
    + apply IH; [done|]. intros y Hy. apply Hin. by right.
Qed.

(** ** The invariants of the two loops *)

Section Levels.
Variable iter_set : gset string → list string.
Variable self : GraphStore.t.
Variable context_id source target : string.
Variable max_depth : option Z.

Hypothesis iter_set_elements : ∀ X x, x ∈ iter_set X ↔ x ∈ X.
Hypothesis consistent : outgoing_consistent self.
Hypothesis distinct : source ≠ target.

Local Abbreviation edges := (SearchSpec.edges self context_id).
Local Abbreviation tr_ids_of := (SearchSpec.tr_ids_of iter_set self context_id).
Local Abbreviation wf := (bfs_wf iter_set self context_id source).
Local Abbreviation reach := (SearchSpec.reach self context_id source).
Local Abbreviation closed := (SearchSpec.closed self context_id).
Local Abbreviation levels := (bfs_levels self context_id source max_depth).
Local Abbreviation expanding :=
  (SearchSpec.expanding self context_id source target max_depth).
Local Abbreviation searching :=
  (SearchSpec.searching iter_set self context_id source target max_depth).

(** The ids iterated at [u] are the ids of the edges that leave [u]. *)
Lemma tr_ids_of_spec u tid :
  tid ∈ tr_ids_of u ↔
  ∃ r, edges !! tid = Some r ∧ TransitionRecord.source_state_id r = u.
Proof.
  rewrite <- (consistent context_id u tid).
  unfold SearchSpec.tr_ids_of, index_get.
  destruct (default ∅ (_outgoing self !! context_id) !! u) as [ids|]; simpl.
  - apply iter_set_elements.
  - split; [by intros ?%elem_of_nil | set_solver].
Qed.

Lemma tr_ids_of_source u tid r :
  tid ∈ tr_ids_of u → edges !! tid = Some r →
  TransitionRecord.source_state_id r = u.
Proof.
  intros Hin Hr. apply tr_ids_of_spec in Hin as (r' & Hr' & <-). congruence.
Qed.

Lemma depth_reached_false d : 
  depth_reached max_depth d = false ↔ ∀ m, max_depth = Some m → d < m.
Proof.
  unfold depth_reached. destruct max_depth as [m|].
  - rewrite bool_decide_eq_false. split.
    + intros H m' [= <-]. lia.
    + intros H. specialize (H m eq_refl). lia.
  - split; [by intros|done].
Qed.

Lemma within_depth n d :
  within max_depth (S n) → d ≤ Z.of_nat n → depth_reached max_depth d = false.
Proof.
  intros Hw Hd. apply depth_reached_false. intros m ->. simpl in Hw. lia.
Qed.

(** While [u] is expanded, every state within [du] edges of the source
    (and within [max_depth]) is visited. *)
Lemma levels_visited u du rest b n v :
  wf b → expanding u du rest b →
  reach n v → Z.of_nat n ≤ du → within max_depth n → v ∈ visited b.
Proof.
  intros Hwf Hex Hr. induction Hr as [|n w e Hr IH Hst Hsrc]; intros Hn Hw.
  - destruct Hwf. rewrite <- wf_depth0. apply elem_of_dom.
    destruct wf_source0. by eexists.
  - assert (Hwv : w ∈ visited b).
    { apply IH; [lia | by apply within_pred]. }
    destruct Hwf, Hex. rewrite <- wf_depth0 in Hwv.
    apply elem_of_dom in Hwv as [dw Hdw].
    pose proof (lv_minimal _ _ _ _ _ ex_levels0 w dw n Hdw Hr) as Hmin.
    apply (ex_closed0 w dw Hdw); try done.
    + intros ->. rewrite ex_head0 in Hdw. injection Hdw as <-. lia.
    + intros Hq. pose proof (ex_ahead0 w dw Hq Hdw). lia.
    + by apply (within_depth n).
Qed.

(** Dropping an id that names no stored transition, or one whose target
    is visited already. *)
Lemma expanding_skip u du tid rest b :
  expanding u du (tid :: rest) b →
  (∀ r, edges !! tid = Some r → TransitionRecord.target_state_id r ∈ visited b) →
  expanding u du rest b.
Proof.
  intros [] Hskip. split; try done.
  intros tid' e Hd He Hsrc.
  destruct (ex_current0 tid' e Hd He Hsrc) as [Hin|?]; [|by right].
  apply elem_of_cons in Hin as [->|?]; [|by left].
  right. by apply Hskip.
Qed.

(** Recorded depths stay distances when a new state is visited from [u]. *)
Lemma visit_levels u du tid rest r b q' :
  wf b → expanding u du (tid :: rest) b →
  depth_reached max_depth du = false →
  edges !! tid = Some r →
  TransitionRecord.target_state_id r ∉ visited b →
  levels (mk_bfs q'
            (visited b ∪ {[TransitionRecord.target_state_id r]})
            (<[TransitionRecord.target_state_id r := (Some u, Some tid)]> (prev b))
            (<[TransitionRecord.target_state_id r := du + 1]> (depth b))).
Proof.
  intros Hwf Hex Hdu Hr Hnew.
  set (nxt := TransitionRecord.target_state_id r) in *.
  split; simpl.
  - intros v d n Hd Hreach. destruct (decide (v = nxt)) as [->|Hv].
    + rewrite lookup_insert_eq in Hd. injection Hd as <-.
      destruct (decide (Z.of_nat n ≤ du)) as [Hle|]; [|lia].
      exfalso. apply Hnew. apply (levels_visited u du (tid :: rest) b n); try done.
      pose proof (proj1 (depth_reached_false du) Hdu) as Hlt.
      unfold within. destruct max_depth as [m|]; [|done].
      specialize (Hlt m eq_refl). lia.
    + rewrite lookup_insert_ne in Hd by done.
      destruct Hex. by eapply lv_minimal.
  - intros v d Hd. destruct (decide (v = nxt)) as [->|Hv].
    + rewrite lookup_insert_eq in Hd. injection Hd as <-. right.
      by replace (du + 1 - 1) with du by lia.
    + rewrite lookup_insert_ne in Hd by done.
      destruct Hex. by eapply lv_limit.
Qed.

(** Queueing a newly visited state behind the others. *)
Lemma expanding_visit u du tid rest r b :
  wf b → expanding u du (tid :: rest) b →
  depth_reached max_depth du = false →
  edges !! tid = Some r →
  TransitionRecord.target_state_id r ∉ visited b →
  TransitionRecord.target_state_id r ≠ target →
  expanding u du rest
    (mk_bfs (queue b ++ [TransitionRecord.target_state_id r])
       (visited b ∪ {[TransitionRecord.target_state_id r]})
       (<[TransitionRecord.target_state_id r := (Some u, Some tid)]> (prev b))
       (<[TransitionRecord.target_state_id r := du + 1]> (depth b))).
Proof.
  intros Hwf Hex Hdu Hr Hnew Htgt.
  pose proof (visit_levels u du tid rest r b
                (queue b ++ [TransitionRecord.target_state_id r])
                Hwf Hex Hdu Hr Hnew) as Hlv.
  set (nxt := TransitionRecord.target_state_id r) in *.
  assert (Hdn : depth b !! nxt = None).
  { apply not_elem_of_dom. destruct Hwf. by rewrite wf_depth0. }
  assert (Hold : ∀ v d, <[nxt := du + 1]> (depth b) !! v = Some d →
                        v = nxt ∧ d = du + 1 ∨ v ≠ nxt ∧ depth b !! v = Some d).
  { intros v d Hd. destruct (decide (v = nxt)) as [->|Hv].
    - rewrite lookup_insert_eq in Hd. left. by injection Hd as <-.
    - rewrite lookup_insert_ne in Hd by done. by right. }
  destruct Hex.
  assert (Hnu : nxt ≠ u) by (intros E; rewrite E in Hdn; congruence).
  split; simpl; try done.
  - by rewrite lookup_insert_ne.
  - intros q dq Hq Hd. destruct (Hold q dq Hd) as [[-> ->]|[Hne Hd']]; [lia|].
    apply elem_of_app in Hq as [Hq|Hq].
    + by eapply ex_ahead0.
    + by apply list_elem_of_singleton in Hq.
  - apply (queue_sorted_snoc _ _ _ _ (du + 1)); try done.
    intros y Hy. apply elem_of_dom. destruct Hwf. rewrite wf_depth0. by apply wf_queue0.
  - intros v d Hd. destruct (Hold v d Hd) as [[-> ->]|[Hne Hd']]; [lia|].
    by eapply ex_top0.
  - intros v d Hd Hvu Hvq. destruct (Hold v d Hd) as [[-> ->]|[Hne Hd']].
    + exfalso. apply Hvq. apply elem_of_app. right. by apply list_elem_of_singleton.
    + apply (ex_done0 v d Hd' Hvu). intros Hin. apply Hvq. apply elem_of_app. by left.
  - intros v d Hd Hvu Hvq Hlim. destruct (Hold v d Hd) as [[-> ->]|[Hne Hd']].
    + exfalso. apply Hvq. apply elem_of_app. right. by apply list_elem_of_singleton.
    + assert (Hcl : closed b v).
      { apply (ex_closed0 v d Hd' Hvu); [|done].
        intros Hin. apply Hvq. apply elem_of_app. by left. }
      intros e He Hsrc. simpl. apply elem_of_union. left. by apply Hcl.
  - intros tid' e Hd He Hsrc.
    destruct (ex_current0 tid' e Hd He Hsrc) as [Hin|Hin].
    + apply elem_of_cons in Hin as [->|?]; [|by left].
      right. rewrite Hr in He. injection He as <-. set_solver.
    + right. set_solver.
  - set_solver.
Qed.

(** The [for] loop: when it runs to its end, every edge that leaves [u]
    has been looked at; when it returns, depths are still distances. *)
Lemma expand_expanding u du rest b :
  wf b → expanding u du rest b →
  depth_reached max_depth du = false →
  (∀ x, x ∈ rest → x ∈ tr_ids_of u) →
  match expand edges target u du rest b with
  | inl b' => expanding u du [] b'
  | inr b' => levels b'
  end.
Proof.
  revert b. induction rest as [|tid rest IH]; intros b Hwf Hex Hdu Hsub; simpl;
    [done|].
  assert (Hsub' : ∀ x, x ∈ rest → x ∈ tr_ids_of u).
  { intros x Hx. apply Hsub. by right. }
  assert (Hu : depth b !! u = Some du) by by destruct Hex.
  destruct (edges !! tid) as [r|] eqn:Hr.
  2:{ apply IH; try done. apply (expanding_skip u du tid); [done|].
      intros r. by rewrite Hr. }
  case_bool_decide as Hvis.
  { apply IH; try done. apply (expanding_skip u du tid); [done|].
    intros r'. rewrite Hr. by intros [= <-]. }
  case_bool_decide as Htgt.
  - by apply (visit_levels u du tid rest).
  - apply IH; try done.
    + apply (visit_wf iter_set self context_id source b u du tid r); try done.
      * apply Hsub. by left.
      * intros x Hx. apply elem_of_app in Hx as [?|Hx]; [by left|].
        apply list_elem_of_singleton in Hx. by right.
    + by apply expanding_visit.
Qed.
(** Back at the head of the [while] loop, when [u] was skipped for
    its depth or the [for] loop over its edges has run to its end. *)
Lemma expanding_next u du rest b :
  wf b → expanding u du rest b →
  rest = [] ∨ depth_reached max_depth du = true →
  searching b.
Proof.
  intros Hwf Hex Hend.
  assert (Hu_closed : depth_reached max_depth du = false → closed b u).
  { intros Hdu e [tid He] Hsrc. destruct Hex.
    destruct (ex_current0 tid e Hdu He Hsrc) as [Hin|?]; [|done].
    destruct Hend as [->|?]; [by apply elem_of_nil in Hin | congruence]. }
  unfold SearchSpec.searching. destruct (queue b) as [|u' q'] eqn:Hq.
  - destruct Hex. split; [done|]. split; [done|].
    intros v d Hd Hlim. destruct (decide (v = u)) as [->|Hvu].
    + apply Hu_closed. rewrite ex_head0 in Hd. by injection Hd as <-.
    + apply (ex_closed0 v d Hd Hvu); [|done]. rewrite Hq. apply not_elem_of_nil.
  - assert (is_Some (depth b !! u')) as [du' Hdu'].
    { apply elem_of_dom. destruct Hwf. rewrite wf_depth0. apply wf_queue0.
      rewrite Hq. by left. }
    exists du'. destruct Hex. rewrite Hq in *.
    assert (Hle : du ≤ du') by (apply (ex_ahead0 u' du'); [by left|done]).
    destruct ex_sorted0 as [Hhead Hsorted].
    split; simpl; try done.
    + by destruct ex_levels0.
    + intros q dq Hin Hdq. by apply (Hhead q du' dq).
    + intros v d Hd. apply ex_top0 in Hd. lia.
    + intros v d Hd Hvu' Hvq'. destruct (decide (v = u)) as [->|Hvu].
      * rewrite ex_head0 in Hd. injection Hd as <-. done.
      * assert (d ≤ du); [|lia]. apply (ex_done0 v d Hd Hvu).
        intros Hin. apply elem_of_cons in Hin as [?|?]; done.
    + intros v d Hd Hvu' Hvq' Hlim. destruct (decide (v = u)) as [->|Hvu].
      * apply Hu_closed. rewrite ex_head0 in Hd. by injection Hd as <-.
      * apply (ex_closed0 v d Hd Hvu); [|done].
        intros Hin. apply elem_of_cons in Hin as [?|?]; done.
    + intros tid e _ He Hsrc. left. apply tr_ids_of_spec. by exists e.
Qed.

Lemma bfs_init_searching : searching (bfs_init source).
Proof.
  unfold SearchSpec.searching. simpl. exists 0.
  split; simpl.
  - split; simpl.
    + intros v d n Hd _. apply lookup_singleton_Some in Hd as [_ <-]. lia.
    + intros v d Hd. apply lookup_singleton_Some in Hd as [_ <-]. by left.
  - by rewrite lookup_singleton_eq.
  - intros q dq Hq. by apply elem_of_nil in Hq.
  - done.
  - intros v d Hd. apply lookup_singleton_Some in Hd as [_ <-]. lia.
  - intros v d Hd Hv. apply lookup_singleton_Some in Hd as [<- _]. done.
  - intros v d Hd Hv. apply lookup_singleton_Some in Hd as [<- _]. done.
  - intros tid e _ He Hsrc. left. apply tr_ids_of_spec. by exists e.
  - set_solver.
Qed.

(** When the queue has drained, everything within [max_depth] edges of
    the source has been visited, and the target has not. *)
Lemma drained_unreachable b n :
  wf b → searching b → queue b = [] →
  reach n target → ¬ within max_depth n.
Proof.
  intros Hwf Hs Hq Hreach Hw. unfold SearchSpec.searching in Hs. rewrite Hq in Hs.
  destruct Hs as (Hlv & Htgt & Hcl). apply Htgt.
  clear Htgt distinct. revert Hw. generalize target n Hreach. clear Hreach n.
  intros v n Hreach. induction Hreach as [|n w e Hr IH Hst Hsrc]; intros Hw.
  - destruct Hwf. rewrite <- wf_depth0. apply elem_of_dom.
    destruct wf_source0. by eexists.
  - assert (Hwv : w ∈ visited b) by (apply IH; by apply within_pred).
    destruct Hwf. rewrite <- wf_depth0 in Hwv.
    apply elem_of_dom in Hwv as [dw Hdw].
    apply (Hcl w dw Hdw); [|done..].
    apply (within_depth n); [done|]. by eapply lv_minimal.
Qed.

(** What the [while] loop returns: a shortest path, or [None] when no
    path within [max_depth] exists. *)
Lemma search_loop_result fuel b r :
  wf b → searching b →
  search_loop iter_set fuel context_id target max_depth self b = Some (Return r) →
  match r with
  | Some es =>
      path context_id self es source target
      ∧ within max_depth (length es)
      ∧ (0 < length es)%nat
      ∧ ∀ n, reach n target → (length es ≤ n)%nat
  | None => ∀ n, reach n target → ¬ within max_depth n
  end.
Proof.
  revert b. induction fuel as [|fuel IH]; intros b Hwf Hs Hrun; [done|].
  simpl in Hrun. destruct (queue b) as [|u q] eqn:Hq.
  { injection Hrun as <-. intros n. by apply (drained_unreachable b n). }
  destruct (pop_wf iter_set self context_id source b u q Hwf Hq)
    as (Hwf1 & _ & [du Hdu]).
  rewrite Hdu in Hrun.
  unfold SearchSpec.searching in Hs. rewrite Hq in Hs. destruct Hs as [du' Hex].
  assert (du' = du) as ->.
  { destruct Hex. simpl in *. congruence. }
  destruct (depth_reached max_depth du) eqn:Hlim.
  { apply (IH _ Hwf1); [|done]. apply (expanding_next u du _ _ Hwf1 Hex). by right. }
  pose proof (expand_wf iter_set self context_id source target u du (tr_ids_of u)
                (mk_bfs q (visited b) (prev b) (depth b)) Hwf1 Hdu) as Hshape.
  pose proof (expand_expanding u du (tr_ids_of u)
                (mk_bfs q (visited b) (prev b) (depth b)) Hwf1 Hex Hlim) as Hsem.
  unfold SearchSpec.tr_ids_of, SearchSpec.edges in Hshape, Hsem, Hrun.
  destruct (expand _ _ _ _ _ _) as [b2|b2].
  - destruct Hshape as [Hwf2 _]; [done|].
    apply (IH b2 Hwf2); [|done].
    apply (expanding_next u du [] b2 Hwf2); [by apply Hsem | by left].
  - destruct Hshape as [Hwf2 (d & Hd & Hpos)]; [done|].
    specialize (Hsem ltac:(done)).
    unfold _reconstruct_path in Hrun.
    destruct (reconstruct_loop_wf iter_set self context_id source b2
                (S (size (prev b2))) target d [] Hwf2 Hd)
      as (p & Hrec & Hlen & Hst & Hch).
    { destruct Hwf2. apply wf_bound0 in Hd. lia. }
    unfold SearchSpec.edges in Hrec. rewrite Hrec in Hrun. simpl in Hrun.
    injection Hrun as <-. rewrite reverse_involutive.
    split; [|split; [|split]].
    + split; [done|]. apply Hch. intros. by eapply tr_ids_of_source.
    + destruct Hsem. destruct (lv_limit0 target d Hd) as [->|Hl]; [lia|].
      unfold within. pose proof (proj1 (depth_reached_false (d - 1)) Hl) as Hlt.
      destruct max_depth as [m|]; [|done]. specialize (Hlt m eq_refl). lia.
    + lia.
    + intros n Hn. destruct Hsem.
      pose proof (lv_minimal0 target d n Hd Hn). lia.
Qed.
End Levels.

(** ** [shortest_path] on a store with a consistent outgoing index *)

Lemma shortest_path_result iter_set self c s t md r :
  (∀ X x, x ∈ iter_set X ↔ x ∈ X) →
  outgoing_consistent self →
  shortest_path iter_set c s t md self = Some (Return r) →
  match r with
  | Some es =>
      path c self es s t
      ∧ (s ≠ t → within md (length es) ∧ es ≠ [])
      ∧ ∀ es', path c self es' s t → (length es ≤ length es')%nat
  | None =>
      s ≠ t ∧ ∀ es', path c self es' s t → ¬ within md (length es')
  end.
Proof.
  intros Hiter Hcons. unfold shortest_path.
  case_bool_decide as Hst.
  { intros [= <-]. subst t. repeat split; [done..|]. intros; simpl; lia. }
  case_bool_decide as Hempty.
  { intros [= <-]. split; [done|]. intros es' [Hstored Hch] _.
    destruct es' as [|e es']; [done|].
    inversion Hstored as [|? ? [tid He] _]; subst.
    apply map_size_empty_iff in Hempty. unfold get_transition in He.
    rewrite Hempty in He. by rewrite lookup_empty in He. }
  intros Hrun.
  pose proof (search_loop_result iter_set self c s t md Hiter Hcons Hst _ _ r
                (bfs_init_wf iter_set self c s)
                (bfs_init_searching iter_set self c s t md Hiter Hcons Hst) Hrun)
    as Hres.
  destruct r as [es|].
  - destruct Hres as (Hpath & Hw & Hpos & Hmin). split; [done|]. split.
    + intros _. split; [done|]. destruct es; [simpl in Hpos; lia | done].
    + intros es' Hes'. apply Hmin. by apply path_reach.
  - split; [done|]. intros es' Hes'. apply Hres. by apply path_reach.
Qed.

(** Without a path within [max_depth], the answer is [None]. *)
Lemma shortest_path_none iter_set self c s t md :
  (∀ X x, x ∈ iter_set X ↔ x ∈ X) →
  outgoing_consistent self →
  s ≠ t →
  (∀ es, path c self es s t → ¬ within md (length es)) →
  shortest_path iter_set c s t md self = Some (Return None).
Proof.
  intros Hiter Hcons Hst Hno.
  destruct (shortest_path_total iter_set self c s t md) as [r Hr].
  pose proof (shortest_path_result _ _ _ _ _ _ _ Hiter Hcons Hr) as Hres.
  destruct r as [es|]; [|done].
  destruct Hres as (Hpath & Hw & _). destruct (Hw Hst) as [Hwithin _].
  by destruct (Hno es Hpath).
Qed.

(** A path found between two different states has an edge, whatever
    the store holds. *)
Lemma shortest_path_empty iter_set self c s t md :
  shortest_path iter_set c s t md self = Some (Return (Some [])) → s = t.
Proof.
  unfold shortest_path. case_bool_decide as Hst; [done|].
  case_bool_decide; [done|].
  intros Hrun. exfalso.
  assert (Hgen : ∀ fuel b,
    bfs_wf iter_set self c s b →
    search_loop iter_set fuel c t md self b ≠ Some (Return (Some []))).
  { clear Hrun. induction fuel as [|fuel IH]; intros b Hwf; [done|].
    simpl. destruct (queue b) as [|u q] eqn:Hq; [done|].
    destruct (pop_wf iter_set self c s b u q Hwf Hq) as (Hwf1 & _ & [du Hdu]).
    rewrite Hdu. destruct (depth_reached md du); [by apply IH|].
    pose proof (expand_wf iter_set self c s t u du
                  (SearchSpec.tr_ids_of iter_set self c u)
                  (mk_bfs q (visited b) (prev b) (depth b)) Hwf1 Hdu) as Hshape.
    unfold SearchSpec.tr_ids_of, SearchSpec.edges in Hshape.
    destruct (expand _ _ _ _ _ _) as [b2|b2].
    - destruct Hshape as [Hwf2 _]; [done|]. by apply IH.
    - destruct Hshape as [Hwf2 (d & Hd & Hpos)]; [done|].
      unfold _reconstruct_path.
      destruct (reconstruct_loop_wf iter_set self c s b2
                  (S (size (prev b2))) t d [] Hwf2 Hd)
        as (p & Hrec & Hlen & _).
      { destruct Hwf2. apply wf_bound0 in Hd. lia. }
      unfold SearchSpec.edges in Hrec. rewrite Hrec. simpl.
      rewrite reverse_involutive. intros [= ->]. simpl in Hlen. lia. }
  by apply (Hgen _ _ (bfs_init_wf iter_set self c s)) in Hrun.
Qed.
End SearchFacts.
(** * Shortest paths: main results *)

Module PathTheorems.
Import GraphStore StoreSpec StoreFacts SearchFacts.

(** C2 (shortest-path correctness).  On every store reached from the
    empty one by store operations, and for every order in which the
    sets of the index are iterated: when [shortest_path(c, s, t,
    max_depth)] returns a sequence [es] of transition records, (a) no
    sequence of transitions of [c] leads from [s] to [t] in fewer edges,
    (b) consecutive edges satisfy
    [e_i.target_state_id = e_{i+1}.source_state_id], and (c) the first
    edge leaves [s] and the last one enters [t]; the edges are records
    stored in [c]. *)
Theorem shortest_path_is_shortest
    (iter_set : gset string → list string)
    (iter_set_elements : ∀ X x, x ∈ iter_set X ↔ x ∈ X)
    (config : option GraphStoreConfig.t) (ops : list op)
    (c s t : string) (max_depth : option Z) (es : list TransitionRecord.t)
    (Hreturns : shortest_path iter_set c s t max_depth (run ops (init config))
                = Some (Return (Some es))) :
  (∀ es', path c (run ops (init config)) es' s t → (length es ≤ length es')%nat)
  ∧ linked es
  ∧ endpoints es s t
  ∧ Forall (stored c (run ops (init config))) es.
Proof.
  destruct (reachable_consistent config ops) as [Hout _].
  pose proof (shortest_path_result _ _ _ _ _ _ _ iter_set_elements Hout Hreturns)
    as ([Hstored Hchain] & _ & Hmin).
  split; [done|]. split; [by eapply chain_linked|].
  split; [by apply chain_endpoints | done].
Qed.

Lemma shortest_path_is_shortest_witness :
  shortest_path elements "ctx1" "A" "D" None Sample.store_abcd
  = Some (Return (Some [Sample.edge "t4" "A" "D" 1]))
  ∧ (∀ es', path "ctx1" Sample.store_abcd es' "A" "D" → (1 ≤ length es')%nat)
  ∧ endpoints [Sample.edge "t4" "A" "D" 1] "A" "D".
Proof.
  assert (Hrun : shortest_path elements "ctx1" "A" "D" None Sample.store_abcd
                 = Some (Return (Some [Sample.edge "t4" "A" "D" 1])))
    by (vm_compute; reflexivity).
  split; [exact Hrun|].
  destruct (shortest_path_is_shortest elements
              (λ X x, elem_of_elements X x) None
              [UpsertTransition (Sample.edge "t1" "A" "B" 1) true;
               UpsertTransition (Sample.edge "t2" "B" "C" 1) true;
               UpsertTransition (Sample.edge "t3" "C" "D" 1) true;
               UpsertTransition (Sample.edge "t4" "A" "D" 1) true]
              "ctx1" "A" "D" None [Sample.edge "t4" "A" "D" 1] Hrun)
    as (Hmin & _ & Hends & _).
  split; [exact Hmin | exact Hends].
Defined.

(** Scenario D: redirecting [t4] to leave from [B] is seen by the index
    and by the search. *)
Example scenario_d :
  let redirected :=
    run [UpsertTransition (Sample.edge "t4" "B" "D" 1) true] Sample.store_abcd in
  shortest_path elements "ctx1" "A" "D" None redirected
  = Some (Return (Some [Sample.edge "t1" "A" "B" 1; Sample.edge "t4" "B" "D" 2]))
  ∧ index_get (_outgoing redirected) "ctx1" "A" = {[ "t1" ]}.
Proof. split; vm_compute; reflexivity. Qed.

(** C6 (degenerate results).  On every store reached from the empty one
    and for every iteration order: [shortest_path(c, s, s)] returns the
    empty sequence; for [s ≠ t] the result is [None] when the context
    holds no transition, and also when no sequence of transitions of [c]
    leads from [s] to [t] (within [max_depth] edges when it is set);
    the empty sequence is returned only when [s = t]; and the query
    layer hands [None] on as a [null] path, a sequence as a list. *)
Theorem shortest_path_degenerate
    (iter_set : gset string → list string)
    (iter_set_elements : ∀ X x, x ∈ iter_set X ↔ x ∈ X)
    (config : option GraphStoreConfig.t) (ops : list op)
    (c s t : string) (max_depth : option Z) :
  shortest_path iter_set c s s max_depth (run ops (init config))
  = Some (Return (Some []))
  ∧ (s ≠ t → list_transitions c (run ops (init config)) = [] →
     shortest_path iter_set c s t max_depth (run ops (init config))
     = Some (Return None))
  ∧ (s ≠ t →
     (∀ es, path c (run ops (init config)) es s t →
            ¬ within max_depth (length es)) →
     shortest_path iter_set c s t max_depth (run ops (init config))
     = Some (Return None))
  ∧ (shortest_path iter_set c s t max_depth (run ops (init config))
     = Some (Return (Some [])) → s = t)
  ∧ (∀ to_dict r,
       shortest_path iter_set c s t max_depth (run ops (init config))
       = Some (Return r) →
       is_Some (get_context c (run ops (init config))) →
       is_Some (get_state c s (run ops (init config))) →
       is_Some (get_state c t (run ops (init config))) →
       ∃ response,
         QueryHandler.shortest_path iter_set to_dict c s t max_depth
           (run ops (init config)) = Some (Return response)
         ∧ response !! "path" =
             Some (match r with
                   | None => JNull
                   | Some es => JList (to_dict <$> es)
                   end)).
Proof.
  destruct (reachable_consistent config ops) as [Hout _].
  split; [|split; [|split; [|split]]].
  - unfold shortest_path. by rewrite bool_decide_true.
  - intros Hst Hnone. unfold shortest_path.
    rewrite bool_decide_false by done. rewrite bool_decide_true; [done|].
    unfold list_transitions in Hnone.
    apply (f_equal length) in Hnone.
    by rewrite length_fmap, length_map_to_list in Hnone.
  - intros Hst Hno. by apply shortest_path_none.
  - apply shortest_path_empty.
  - intros to_dict r Hr [ctx Hctx] [s1 Hs1] [s2 Hs2].
    unfold QueryHandler.shortest_path, QueryHandler._require_context,
      QueryHandler._require_state.
    rewrite Hctx, Hs1, Hs2, Hr. eexists. split; [reflexivity|].
    by destruct r.
Qed.

Lemma shortest_path_degenerate_witness :
  shortest_path elements "ctx1" "D" "D" (Some 2) Sample.store_abcd
  = Some (Return (Some []))
  ∧ (shortest_path elements "ctx1" "D" "A" (Some 2) Sample.store_abcd
     = Some (Return (Some [])) → "D" = "A").
Proof.
  destruct (shortest_path_degenerate elements
              (λ X x, elem_of_elements X x) None
              [UpsertTransition (Sample.edge "t1" "A" "B" 1) true;
               UpsertTransition (Sample.edge "t2" "B" "C" 1) true;
               UpsertTransition (Sample.edge "t3" "C" "D" 1) true;
               UpsertTransition (Sample.edge "t4" "A" "D" 1) true]
              "ctx1" "D" "A" (Some 2))
    as (Hsame & _ & _ & Hempty & _).
  split; [exact Hsame | exact Hempty].
Defined.

(** No way back in scenario D's graph: [None], with and without a
    depth limit; and a limit of one edge hides the two-edge path. *)
Example scenario_d_no_path :
  shortest_path elements "ctx1" "D" "A" None Sample.store_abcd
  = Some (Return None)
  ∧ shortest_path elements "ctx1" "A" "C" (Some 1) Sample.store_abcd
    = Some (Return None)
  ∧ shortest_path elements "ctx1" "A" "C" (Some 2) Sample.store_abcd
    = Some (Return (Some [Sample.edge "t1" "A" "B" 1; Sample.edge "t2" "B" "C" 1])).
Proof. repeat split; vm_compute; reflexivity. Qed.
End PathTheorems.
(** * The signer *)

Module SignerFacts.
Import Signer.

(** ** The signature alphabet *)

Lemma digit_in_alphabet n : Base64.digit n ∈ Base64.alphabet.
Proof.
  unfold Base64.digit.
  destruct (nth_in_or_default (N.to_nat n) Base64.alphabet "A"%char) as [Hin| ->].
  - by apply list_elem_of_In.
  - apply list_elem_of_In. vm_compute. tauto.
Qed.

Lemma alphabet_ascii_no_pad :
  Forall (λ c, N.ltb (N_of_ascii c) 128 = true ∧ Ascii.eqb c "="%char = false)
         Base64.alphabet.
Proof. repeat constructor. Qed.

Lemma digit_ascii n : N.ltb (N_of_ascii (Base64.digit n)) 128 = true.
Proof.
  pose proof alphabet_ascii_no_pad as H. rewrite Forall_forall in H.
  by destruct (H _ (digit_in_alphabet n)).
Qed.

Lemma digit_no_pad n : Ascii.eqb (Base64.digit n) "="%char = false.
Proof.
  pose proof alphabet_ascii_no_pad as H. rewrite Forall_forall in H.
  by destruct (H _ (digit_in_alphabet n)).
Qed.

(** A character that is not the padding character survives [rstrip]. *)
Lemma rstrip_eq_cons c s :
  Ascii.eqb c "="%char = false →
  ∃ s', Base64.rstrip_eq (String c s) = String c s'.
Proof.
  intros Hc. simpl. destruct (Base64.rstrip_eq s); rewrite ?Hc; by eexists.
Qed.

Lemma rstrip_eq_ascii s : isascii s = true → isascii (Base64.rstrip_eq s) = true.
Proof.
  unfold isascii. induction s as [|c s IH]; [done|]. simpl.
  intros [Hc Hs]%andb_true_iff. specialize (IH Hs).
  destruct (Base64.rstrip_eq s) eqn:E.
  - destruct (Ascii.eqb c "="%char); [done|]. simpl. by rewrite Hc.
  - simpl in *. by rewrite Hc, IH.
Qed.

Lemma urlsafe_b64encode_ascii bs : isascii (Base64.urlsafe_b64encode bs) = true.
Proof.
  unfold isascii.
  assert (H : ∀ n (bs : list N), (length bs < n)%nat →
    forallb (λ c, N.ltb (N_of_ascii c) 128)
            (list_ascii_of_string (Base64.urlsafe_b64encode bs)) = true).
  { clear bs. induction n as [|n IH]; intros bs Hlen; [lia|].
    destruct bs as [|a [|b [|c rest]]]; simpl; rewrite ?digit_ascii; simpl; try done.
    apply IH. simpl in Hlen. lia. }
  by apply (H (S (length bs))); lia.
Qed.

(** The signature of a non-empty digest is a non-empty ASCII string. *)
Lemma signature_shape raw :
  raw ≠ [] →
  let sig := Base64.rstrip_eq (Base64.urlsafe_b64encode raw) in
  truthy (JStr sig) = true ∧ isascii sig = true.
Proof.
  intros Hraw. split.
  - destruct raw as [|a [|b [|c rest]]]; [done|..];
      cbn [Base64.urlsafe_b64encode];
      match goal with
      | |- context [Base64.rstrip_eq (String ?c ?s)] =>
          destruct (rstrip_eq_cons c s (digit_no_pad _)) as [s' Hs'];
          rewrite Hs'
      end; done.
  - apply rstrip_eq_ascii, urlsafe_b64encode_ascii.
Qed.

(** ** Signing and verifying *)

Lemma sign_verify json_dumps (self : t) payload s :
  (∀ key msg, _digestmod self key msg ≠ []) →
  json_dumps payload = Return s →
  ∃ sig, sign json_dumps payload self = Return sig
         ∧ verify json_dumps payload (JStr sig) self = Return true.
Proof.
  intros Hdigest Hs. unfold verify, sign, _canonical_json_bytes. rewrite Hs.
  eexists. split; [reflexivity|].
  destruct (signature_shape (_digestmod self (_key_bytes self) (encode s))
              (Hdigest _ _)) as [Htruthy Hascii].
  rewrite Htruthy. simpl. rewrite Hascii. simpl. by rewrite String.eqb_refl.
Qed.

(** C7 (signer round trip).  For a signer whose HMAC digests are not
    empty: [verify(p, sign(p))] is true for every JSON-serializable
    payload [p]; [verify_record(sign_record(r, f), f)] is true for every
    record [r] and field name [f] such that [r] without [f] (which is
    what gets signed) is JSON-serializable; and [verify_record(r, f)]
    returns false, without raising, when [f] is absent from [r]. *)
Theorem signer_round_trip
    (json_dumps : json → result string) (self : t)
    (Hdigest : ∀ key msg, _digestmod self key msg ≠ []) :
  (∀ p s, json_dumps p = Return s →
     ∃ sig, sign json_dumps p self = Return sig
            ∧ verify json_dumps p (JStr sig) self = Return true)
  ∧ (∀ (r : gmap string json) f s,
       json_dumps (JDict (delete f r)) = Return s →
       ∃ r', sign_record json_dumps r f self = Return r'
             ∧ verify_record json_dumps r' f self = Return true)
  ∧ (∀ (r : gmap string json) f,
       r !! f = None → verify_record json_dumps r f self = Return false).
Proof.
  split; [|split].
  - intros p s Hs. by eapply sign_verify.
  - intros r f s Hs.
    destruct (sign_verify json_dumps self (JDict (delete f r)) s Hdigest Hs)
      as (sig & Hsign & Hverify).
    unfold sign_record, verify_record. rewrite Hsign.
    eexists. split; [reflexivity|].
    rewrite lookup_insert_eq, delete_insert_eq, delete_delete_eq. exact Hverify.
  - intros r f Hf. unfold verify_record. by rewrite Hf.
Qed.

Lemma signer_round_trip_witness :
  (∃ sig, sign Sample.toy_dumps (JDict {[ "a" := JInt 1 ]}) Sample.toy_signer
          = Return sig
          ∧ verify Sample.toy_dumps (JDict {[ "a" := JInt 1 ]}) (JStr sig)
              Sample.toy_signer = Return true)
  ∧ (∃ r', sign_record Sample.toy_dumps {[ "x" := JInt 1 ]} "signature"
             Sample.toy_signer = Return r'
           ∧ verify_record Sample.toy_dumps r' "signature" Sample.toy_signer
             = Return true)
  ∧ verify_record Sample.toy_dumps {[ "x" := JInt 1 ]} "signature"
      Sample.toy_signer = Return false.
Proof.
  destruct (signer_round_trip Sample.toy_dumps Sample.toy_signer)
    as (Hsign & Hrecord & Hmissing); [done|].
  split; [|split].
  - exact (Hsign (JDict {[ "a" := JInt 1 ]}) "{}" eq_refl).
  - exact (Hrecord {[ "x" := JInt 1 ]} "signature" "{}" eq_refl).
  - exact (Hmissing {[ "x" := JInt 1 ]} "signature" eq_refl).
Defined.

(** The signature of the stand-in digest, and a wrong and a missing
    signature. *)
Example toy_signature :
  sign Sample.toy_dumps (JDict ∅) Sample.toy_signer = Return "TWFu"
  ∧ verify Sample.toy_dumps (JDict ∅) (JStr "TWFv") Sample.toy_signer
    = Return false
  ∧ verify Sample.toy_dumps (JDict ∅) (JStr "") Sample.toy_signer
    = Return false.
Proof. repeat split. Qed.
End SignerFacts.

(** * The state tracker *)

Module TrackerFacts.
Import StateTracker.

(** The key built from fingerprints: the first configured key whose
    fingerprint is not empty, printed as [key:value]. *)
Lemma first_fingerprint_format fingerprint_map keys k :
  first_fingerprint fingerprint_map keys = Some k →
  ∃ before key after value,
    keys = before ++ key :: after
    ∧ fingerprint_map !! key = Some value
    ∧ value ≠ ""
    ∧ k = key +:+ ":" +:+ value
    ∧ Forall (λ key', fingerprint_map !! key' = None
                      ∨ fingerprint_map !! key' = Some "") before.
Proof.
  induction keys as [|key keys IH]; [done|]. simpl.
  destruct (fingerprint_map !! key) as [value|] eqn:Hv.
  - destruct (String.eqb value "") eqn:He.
    + apply String.eqb_eq in He as ->. intros Hk.
      destruct (IH Hk) as (before & key' & after & value & -> & ? & ? & ? & ?).
      exists (key :: before), key', after, value. repeat split; try done.
      constructor; [by right | done].
    + apply String.eqb_neq in He. intros [= <-].
      exists [], key, keys, value. by repeat split.
  - intros Hk.
    destruct (IH Hk) as (before & key' & after & value & -> & ? & ? & ? & ?).
    exists (key :: before), key', after, value. repeat split; try done.
    constructor; [by left | done].
Qed.

(** A key built from fingerprints does not depend on the state's id. *)
Lemma make_dedup_key_fingerprint state new_id self k :
  first_fingerprint (UIState.fingerprints state)
    (StateTrackerConfig.prefer_fingerprint_keys (_config self)) = Some k →
  _make_dedup_key state self = Some k
  ∧ _make_dedup_key (UIState.set_id new_id state) self = Some k.
Proof. intros Hk. unfold _make_dedup_key. simpl. by rewrite Hk. Qed.

(** C8 (deduplication).  Let the configured priority of fingerprint
    keys give two states [X] and [Y] the same dedup key, a key the
    tracker has not indexed when [X] is observed.  Then
    [observe_state(X)] returns [(id1, true)] and registers a tracked
    state with [times_seen = 1] under [id1], where [id1] is [X.id], or
    the generated id when [X.id] is empty and [auto_generate_ids] is
    set; [observe_state(Y)] then returns [(id1, false)] whatever [Y.id]
    is, brings [times_seen] to [2] and leaves the number of tracked
    states unchanged. *)
Theorem observe_state_deduplicates
    (self : t) (X Y : UIState.t) (uuid1 now1 uuid2 now2 key : string)
    (HkeyX : first_fingerprint (UIState.fingerprints X)
               (StateTrackerConfig.prefer_fingerprint_keys (_config self))
             = Some key)
    (HkeyY : first_fingerprint (UIState.fingerprints Y)
               (StateTrackerConfig.prefer_fingerprint_keys (_config self))
             = Some key)
    (Hfirst : _index_by_key self !! key = None) :
  ∃ id1 self1 self2 tracked1 tracked2,
    observe_state X uuid1 now1 self = (self1, Return (id1, true))
    ∧ id1 = (if String.eqb (UIState.id X) ""
                && StateTrackerConfig.auto_generate_ids (_config self)
             then uuid1 else UIState.id X)
    ∧ get_tracked id1 self1 = Some tracked1
    ∧ TrackedState.times_seen tracked1 = 1
    ∧ UIState.id (TrackedState.state tracked1) = id1
    ∧ observe_state Y uuid2 now2 self1 = (self2, Return (id1, false))
    ∧ get_tracked id1 self2 = Some tracked2
    ∧ TrackedState.times_seen tracked2 = 2
    ∧ len self2 = len self1.
Proof.
  set (X1 := if String.eqb (UIState.id X) ""
                && StateTrackerConfig.auto_generate_ids (_config self)
             then UIState.set_id uuid1 X else X).
  assert (HX1 : _make_dedup_key X1 self = Some key).
  { subst X1. destruct (make_dedup_key_fingerprint X uuid1 self key HkeyX).
    by case_match. }
  set (self1 := mk (_config self)
                   (<[UIState.id X1 := TrackedState.new X1 now1]> (_states_by_id self))
                   (<[key := UIState.id X1]> (_index_by_key self))).
  set (Y1 := if String.eqb (UIState.id Y) ""
                && StateTrackerConfig.auto_generate_ids (_config self1)
             then UIState.set_id uuid2 Y else Y).
  assert (HY1 : _make_dedup_key Y1 self1 = Some key).
  { subst Y1. destruct (make_dedup_key_fingerprint Y uuid2 self1 key HkeyY).
    by case_match. }
  exists (UIState.id X1), self1,
    (mk (_config self1)
        (<[UIState.id X1 := TrackedState.touch now2 (TrackedState.new X1 now1)]>
           (_states_by_id self1))
        (_index_by_key self1)),
    (TrackedState.new X1 now1),
    (TrackedState.touch now2 (TrackedState.new X1 now1)).
  split; [|split; [|split; [|split; [|split; [|split; [|split; [|split]]]]]]].
  - unfold observe_state. fold X1. by rewrite HX1, Hfirst.
  - subst X1. by case_match.
  - unfold get_tracked. simpl. by rewrite lookup_insert_eq.
  - done.
  - done.
  - unfold observe_state. fold Y1. rewrite HY1. simpl.
    by rewrite !lookup_insert_eq.
  - unfold get_tracked. simpl. by rewrite lookup_insert_eq.
  - done.
  - unfold len. simpl. apply map_size_insert_Some. by rewrite lookup_insert_eq.
Qed.

Lemma observe_state_deduplicates_witness :
  ∃ self1 self2,
    observe_state (Sample.ui "" {[ "structural" := "h1" ]}) "g1" "t1"
      Sample.tracker_f = (self1, Return ("g1", true))
    ∧ observe_state (Sample.ui "other" {[ "structural" := "h1" ]}) "g2" "t2"
        self1 = (self2, Return ("g1", false))
    ∧ length (all_states self2) = 1%nat.
Proof.
  destruct (observe_state_deduplicates Sample.tracker_f
              (Sample.ui "" {[ "structural" := "h1" ]})
              (Sample.ui "other" {[ "structural" := "h1" ]})
              "g1" "t1" "g2" "t2" "structural:h1")
    as (id1 & self1 & self2 & tr1 & tr2 & H1 & Hid & _ & _ & _ & H2 & _ & _ & Hlen);
    [vm_compute; reflexivity..|].
  simpl in Hid. subst id1. exists self1, self2.
  split; [exact H1|]. split; [exact H2|].
  unfold all_states. rewrite !length_fmap, length_map_to_list.
  unfold len in Hlen. rewrite Hlen.
  injection H1 as <-. reflexivity.
Defined.
End TrackerFacts.

(** * The workflow store *)

Module WorkflowFacts.
Import WorkflowStore WorkflowSpec.

(** The index never misses a workflow: the half of the consistency of
    the by-context index that the code does keep. *)
Lemma step_indexed self o : indexed self → indexed (step self o).
Proof.
  intros Hinv wid w. destruct o as [w0|wid0]; simpl.
  - unfold upsert_workflow. simpl.
    destruct (decide (wid = Workflow.workflow_id w0)) as [->|Hne].
    + rewrite lookup_insert_eq. intros [= <-].
      rewrite lookup_insert_eq. simpl. set_solver.
    + rewrite lookup_insert_ne by done. intros Hw. apply Hinv in Hw.
      destruct (decide (Workflow.context_id w0 = Workflow.context_id w)) as [E|E].
      * rewrite E, lookup_insert_eq. simpl. set_solver.
      * by rewrite lookup_insert_ne.
  - unfold delete_workflow.
    destruct (_workflows self !! wid0) as [w0|] eqn:Hw0; [|by apply Hinv].
    assert (Hkeep : _workflows self !! wid = Some w → wid ≠ wid0 →
              ∀ ctx_set, _by_context self !! Workflow.context_id w0 = Some ctx_set →
              Workflow.context_id w0 = Workflow.context_id w →
              wid ∈ ctx_set ∖ {[wid0]}).
    { intros Hw Hne ctx_set Hset E. apply Hinv in Hw.
      rewrite <- E, Hset in Hw. simpl in Hw. set_solver. }
    destruct (_by_context self !! Workflow.context_id w0) as [ctx_set|] eqn:Hset;
      [case_bool_decide as Hempty|]; simpl;
      (destruct (decide (wid = wid0)) as [->|Hne];
       [by rewrite lookup_delete_eq | rewrite lookup_delete_ne by done]);
      intros Hw.
    + destruct (decide (Workflow.context_id w0 = Workflow.context_id w)) as [E|E].
      * pose proof (Hkeep Hw Hne ctx_set eq_refl E) as Hin.
        apply size_empty_iff in Hempty. set_solver.
      * rewrite lookup_delete_ne by done. by apply Hinv.
    + destruct (decide (Workflow.context_id w0 = Workflow.context_id w)) as [E|E].
      * rewrite <- E, lookup_insert_eq. simpl. by apply (Hkeep Hw Hne).
      * rewrite lookup_insert_ne by done. by apply Hinv.
    + by apply Hinv.
Qed.

Lemma run_indexed ops : indexed (run ops init).
Proof.
  assert (H : ∀ self, indexed self → indexed (run ops self)).
  { induction ops as [|o ops IH]; intros self Hinv; [done|].
    simpl. apply IH. by apply step_indexed. }
  apply H. intros wid w. unfold init. simpl. by rewrite lookup_empty.
Qed.

(** C9 fails on the code: [upsert_workflow] does not take the id out of
    the index entry of the context the workflow used to belong to.
    After a workflow moves from context ["a"] to context ["b"], listing
    context ["a"] returns it, and once it is deleted, listing context
    ["a"] raises [KeyError]. *)
Lemma list_workflows_stale_context :
  let moved :=
    run [Upsert (Sample.workflow "w" "a"); Upsert (Sample.workflow "w" "b")] init in
  list_workflows elements (λ s, s) (Some "a") None None moved
  = Return [Sample.workflow "w" "b"]
  ∧ Workflow.context_id (Sample.workflow "w" "b") ≠ "a"
  ∧ _by_context moved !! "a" = Some {[ "w" ]}
  ∧ ¬ index_exact moved
  ∧ list_workflows elements (λ s, s) (Some "a") None None
      (run [Delete "w"] moved)
    = Raise (KeyError "w").
Proof.
  repeat split; try (vm_compute; reflexivity); [discriminate|].
  intros Hexact. destruct (Hexact "a" "w") as (w & Hw & Hctx).
  - vm_compute. set_solver.
  - vm_compute in Hw. injection Hw as <-. discriminate.
Qed.
End WorkflowFacts.
(** * More on the graph store *)

Module StoreLaws.
Import GraphStore StoreSpec ReadSpec StoreFacts.

(** ** What the three upserts write *)

Lemma upsert_context_lookup context self c :
  get_context c (upsert_context context self).1 =
  if decide (c = Context.context_id context)
  then (match (upsert_context context self).2 with
        | Return _ => Some context
        | Raise _ => get_context c self
        end)
  else get_context c self.
Proof.
  unfold upsert_context, get_context. case_match; simpl.
  - by case_decide.
  - case_decide as Hc; [subst; by rewrite lookup_insert_eq|].
    by rewrite lookup_insert_ne.
Qed.

Lemma upsert_state_lookup record self c s :
  get_state c s (upsert_state record self).1 =
  if decide (c = StateRecord.context_id record ∧ s = StateRecord.id record)
  then (match (upsert_state record self).2 with
        | Return _ => Some record
        | Raise _ => get_state c s self
        end)
  else get_state c s self.
Proof.
  unfold upsert_state, get_state.
  destruct (dd_get _ _) as [cs s1] eqn:E. apply dd_get_inv in E as [-> Hs1].
  assert (Hins :
    default ∅ (<[StateRecord.context_id record :=
                  <[StateRecord.id record := record]>
                    (default ∅ (_states self !! StateRecord.context_id record))]> s1
               !! c) !! s =
    if decide (c = StateRecord.context_id record ∧ s = StateRecord.id record)
    then Some record else default ∅ (_states self !! c) !! s).
  { destruct (decide (c = StateRecord.context_id record)) as [->|Hc].
    - rewrite lookup_insert_eq. simpl.
      destruct (decide (s = StateRecord.id record)) as [->|Hs].
      + rewrite lookup_insert_eq. by rewrite decide_True.
      + rewrite lookup_insert_ne by done.
        rewrite decide_False; [done | by intros [_ ?]].
    - rewrite lookup_insert_ne by done. rewrite Hs1.
      rewrite decide_False; [done | by intros [? _]]. }
  destruct (GraphStoreConfig.max_states_per_context (_config self)) as [k|];
    [destruct (_ && _)|]; simpl; try apply Hins.
  rewrite Hs1. by case_decide.
Qed.

Lemma states_after_raise record self e c :
  (upsert_state record self).2 = Raise e →
  default ∅ (_states (upsert_state record self).1 !! c)
  = default ∅ (_states self !! c).
Proof.
  unfold upsert_state.
  destruct (dd_get _ _) as [cs s1] eqn:E. apply dd_get_inv in E as [-> Hs1].
  destruct (GraphStoreConfig.max_states_per_context (_config self)) as [k|];
    [destruct (_ && _)|]; simpl; try done.
Qed.

Lemma transitions_after_raise record inc self e c :
  (upsert_transition record inc self).2 = Raise e →
  default ∅ (_transitions (upsert_transition record inc self).1 !! c)
  = default ∅ (_transitions self !! c)
  ∧ _outgoing (upsert_transition record inc self).1 = _outgoing self
  ∧ _incoming (upsert_transition record inc self).1 = _incoming self.
Proof.
  unfold upsert_transition.
  destruct (dd_get _ _) as [ct t1] eqn:E. apply dd_get_inv in E as [-> Ht1].
  destruct (default ∅ _ !! TransitionRecord.id record); [done|].
  destruct (at_capacity _ _); simpl; [|done]. by intros _.
Qed.

Lemma step_config self o : _config (step self o) = _config self.
Proof.
  destruct o as [ctx|rec|rec inc]; simpl.
  - by destruct (upsert_context_frame ctx self) as (-> & _).
  - by destruct (upsert_state_frame rec self) as (-> & _).
  - by destruct (upsert_transition_frame rec inc self) as (-> & _).
Qed.

Lemma run_config ops self : _config (run ops self) = _config self.
Proof.
  revert self. induction ops as [|o ops IH]; intros self; [done|].
  simpl. by rewrite IH, step_config.
Qed.

(** ** Limits *)

Local Arguments under : simpl never.

Lemma under_insert {V} (limit : option Z) (m : gmap string V) k v :
  under limit (size m) →
  (m !! k = None → at_capacity limit (size m) = false) →
  under limit (size (<[k := v]> m)).
Proof.
  intros Hu Hroom. rewrite map_size_insert.
  destruct (m !! k); [done|]. specialize (Hroom eq_refl).
  destruct limit as [l|]; [|done]. unfold under in *. simpl in *.
  apply bool_decide_eq_false in Hroom. lia.
Qed.

Lemma step_under self o :
  let cfg := _config self in
  (under (GraphStoreConfig.max_contexts cfg) (size (_contexts self))
   ∧ ∀ c,
       under (GraphStoreConfig.max_states_per_context cfg)
             (size (default ∅ (_states self !! c)))
       ∧ under (GraphStoreConfig.max_transitions_per_context cfg)
               (size (default ∅ (_transitions self !! c)))) →
  (under (GraphStoreConfig.max_contexts cfg) (size (_contexts (step self o)))
   ∧ ∀ c,
       under (GraphStoreConfig.max_states_per_context cfg)
             (size (default ∅ (_states (step self o) !! c)))
       ∧ under (GraphStoreConfig.max_transitions_per_context cfg)
               (size (default ∅ (_transitions (step self o) !! c)))).
Proof.
  intros cfg [Hctx Hrest]. destruct o as [ctx|rec|rec inc]; simpl.
  - destruct (upsert_context_frame ctx self) as (_ & -> & -> & _).
    split; [|done]. unfold upsert_context.
    destruct (at_capacity _ _ && _) eqn:Hfull; simpl; [done|].
    apply under_insert; [done|]. intros Hnew.
    apply andb_false_iff in Hfull as [?|Hn]; [done|].
    apply bool_decide_eq_false in Hn. done.
  - destruct (upsert_state_frame rec self) as (_ & -> & -> & _).
    split; [done|]. intros c. split; [|apply Hrest].
    destruct (Hrest c) as [Hs _]. unfold upsert_state.
    destruct (dd_get _ _) as [cs s1] eqn:E. apply dd_get_inv in E as [-> Hs1].
    fold cfg.
    assert (Hins : ∀ lim,
      (default ∅ (_states self !! StateRecord.context_id rec)
         !! StateRecord.id rec = None →
       at_capacity lim
         (size (default ∅ (_states self !! StateRecord.context_id rec))) = false) →
      (∀ c', under lim (size (default ∅ (_states self !! c')))) →
      under lim
        (size (default ∅
           (<[StateRecord.context_id rec :=
               <[StateRecord.id rec := rec]>
                 (default ∅ (_states self !! StateRecord.context_id rec))]> s1
            !! c)))).
    { intros lim Hroom Hall.
      destruct (decide (c = StateRecord.context_id rec)) as [->|Hc].
      - rewrite lookup_insert_eq. simpl. by apply under_insert.
      - rewrite lookup_insert_ne by done. rewrite Hs1. apply Hall. }
    destruct (GraphStoreConfig.max_states_per_context cfg) as [k|] eqn:Hk.
    + destruct (_ && _) eqn:Hfull; simpl.
      * by rewrite Hs1.
      * apply Hins; [|intros c'; apply Hrest]. intros Hnew. simpl.
        apply andb_false_iff in Hfull as [Hn|Hn].
        -- apply bool_decide_eq_false in Hn. done.
        -- done.
    + simpl. done.
  - destruct (upsert_transition_frame rec inc self) as (_ & -> & ->).
    split; [done|]. intros c. split; [apply Hrest|].
    unfold upsert_transition.
    destruct (dd_get _ _) as [ct t1] eqn:E. apply dd_get_inv in E as [-> Ht1].
    fold cfg.
    assert (Hins : ∀ r,
      (default ∅ (_transitions self !! TransitionRecord.context_id rec)
         !! TransitionRecord.id rec = None →
       at_capacity (GraphStoreConfig.max_transitions_per_context cfg)
         (size (default ∅ (_transitions self
                           !! TransitionRecord.context_id rec))) = false) →
      under (GraphStoreConfig.max_transitions_per_context cfg)
        (size (default ∅
           (<[TransitionRecord.context_id rec :=
               <[TransitionRecord.id rec := r]>
                 (default ∅ (_transitions self
                             !! TransitionRecord.context_id rec))]> t1
            !! c)))).
    { intros r Hroom.
      destruct (decide (c = TransitionRecord.context_id rec)) as [->|Hc].
      - rewrite lookup_insert_eq. simpl. apply under_insert; [apply Hrest|done].
      - rewrite lookup_insert_ne by done. rewrite Ht1. apply Hrest. }
    destruct (default ∅ _ !! TransitionRecord.id rec) eqn:Hex; simpl.
    + apply Hins. by intros ?.
    + destruct (at_capacity _ _) eqn:Hcap; simpl.
      * rewrite Ht1. apply Hrest.
      * apply Hins. by intros _.
Qed.

(** X1 (limits).  On a store that started empty, whatever calls were
    made and whether they returned or raised, the number of contexts
    never exceeds [max_contexts], and in every context the number of
    states never exceeds [max_states_per_context] and the number of
    transitions never exceeds [max_transitions_per_context] (a limit
    below zero counts as zero, an unset limit does not bound). *)
Theorem limits_are_kept
    (config : option GraphStoreConfig.t) (ops : list op) (c : string) :
  let cfg := default GraphStoreConfig.default config in
  let st := run ops (init config) in
  under (GraphStoreConfig.max_contexts cfg) (length (list_contexts st))
  ∧ under (GraphStoreConfig.max_states_per_context cfg)
          (length (list_states c st))
  ∧ under (GraphStoreConfig.max_transitions_per_context cfg)
          (length (list_transitions c st)).
Proof.
  intros cfg st.
  assert (H : ∀ self,
    (under (GraphStoreConfig.max_contexts (_config self)) (size (_contexts self))
     ∧ ∀ c,
       under (GraphStoreConfig.max_states_per_context (_config self))
             (size (default ∅ (_states self !! c)))
       ∧ under (GraphStoreConfig.max_transitions_per_context (_config self))
               (size (default ∅ (_transitions self !! c)))) →
    (under (GraphStoreConfig.max_contexts (_config self))
           (size (_contexts (run ops self)))
     ∧ ∀ c,
       under (GraphStoreConfig.max_states_per_context (_config self))
             (size (default ∅ (_states (run ops self) !! c)))
       ∧ under (GraphStoreConfig.max_transitions_per_context (_config self))
               (size (default ∅ (_transitions (run ops self) !! c))))).
  { induction ops as [|o ops IH]; intros self Hinv; [done|].
    simpl. rewrite <- (step_config self o). apply IH.
    rewrite step_config. by apply step_under. }
  destruct (H (init config)) as [Hctx Hrest].
  { assert (Hzero : ∀ limit, under limit 0).
    { intros [k|]; unfold under; simpl; lia. }
    split; [|intros c'; split]; simpl; rewrite ?lookup_empty; simpl;
      rewrite map_size_empty; apply Hzero. }
  destruct (Hrest c) as [Hs Ht]. unfold list_contexts, list_states, list_transitions.
  rewrite !length_fmap, !length_map_to_list.
  done.
Qed.

(** The limits at work: the second state is refused, the first can be
    replaced. *)
Example limit_of_one_state :
  let st := run [UpsertState (Sample.state "s1")]
                (init (Some (GraphStoreConfig.mk None (Some 1) None))) in
  outcome st (UpsertState (Sample.state "s2"))
  = Raise (RuntimeError "Context 'ctx1' exceeded max_states_per_context=1")
  ∧ outcome st (UpsertState (Sample.state "s1")) = Return ().
Proof. split; vm_compute; reflexivity. Qed.

(** ** Calls that raise *)

(** X2 (a call that raises writes nothing a client can read).  When
    [upsert_context], [upsert_state] or [upsert_transition] raises, every
    read of the store ([get_context], [get_state], [list_states],
    [get_transition], [list_transitions] and both incidence indices)
    answers as before the call, although the [defaultdict] may have
    gained an empty entry. *)
Theorem raising_call_changes_no_read (self : t) (o : op) (e : exn)
    (Hraises : outcome self o = Raise e) :
  same_reads (step self o) self.
Proof.
  destruct o as [ctx|rec|rec inc]; simpl in *.
  - unfold upsert_context in *. destruct (_ && _); [by repeat split | done].
  - destruct (upsert_state_frame rec self) as (_ & Hc & Ht & Ho & Hi & _).
    pose proof (states_after_raise rec self e) as Hs.
    unfold same_reads, get_context, get_state, list_states, get_transition,
      list_transitions.
    rewrite Hc, Ht, Ho, Hi. repeat split; intros; by rewrite ?Hs.
  - destruct (upsert_transition_frame rec inc self) as (_ & Hc & Hs).
    pose proof (transitions_after_raise rec inc self e) as Ht.
    unfold same_reads, get_context, get_state, list_states, get_transition,
      list_transitions.
    destruct (Ht "" Hraises) as (_ & Ho & Hi).
    rewrite Hc, Hs, Ho, Hi.
    repeat split; intros; by rewrite ?(proj1 (Ht c Hraises)).
Qed.

Lemma raising_call_changes_no_read_witness :
  outcome (run [UpsertState (Sample.state "s1")]
               (init (Some (GraphStoreConfig.mk None (Some 1) None))))
          (UpsertState (Sample.state "s2"))
  = Raise (RuntimeError "Context 'ctx1' exceeded max_states_per_context=1")
  ∧ same_reads
      (step (run [UpsertState (Sample.state "s1")]
                 (init (Some (GraphStoreConfig.mk None (Some 1) None))))
            (UpsertState (Sample.state "s2")))
      (run [UpsertState (Sample.state "s1")]
           (init (Some (GraphStoreConfig.mk None (Some 1) None)))).
Proof.
  assert (H : outcome (run [UpsertState (Sample.state "s1")]
               (init (Some (GraphStoreConfig.mk None (Some 1) None))))
          (UpsertState (Sample.state "s2"))
  = Raise (RuntimeError "Context 'ctx1' exceeded max_states_per_context=1"))
    by (vm_compute; reflexivity).
  split; [exact H|].
  exact (raising_call_changes_no_read _ _ _ H).
Defined.

(** ** Writing and reading back *)

(** X3 (a state can be read back).  When [upsert_state(r)] returns,
    [get_state(r.context_id, r.id)] is [r]; whether it returns or
    raises, every other state reads as before.  It returns whenever the
    id is already stored in the context (a replacement is never
    refused) and whenever no limit is set. *)
Theorem upsert_state_reads_back (self : t) (record : StateRecord.t) :
  let ctx := StateRecord.context_id record in
  let sid := StateRecord.id record in
  let self' := (upsert_state record self).1 in
  ((upsert_state record self).2 = Return () → get_state ctx sid self' = Some record)
  ∧ (∀ c s, ¬ (c = ctx ∧ s = sid) → get_state c s self' = get_state c s self)
  ∧ (is_Some (get_state ctx sid self)
     ∨ GraphStoreConfig.max_states_per_context (_config self) = None →
     (upsert_state record self).2 = Return ()).
Proof.
  intros ctx sid self'. split; [|split].
  - intros Hret. subst self'. rewrite upsert_state_lookup, decide_True by done.
    by rewrite Hret.
  - intros c s Hne. subst self'. by rewrite upsert_state_lookup, decide_False.
  - unfold upsert_state, get_state.
    destruct (dd_get _ _) as [cs s1] eqn:E. apply dd_get_inv in E as [-> Hs1].
    intros [[x Hx]|Hlim].
    + fold ctx sid. rewrite Hx. by destruct (GraphStoreConfig.max_states_per_context _).
    + by rewrite Hlim.
Qed.

(** X4 (frame of [upsert_transition]).  Whether it returns or raises,
    [upsert_transition(r)] leaves contexts and states alone, and for
    every transition id other than [r.id], and in every context other
    than [r.context_id], the stored record and its places in the two
    incidence indices are as before. *)
Theorem upsert_transition_touches_one_id
    (self : t) (record : TransitionRecord.t) (inc : bool) :
  let self' := (upsert_transition record inc self).1 in
  _contexts self' = _contexts self
  ∧ _states self' = _states self
  ∧ ∀ c tid,
      ¬ (c = TransitionRecord.context_id record
         ∧ tid = TransitionRecord.id record) →
      get_transition c tid self' = get_transition c tid self
      ∧ (∀ s, tid ∈ index_get (_outgoing self') c s
              ↔ tid ∈ index_get (_outgoing self) c s)
      ∧ (∀ s, tid ∈ index_get (_incoming self') c s
              ↔ tid ∈ index_get (_incoming self) c s).
Proof.
  intros self'.
  destruct (upsert_transition_frame record inc self) as (_ & Hc & Hs).
  split; [done|]. split; [done|]. intros c tid Hne. split.
  - subst self'. by rewrite upsert_transition_lookup, decide_False.
  - assert (Hidx : ∀ idx c0 s0 s (f : gset string → gset string),
      (∀ X, tid ∈ f X ↔ tid ∈ X) ∨ c ≠ c0 →
      (tid ∈ index_get (index_update f c0 s0 idx) c s ↔ tid ∈ index_get idx c s)).
    { intros idx c0 s0 s f Hf. rewrite index_get_update.
      case_decide as Hd; [|done]. destruct Hd as [-> ->].
      destruct Hf as [Hf|?]; [apply Hf | done]. }
    assert (Hf : ∀ X : gset string,
      c = TransitionRecord.context_id record →
      (tid ∈ X ∪ {[TransitionRecord.id record]} ↔ tid ∈ X)
      ∧ (tid ∈ X ∖ {[TransitionRecord.id record]} ↔ tid ∈ X)).
    { intros X Hcc. assert (tid ≠ TransitionRecord.id record) by naive_solver.
      set_solver. }
    assert (Hcase : ∀ X : gset string,
      c ≠ TransitionRecord.context_id record
      ∨ ((tid ∈ X ∪ {[TransitionRecord.id record]} ↔ tid ∈ X)
         ∧ (tid ∈ X ∖ {[TransitionRecord.id record]} ↔ tid ∈ X))).
    { intros X. destruct (decide (c = TransitionRecord.context_id record)) as [E|E];
        [right; by apply Hf | by left]. }
    assert (Hadd : ∀ idx s0 s,
      tid ∈ index_get (index_update (λ X, X ∪ {[TransitionRecord.id record]})
                         (TransitionRecord.context_id record) s0 idx) c s
      ↔ tid ∈ index_get idx c s).
    { intros. apply Hidx.
      destruct (decide (c = TransitionRecord.context_id record)) as [E|E];
        [left | by right].
      intros X. destruct (Hcase X) as [?|[? _]]; done. }
    assert (Hdel : ∀ idx s0 s,
      tid ∈ index_get (index_update (λ X, X ∖ {[TransitionRecord.id record]})
                         (TransitionRecord.context_id record) s0 idx) c s
      ↔ tid ∈ index_get idx c s).
    { intros. apply Hidx.
      destruct (decide (c = TransitionRecord.context_id record)) as [E|E];
        [left | by right].
      intros X. destruct (Hcase X) as [?|[_ ?]]; done. }
    subst self'. unfold upsert_transition.
    destruct (dd_get _ _) as [ct t1].
    destruct (ct !! TransitionRecord.id record); simpl.
    + split; intros s; rewrite Hadd; case_bool_decide; by rewrite ?Hdel.
    + destruct (at_capacity _ _); simpl; [done|].
      split; intros s; by rewrite Hadd.
Qed.

(** ** Edges at a state *)

(** X5 (the edges at a state).  On a store that started empty, and for
    every iteration order of the index sets, [list_outgoing(c, s)] holds
    exactly the transition records stored in [c] whose source is [s],
    and [list_incoming(c, s)] exactly those whose target is [s]. *)
Theorem list_outgoing_incoming_exact
    (iter_set : gset string → list string)
    (iter_set_elements : ∀ X x, x ∈ iter_set X ↔ x ∈ X)
    (config : option GraphStoreConfig.t) (ops : list op)
    (c s : string) (r : TransitionRecord.t) :
  (r ∈ list_outgoing iter_set c s (run ops (init config))
   ↔ stored c (run ops (init config)) r
     ∧ TransitionRecord.source_state_id r = s)
  ∧ (r ∈ list_incoming iter_set c s (run ops (init config))
     ↔ stored c (run ops (init config)) r
       ∧ TransitionRecord.target_state_id r = s).
Proof.
  destruct (reachable_consistent config ops) as [Hout Hin].
  unfold list_outgoing, list_incoming, get_outgoing_transitions,
    get_incoming_transitions, resolve, stored, get_transition.
  split; rewrite list_elem_of_omap; split.
  - intros (tid & Htid & Hr). apply iter_set_elements, Hout in Htid
      as (r' & Hr' & Hsrc). rewrite Hr in Hr'. injection Hr' as <-.
    split; [by exists tid | done].
  - intros [[tid Hr] Hsrc]. exists tid. split; [|done].
    apply iter_set_elements, Hout. by exists r.
  - intros (tid & Htid & Hr). apply iter_set_elements, Hin in Htid
      as (r' & Hr' & Htgt). rewrite Hr in Hr'. injection Hr' as <-.
    split; [by exists tid | done].
  - intros [[tid Hr] Htgt]. exists tid. split; [|done].
    apply iter_set_elements, Hin. by exists r.
Qed.

Lemma list_outgoing_incoming_exact_witness :
  (Sample.edge "t4" "A" "D" 1 ∈ list_outgoing elements "ctx1" "A" Sample.store_abcd
   ↔ stored "ctx1" Sample.store_abcd (Sample.edge "t4" "A" "D" 1)
     ∧ TransitionRecord.source_state_id (Sample.edge "t4" "A" "D" 1) = "A")
  ∧ length (list_incoming elements "ctx1" "D" Sample.store_abcd) = 2%nat.
Proof.
  split; [|vm_compute; reflexivity].
  exact (proj1 (list_outgoing_incoming_exact elements
                  (λ X x, elem_of_elements X x) None
                  [UpsertTransition (Sample.edge "t1" "A" "B" 1) true;
                   UpsertTransition (Sample.edge "t2" "B" "C" 1) true;
                   UpsertTransition (Sample.edge "t3" "C" "D" 1) true;
                   UpsertTransition (Sample.edge "t4" "A" "D" 1) true]
                  "ctx1" "A" (Sample.edge "t4" "A" "D" 1))).
Defined.

(** ** [add_context] *)

(** X6 ([add_context] without [overwrite]).  [add_context(ctx,
    overwrite=False)] raises [ValueError] and leaves the store as it is
    when the id is taken, is [upsert_context(ctx)] when the id is free,
    and in no case changes a context that is already stored. *)
Theorem add_context_keeps_stored (self : t) (context : Context.t) :
  let cid := Context.context_id context in
  (is_Some (get_context cid self) →
   add_context context false self
   = (self, Raise (ValueError ("Context '" +:+ cid +:+ "' already exists"))))
  ∧ (get_context cid self = None →
     add_context context false self = upsert_context context self)
  ∧ (∀ c x, get_context c self = Some x →
            get_context c (add_context context false self).1 = Some x).
Proof.
  intros cid. unfold add_context, get_context. fold cid. simpl.
  split; [|split].
  - intros H. by rewrite bool_decide_true.
  - intros H. rewrite bool_decide_false; [done|]. rewrite H. by intros [? ?].
  - intros c x Hx. case_bool_decide as Hex; [done|].
    change (get_context c (upsert_context context self).1 = Some x).
    rewrite upsert_context_lookup. fold cid. case_decide as Hc; [|done].
    subst c. exfalso. apply Hex. by eexists.
Qed.
(** ** Nothing is deleted *)

Lemma grows_refl self : grows self self.
Proof. by repeat split. Qed.

Lemma grows_trans a b c : grows a b → grows b c → grows a c.
Proof.
  intros (E1 & C1 & S1 & T1) (E2 & C2 & S2 & T2).
  split; [congruence|]. repeat split; eauto.
Qed.

Lemma upsert_context_grows context self :
  grows self (upsert_context context self).1.
Proof.
  destruct (upsert_context_frame context self) as (Ecfg & Es & Et & _).
  split; [done|]. split; [|split].
  - intros c H. rewrite upsert_context_lookup.
    case_decide; [|done]. by destruct (upsert_context context self).2.
  - intros c s. unfold get_state. by rewrite Es.
  - intros c tid. unfold get_transition. by rewrite Et.
Qed.

Lemma upsert_state_grows record self :
  grows self (upsert_state record self).1.
Proof.
  destruct (upsert_state_frame record self) as (Ecfg & Ec & Et & _).
  split; [done|]. split; [|split].
  - intros c. unfold get_context. by rewrite Ec.
  - intros c s H. rewrite upsert_state_lookup.
    case_decide; [|done]. by destruct (upsert_state record self).2.
  - intros c tid. by rewrite step_state_transitions.
Qed.

Lemma upsert_transition_grows record inc self :
  grows self (upsert_transition record inc self).1.
Proof.
  destruct (upsert_transition_frame record inc self) as (Ecfg & Ec & Es).
  split; [done|]. split; [|split].
  - intros c. unfold get_context. by rewrite Ec.
  - intros c s. unfold get_state. by rewrite Es.
  - intros c tid H. rewrite upsert_transition_lookup.
    case_decide as Hd; [|done]. destruct Hd as [-> ->].
    unfold full_for. rewrite bool_decide_false; [done|].
    intros E. rewrite E in H. by destruct H.
Qed.

Lemma step_grows self o : grows self (step self o).
Proof.
  destruct o; simpl;
    [apply upsert_context_grows | apply upsert_state_grows
     | apply upsert_transition_grows].
Qed.

(** X11 (nothing is deleted).  No sequence of [upsert_context],
    [upsert_state] and [upsert_transition] calls, returning or raising,
    removes anything: a context, state or transition id that could be
    read before still reads afterwards (possibly with a replaced
    record), and the configured limits are unchanged. *)
Theorem upserts_never_delete (ops : list op) (self : t) :
  grows self (run ops self).
Proof.
  revert self. induction ops as [|o ops IH]; intros self; simpl.
  - apply grows_refl.
  - eapply grows_trans; [apply step_grows | apply IH].
Qed.

End StoreLaws.
(** * More on shortest paths *)

Module SearchLaws.
Import GraphStore StoreSpec StoreFacts SearchShape SearchFacts.

(** X7 ([shortest_path] always answers).  On every store, consistent or
    not, for every iteration order and every [max_depth], the search
    ends and returns a path or [None]: the [while] loop runs at most
    [len(transitions[c]) + 1] times, [depth[current]] is never missing,
    and the walk back along [prev] ends at the source. *)
Theorem shortest_path_always_answers
    (iter_set : gset string → list string) (self : t)
    (c s t : string) (max_depth : option Z) :
  ∃ r, shortest_path iter_set c s t max_depth self = Some (Return r).
Proof. apply shortest_path_total. Qed.

(** X8 (the depth limit).  On a store that started empty: a path
    returned for [s ≠ t] has at least one edge and at most [max_depth]
    edges, and with [max_depth ≤ 0] the answer for [s ≠ t] is [None]. *)
Theorem shortest_path_within_max_depth
    (iter_set : gset string → list string)
    (iter_set_elements : ∀ X x, x ∈ iter_set X ↔ x ∈ X)
    (config : option GraphStoreConfig.t) (ops : list op)
    (c s t : string) (max_depth : option Z)
    (Hdistinct : s ≠ t) :
  (∀ es, shortest_path iter_set c s t max_depth (run ops (init config))
         = Some (Return (Some es)) →
         (1 ≤ length es)%nat ∧ within max_depth (length es))
  ∧ (∀ m, max_depth = Some m → m ≤ 0 →
          shortest_path iter_set c s t max_depth (run ops (init config))
          = Some (Return None)).
Proof.
  destruct (reachable_consistent config ops) as [Hout _].
  assert (Hpath : ∀ es,
    shortest_path iter_set c s t max_depth (run ops (init config))
    = Some (Return (Some es)) →
    (1 ≤ length es)%nat ∧ within max_depth (length es)).
  { intros es Hes.
    pose proof (shortest_path_result _ _ _ _ _ _ _ iter_set_elements Hout Hes)
      as (_ & Hlen & _).
    destruct (Hlen Hdistinct) as [Hw Hne]. split; [|done].
    destruct es; [done | simpl; lia]. }
  split; [done|]. intros m -> Hm.
  destruct (shortest_path_total iter_set (run ops (init config)) c s t (Some m))
    as [[es|] Hr]; [|done].
  destruct (Hpath es Hr) as [Hone Hw]. simpl in Hw. lia.
Qed.

Lemma shortest_path_within_max_depth_witness :
  shortest_path elements "ctx1" "A" "C" (Some 2) Sample.store_abcd
  = Some (Return (Some [Sample.edge "t1" "A" "B" 1; Sample.edge "t2" "B" "C" 1]))
  ∧ within (Some 2) 2
  ∧ shortest_path elements "ctx1" "A" "C" (Some 0) Sample.store_abcd
    = Some (Return None).
Proof.
  assert (Hrun : shortest_path elements "ctx1" "A" "C" (Some 2) Sample.store_abcd
    = Some (Return (Some [Sample.edge "t1" "A" "B" 1; Sample.edge "t2" "B" "C" 1])))
    by (vm_compute; reflexivity).
  split; [exact Hrun|].
  assert (Hne : "A" ≠ "C") by discriminate.
  split.
  - exact (proj2 (proj1 (shortest_path_within_max_depth elements
             (λ X x, elem_of_elements X x) None
             [UpsertTransition (Sample.edge "t1" "A" "B" 1) true;
              UpsertTransition (Sample.edge "t2" "B" "C" 1) true;
              UpsertTransition (Sample.edge "t3" "C" "D" 1) true;
              UpsertTransition (Sample.edge "t4" "A" "D" 1) true]
             "ctx1" "A" "C" (Some 2) Hne) _ Hrun)).
  - apply (proj2 (shortest_path_within_max_depth elements
             (λ X x, elem_of_elements X x) None
             [UpsertTransition (Sample.edge "t1" "A" "B" 1) true;
              UpsertTransition (Sample.edge "t2" "B" "C" 1) true;
              UpsertTransition (Sample.edge "t3" "C" "D" 1) true;
              UpsertTransition (Sample.edge "t4" "A" "D" 1) true]
             "ctx1" "A" "C" (Some 0) Hne) 0 eq_refl). lia.
Defined.

(** X9 ([None] is never a missed path).  On a store that started empty:
    when [shortest_path] returns [None], the two states differ and no
    sequence of transitions of the context leads from [s] to [t] within
    [max_depth] edges; and when such a sequence exists, a path is
    returned that is not longer than it. *)
Theorem shortest_path_none_means_no_path
    (iter_set : gset string → list string)
    (iter_set_elements : ∀ X x, x ∈ iter_set X ↔ x ∈ X)
    (config : option GraphStoreConfig.t) (ops : list op)
    (c s t : string) (max_depth : option Z) :
  (shortest_path iter_set c s t max_depth (run ops (init config))
   = Some (Return None) →
   s ≠ t
   ∧ ∀ es, path c (run ops (init config)) es s t →
           ¬ within max_depth (length es))
  ∧ (∀ es, path c (run ops (init config)) es s t →
           within max_depth (length es) →
           ∃ es', shortest_path iter_set c s t max_depth (run ops (init config))
                  = Some (Return (Some es'))
                  ∧ (length es' ≤ length es)%nat).
Proof.
  destruct (reachable_consistent config ops) as [Hout _].
  split.
  - intros Hnone.
    exact (shortest_path_result _ _ _ _ _ _ _ iter_set_elements Hout Hnone).
  - intros es Hes Hw.
    destruct (shortest_path_total iter_set (run ops (init config)) c s t max_depth)
      as [r Hr].
    pose proof (shortest_path_result _ _ _ _ _ _ _ iter_set_elements Hout Hr)
      as Hres.
    destruct r as [es'|].
    + exists es'. split; [done|]. destruct Hres as (_ & _ & Hmin). by apply Hmin.
    + destruct Hres as [_ Hno]. by destruct (Hno es Hes).
Qed.

Lemma shortest_path_none_means_no_path_witness :
  shortest_path elements "ctx1" "D" "A" None Sample.store_abcd = Some (Return None)
  ∧ "D" ≠ "A".
Proof.
  assert (Hrun : shortest_path elements "ctx1" "D" "A" None Sample.store_abcd
                 = Some (Return None)) by (vm_compute; reflexivity).
  split; [exact Hrun|].
  exact (proj1 (proj1 (shortest_path_none_means_no_path elements
           (λ X x, elem_of_elements X x) None
           [UpsertTransition (Sample.edge "t1" "A" "B" 1) true;
            UpsertTransition (Sample.edge "t2" "B" "C" 1) true;
            UpsertTransition (Sample.edge "t3" "C" "D" 1) true;
            UpsertTransition (Sample.edge "t4" "A" "D" 1) true]
           "ctx1" "D" "A" None) Hrun)).
Defined.

(** X10 (the iteration order only breaks ties).  On a store that
    started empty, two runs of [shortest_path] that iterate the index
    sets in different orders either both return [None] or return paths
    of the same length. *)
Theorem shortest_path_length_fixed
    (iter1 iter2 : gset string → list string)
    (iter1_elements : ∀ X x, x ∈ iter1 X ↔ x ∈ X)
    (iter2_elements : ∀ X x, x ∈ iter2 X ↔ x ∈ X)
    (config : option GraphStoreConfig.t) (ops : list op)
    (c s t : string) (max_depth : option Z) :
  ∃ r1 r2,
    shortest_path iter1 c s t max_depth (run ops (init config)) = Some (Return r1)
    ∧ shortest_path iter2 c s t max_depth (run ops (init config)) = Some (Return r2)
    ∧ length <$> r1 = length <$> r2.
Proof.
  destruct (reachable_consistent config ops) as [Hout _].
  destruct (shortest_path_total iter1 (run ops (init config)) c s t max_depth)
    as [r1 Hr1].
  destruct (shortest_path_total iter2 (run ops (init config)) c s t max_depth)
    as [r2 Hr2].
  exists r1, r2. split; [done|]. split; [done|].
  pose proof (shortest_path_result _ _ _ _ _ _ _ iter1_elements Hout Hr1) as H1.
  pose proof (shortest_path_result _ _ _ _ _ _ _ iter2_elements Hout Hr2) as H2.
  destruct r1 as [es1|], r2 as [es2|]; simpl.
  - destruct H1 as (Hp1 & _ & Hm1), H2 as (Hp2 & _ & Hm2).
    f_equal. specialize (Hm1 _ Hp2). specialize (Hm2 _ Hp1). lia.
  - destruct H1 as (Hp1 & Hw1 & _), H2 as [Hst Hno].
    destruct (Hw1 Hst) as [Hw _]. by destruct (Hno es1 Hp1).
  - destruct H2 as (Hp2 & Hw2 & _), H1 as [Hst Hno].
    destruct (Hw2 Hst) as [Hw _]. by destruct (Hno es2 Hp2).
  - done.
Qed.

Lemma shortest_path_length_fixed_witness :
  ∃ r1 r2,
    shortest_path elements "ctx1" "A" "D" None Sample.store_abcd = Some (Return r1)
    ∧ shortest_path (λ X, reverse (elements X)) "ctx1" "A" "D" None
        Sample.store_abcd = Some (Return r2)
    ∧ length <$> r1 = length <$> r2.
Proof.
  apply (shortest_path_length_fixed elements (λ X, reverse (elements X))
           (λ X x, elem_of_elements X x)).
  intros X x. rewrite elem_of_reverse. apply elem_of_elements.
Defined.
End SearchLaws.
(** * The ingest layer *)

Module IngestLaws.
Import GraphStore StoreSpec ReadSpec IngestSpec StoreFacts StoreLaws IngestHandler.

(** ** The store calls keep the references *)

Lemma upsert_context_keeps context store c :
  is_Some (get_context c store) →
  is_Some (get_context c (upsert_context context store).1).
Proof.
  intros H. rewrite upsert_context_lookup.
  case_decide; [|done]. by destruct (upsert_context context store).2.
Qed.

Lemma upsert_state_keeps record store c s :
  is_Some (get_state c s store) →
  is_Some (get_state c s (upsert_state record store).1).
Proof.
  intros H. rewrite upsert_state_lookup.
  case_decide; [|done]. by destruct (upsert_state record store).2.
Qed.

Lemma upsert_context_referential context store :
  referential store → referential (upsert_context context store).1.
Proof.
  intros [Hs Ht].
  destruct (upsert_context_frame context store) as (_ & Es & Et & _).
  split.
  - intros c s r. unfold get_state. rewrite Es. intros H.
    apply upsert_context_keeps. by eapply Hs.
  - intros c tid r. unfold get_transition, get_state. rewrite Et, Es. intros H.
    destruct (Ht c tid r H) as (? & ? & ?).
    split; [by apply upsert_context_keeps | done].
Qed.

Lemma upsert_state_referential record store :
  is_Some (get_context (StateRecord.context_id record) store) →
  referential store → referential (upsert_state record store).1.
Proof.
  intros Hctx [Hs Ht].
  destruct (upsert_state_frame record store) as (_ & Ec & Et & _).
  split.
  - intros c s r. unfold get_context. rewrite Ec.
    rewrite upsert_state_lookup. case_decide as Hd.
    + destruct Hd as [-> ->]. by intros _.
    + apply Hs.
  - intros c tid r. rewrite step_state_transitions. intros H.
    destruct (Ht c tid r H) as (? & ? & ?). unfold get_context. rewrite Ec.
    split; [done|]. split; by apply upsert_state_keeps.
Qed.

Lemma stored_record_ends record inc store :
  TransitionRecord.source_state_id (stored_record record inc store)
  = TransitionRecord.source_state_id record
  ∧ TransitionRecord.target_state_id (stored_record record inc store)
    = TransitionRecord.target_state_id record.
Proof. unfold stored_record. by repeat case_match. Qed.

Lemma upsert_transition_referential record inc store :
  is_Some (get_context (TransitionRecord.context_id record) store) →
  is_Some (get_state (TransitionRecord.context_id record)
                     (TransitionRecord.source_state_id record) store) →
  is_Some (get_state (TransitionRecord.context_id record)
                     (TransitionRecord.target_state_id record) store) →
  referential store → referential (upsert_transition record inc store).1.
Proof.
  intros Hctx Hsrc Htgt [Hs Ht].
  destruct (upsert_transition_frame record inc store) as (_ & Ec & Es).
  split.
  - intros c s r. unfold get_state, get_context. rewrite Es, Ec. apply Hs.
  - intros c tid r. rewrite upsert_transition_lookup.
    unfold get_state, get_context. rewrite Es, Ec.
    case_decide as Hd.
    + destruct Hd as [-> ->]. case_match; [done|]. intros [= <-].
      destruct (stored_record_ends record inc store) as [-> ->]. done.
    + apply Ht.
Qed.

(** ** One request *)

Section Requests.
Variable context_from_dict : gmap string json → result Context.t.
Variable state_from_dict : gmap string json → result StateRecord.t.
Variable transition_from_dict : gmap string json → result TransitionRecord.t.

Local Abbreviation ingest_context := (ingest_context context_from_dict).
Local Abbreviation ingest_state := (ingest_state state_from_dict).
Local Abbreviation ingest_state_record := (ingest_state_record state_from_dict).
Local Abbreviation ingest_state_records := (ingest_state_records state_from_dict).
Local Abbreviation ingest_transition_record := (ingest_transition_record transition_from_dict).
Local Abbreviation ingest_transition := (ingest_transition transition_from_dict).
Local Abbreviation ingest_transition_records :=
  (ingest_transition_records transition_from_dict).
Local Abbreviation ingest_bundle :=
  (ingest_bundle context_from_dict state_from_dict transition_from_dict).
Local Abbreviation serve := (serve context_from_dict state_from_dict transition_from_dict).
Local Abbreviation serve_all :=
  (serve_all context_from_dict state_from_dict transition_from_dict).

Lemma ingest_context_store payload overwrite store :
  (ingest_context payload overwrite store).1 = store
  ∨ ∃ ctx, (ingest_context payload overwrite store).1 = (upsert_context ctx store).1.
Proof.
  unfold IngestHandler.ingest_context.
  destruct payload; try by left.
  destruct (context_from_dict _) as [ctx|[]]; try by left.
  destruct (get_context _ _); [destruct overwrite; simpl; [|by left]|];
    right; exists ctx; by destruct (upsert_context ctx store) as [? []].
Qed.

Lemma ingest_state_store payload store :
  (ingest_state payload store).1 = store
  ∨ ∃ record, is_Some (get_context (StateRecord.context_id record) store)
      ∧ (ingest_state payload store).1 = (upsert_state record store).1.
Proof.
  unfold IngestHandler.ingest_state.
  destruct payload; try by left.
  destruct (state_from_dict _) as [record|[]]; try by left.
  destruct (get_context _ _) eqn:E; [|by left].
  right. exists record. split; [by rewrite E|].
  by destruct (upsert_state record store) as [? []].
Qed.

Lemma ingest_transition_record_store payload store :
  (ingest_transition_record payload store).1 = store
  ∨ ∃ record,
      is_Some (get_context (TransitionRecord.context_id record) store)
      ∧ is_Some (get_state (TransitionRecord.context_id record)
                           (TransitionRecord.source_state_id record) store)
      ∧ is_Some (get_state (TransitionRecord.context_id record)
                           (TransitionRecord.target_state_id record) store)
      ∧ (ingest_transition_record payload store).1
        = (upsert_transition record true store).1.
Proof.
  unfold IngestHandler.ingest_transition_record.
  destruct payload; try by left.
  destruct (transition_from_dict _) as [record|[]]; try by left.
  destruct (get_context _ _) eqn:E; [|by left].
  destruct (get_state _ (TransitionRecord.source_state_id record) _) eqn:E1;
    [|by left].
  destruct (get_state _ (TransitionRecord.target_state_id record) _) eqn:E2;
    [|by left].
  right. exists record. rewrite E, E1, E2. repeat split; try done.
  by destruct (upsert_transition record true store) as [? []].
Qed.

Lemma ingest_state_record_store payload store :
  (ingest_state_record payload store).1 = (ingest_state payload store).1.
Proof.
  unfold IngestHandler.ingest_state_record.
  by destruct (ingest_state payload store) as [? [[]|]].
Qed.

Lemma ingest_transition_store payload store :
  (ingest_transition payload store).1 = (ingest_transition_record payload store).1.
Proof.
  unfold IngestHandler.ingest_transition.
  by destruct (ingest_transition_record payload store) as [? []].
Qed.

Lemma ingest_context_referential payload overwrite store :
  referential store → referential (ingest_context payload overwrite store).1.
Proof.
  intros H. destruct (ingest_context_store payload overwrite store) as [->|[ctx ->]];
    [done | by apply upsert_context_referential].
Qed.

Lemma ingest_state_referential payload store :
  referential store → referential (ingest_state payload store).1.
Proof.
  intros H. destruct (ingest_state_store payload store) as [->|(r & ? & ->)];
    [done | by apply upsert_state_referential].
Qed.

Lemma ingest_transition_referential payload store :
  referential store → referential (ingest_transition payload store).1.
Proof.
  intros H. rewrite ingest_transition_store.
  destruct (ingest_transition_record_store payload store)
    as [->|(r & ? & ? & ? & ->)];
    [done | by apply upsert_transition_referential].
Qed.

(** ** Batches *)

Lemma ingest_loop_keeps (P : GraphStore.t → Prop) ingest_one :
  (∀ item store, P store → P (ingest_one item store).1) →
  ∀ items ids ctxs store,
    P store → P (ingest_loop ingest_one items ids ctxs store).1.
Proof.
  intros Hone items. induction items as [|item rest IH]; intros ids ctxs store H;
    simpl; [done|].
  specialize (Hone item store H).
  destruct (ingest_one item store) as [store1 [[ctx i]|e]]; simpl in *; [|done].
  by apply IH.
Qed.

Lemma ingest_state_records_referential payload store :
  referential store → referential (ingest_state_records payload store).1.
Proof.
  intros H. unfold IngestHandler.ingest_state_records.
  destruct payload; try done.
  pose proof (ingest_loop_keeps referential ingest_state
                ingest_state_referential l [] ∅ store H) as Hl.
  by destruct (ingest_loop _ _ _ _ _) as [? [[]|]].
Qed.

Lemma ingest_transition_records_referential payload store :
  referential store → referential (ingest_transition_records payload store).1.
Proof.
  intros H. unfold IngestHandler.ingest_transition_records.
  destruct payload; try done.
  pose proof (ingest_loop_keeps referential ingest_transition
                ingest_transition_referential l [] ∅ store H) as Hl.
  by destruct (ingest_loop _ _ _ _ _) as [? [[]|]].
Qed.

Lemma ingest_bundle_referential payload store :
  referential store → referential (ingest_bundle payload store).1.
Proof.
  intros H. unfold IngestHandler.ingest_bundle.
  destruct payload as [| | | | | |data|]; try done.
  assert (H1 : ∀ X : GraphStore.t * result (gmap string json),
    X = match present "context" data with
        | Some c =>
            match ingest_context c true store with
            | (store1, Raise e) => (store1, Raise e)
            | (store1, Return r) =>
                (store1,
                 Return (<["ingested" := JBool true]>
                         (<["context_id" := default JNull (r !! "context_id")]> ∅)))
            end
        | None =>
            (store,
             Return (<["ingested" := JBool false]> (<["context_id" := JNull]> ∅)))
        end → referential X.1).
  { intros X ->. destruct (present "context" data) as [c|]; [|done].
    pose proof (ingest_context_referential c true store H).
    by destruct (ingest_context c true store) as [? []]. }
  specialize (H1 _ eq_refl).
  destruct (match present "context" data with Some _ => _ | None => _ end)
    as [store1 [context_info|e]]; simpl in H1; [|done].
  assert (H2 : ∀ X : GraphStore.t * result json,
    X = match present "states" data with
        | Some l =>
            match ingest_state_records l store1 with
            | (store2, Raise e) => (store2, Raise e)
            | (store2, Return r) => (store2, Return (count_of r))
            end
        | None => (store1, Return (JInt 0))
        end → referential X.1).
  { intros X ->. destruct (present "states" data) as [l|]; [|done].
    pose proof (ingest_state_records_referential l store1 H1).
    by destruct (ingest_state_records l store1) as [? []]. }
  specialize (H2 _ eq_refl).
  destruct (match present "states" data with Some _ => _ | None => _ end)
    as [store2 [states_count|e]]; simpl in H2; [|done].
  assert (H3 : ∀ X : GraphStore.t * result json,
    X = match present "transitions" data with
        | Some l =>
            match ingest_transition_records l store2 with
            | (store3, Raise e) => (store3, Raise e)
            | (store3, Return r) => (store3, Return (count_of r))
            end
        | None => (store2, Return (JInt 0))
        end → referential X.1).
  { intros X ->. destruct (present "transitions" data) as [l|]; [|done].
    pose proof (ingest_transition_records_referential l store2 H2).
    by destruct (ingest_transition_records l store2) as [? []]. }
  specialize (H3 _ eq_refl).
  by destruct (match present "transitions" data with Some _ => _ | None => _ end)
    as [store3 [transitions_count|e]].
Qed.

Lemma serve_referential store rq :
  referential store → referential (serve store rq).
Proof.
  intros H. destruct rq; simpl.
  - by apply ingest_context_referential.
  - rewrite ingest_state_record_store. by apply ingest_state_referential.
  - by apply ingest_state_records_referential.
  - rewrite <- ingest_transition_store. by apply ingest_transition_referential.
  - by apply ingest_transition_records_referential.
  - by apply ingest_bundle_referential.
Qed.

Lemma init_referential config : referential (init config).
Proof.
  split; intros c ? r; unfold get_state, get_transition; simpl;
    rewrite lookup_empty; simpl; by rewrite lookup_empty.
Qed.

(** X12 (no dangling references).  Whatever requests the ingest
    handler has served on a store that started empty (single records,
    batches and bundles, accepted or refused, with any decoders), every
    stored state belongs to a stored context and every stored transition
    has its context and both of its end states in the store. *)
Theorem ingest_keeps_references (config : option GraphStoreConfig.t)
    (rqs : list request) :
  referential (serve_all rqs (init config)).
Proof.
  unfold IngestHandler.serve_all.
  generalize (init_referential config). generalize (init config).
  induction rqs as [|rq rqs IH]; intros store H; simpl; [done|].
  by apply IH, serve_referential.
Qed.

(** ** A batch stops at its first failure *)

Lemma one_by_one_app {A} (one : json → GraphStore.t → GraphStore.t * result A)
    xs ys store :
  one_by_one one (xs ++ ys) store = one_by_one one ys (one_by_one one xs store).
Proof. unfold one_by_one. by rewrite foldl_app. Qed.

Lemma ingest_loop_spec ingest_one items :
  ∀ ids ctxs store,
    match ingest_loop ingest_one items ids ctxs store with
    | (store', Return (ids', ctxs')) =>
        store' = one_by_one ingest_one items store
        ∧ length ids' = (length ids + length items)%nat
    | (store', Raise e) =>
        ∃ pre bad rest,
          items = pre ++ bad :: rest
          ∧ (∃ r, (ingest_loop ingest_one pre ids ctxs store).2 = Return r)
          ∧ (ingest_one bad (one_by_one ingest_one pre store)).2 = Raise e
          ∧ store' = one_by_one ingest_one (pre ++ [bad]) store
    end.
Proof.
  induction items as [|item rest IH]; intros ids ctxs store; simpl.
  - split; [done | lia].
  - destruct (ingest_one item store) as [store1 [[ctx i]|e]] eqn:E.
    + specialize (IH (ids ++ [i]) (ctxs ∪ {[ctx]}) store1).
      destruct (ingest_loop _ rest _ _ _) as [store' [[ids' ctxs']|e]].
      * destruct IH as [-> Hlen]. split.
        -- unfold one_by_one. simpl. by rewrite ?E.
        -- rewrite Hlen, length_app. simpl. lia.
      * destruct IH as (pre & bad & rest' & -> & Hpre & Hbad & ->).
        exists (item :: pre), bad, rest'. split; [done|].
        unfold one_by_one in *. simpl. rewrite ?E. simpl. done.
    + exists [], item, rest. simpl. rewrite ?E. unfold one_by_one. simpl.
      rewrite ?E. eauto.
Qed.

Lemma ingest_state_record_raises payload store e :
  (ingest_state_record payload store).2 = Raise e
  ↔ (ingest_state payload store).2 = Raise e.
Proof.
  unfold IngestHandler.ingest_state_record.
  destruct (ingest_state payload store) as [? [[]|]]; simpl; naive_solver.
Qed.

Lemma ingest_transition_raises payload store e :
  (ingest_transition payload store).2 = Raise e
  ↔ (ingest_transition_record payload store).2 = Raise e.
Proof.
  unfold IngestHandler.ingest_transition.
  destruct (ingest_transition_record payload store) as [? []]; simpl; naive_solver.
Qed.

Lemma one_by_one_ext {A B} (f : json → GraphStore.t → GraphStore.t * result A)
    (g : json → GraphStore.t → GraphStore.t * result B) items store :
  (∀ p st, (f p st).1 = (g p st).1) →
  one_by_one f items store = one_by_one g items store.
Proof.
  intros H. revert store. induction items as [|p items IH]; intros store; [done|].
  unfold one_by_one in *. simpl. rewrite H. apply IH.
Qed.

Lemma batch_response_count key ids ctxs :
  batch_response key ids ctxs !! "count" = Some (JInt (Z.of_nat (length ids))).
Proof.
  unfold batch_response, ok_response. simpl.
  rewrite lookup_insert_ne by done. by rewrite lookup_insert_eq.
Qed.

(** X13 (a batch is not atomic).  [ingest_state_records] and
    [ingest_transition_records] ingest their items one at a time and
    stop at the first one that raises: the batch raises that item's
    exception, the items before it stay ingested and those after it are
    not tried; a batch that returns has ingested every item and answers
    with [count = len(payload)]. *)
Theorem batch_stops_at_first_failure :
  stops_at_first_failure ingest_state_record ingest_state_records
  ∧ stops_at_first_failure ingest_transition_record ingest_transition_records.
Proof.
  split; intros items store.
  - unfold IngestHandler.ingest_state_records.
    pose proof (ingest_loop_spec ingest_state items [] ∅ store) as H.
    destruct (ingest_loop _ items _ _ _) as [store' [[ids ctxs]|e]].
    + destruct H as [-> Hlen]. split.
      * apply one_by_one_ext. intros. by rewrite ingest_state_record_store.
      * rewrite batch_response_count, Hlen. done.
    + destruct H as (pre & bad & rest & -> & [r Hpre] & Hbad & ->).
      exists pre, bad, rest. split; [done|]. split; [|split].
      * destruct (ingest_loop _ pre _ _ _) as [? [[]|]]; [by eexists | done].
      * apply ingest_state_record_raises.
        erewrite one_by_one_ext; [exact Hbad|].
        intros. by rewrite ingest_state_record_store.
      * apply one_by_one_ext. intros. by rewrite ingest_state_record_store.
  - unfold IngestHandler.ingest_transition_records.
    pose proof (ingest_loop_spec ingest_transition items [] ∅ store) as H.
    destruct (ingest_loop _ items _ _ _) as [store' [[ids ctxs]|e]].
    + destruct H as [-> Hlen]. split.
      * apply one_by_one_ext. intros. by rewrite ingest_transition_store.
      * rewrite batch_response_count, Hlen. done.
    + destruct H as (pre & bad & rest & -> & [r Hpre] & Hbad & ->).
      exists pre, bad, rest. split; [done|]. split; [|split].
      * destruct (ingest_loop _ pre _ _ _) as [? [[]|]]; [by eexists | done].
      * apply ingest_transition_raises.
        erewrite <- one_by_one_ext; [exact Hbad|].
        intros. by rewrite ingest_transition_store.
      * apply one_by_one_ext. intros. by rewrite ingest_transition_store.
Qed.

(** ** What a batch answers *)

Lemma ingest_state_returns item store store' ctx sid :
  ingest_state item store = (store', Return (ctx, sid)) →
  ∃ r, decodes state_from_dict item r
       ∧ ctx = StateRecord.context_id r ∧ sid = StateRecord.id r.
Proof.
  unfold IngestHandler.ingest_state. intros H.
  destruct item as [| | | | | |data|]; try done.
  destruct (state_from_dict data) as [r|[]] eqn:E; try done.
  destruct (get_context _ _); [|done].
  destruct (upsert_state r store) as [? []]; [|done].
  injection H as _ <- <-. exists r. split; [by exists data | done].
Qed.

Lemma ingest_transition_returns item store store' ctx tid :
  ingest_transition item store = (store', Return (ctx, tid)) →
  ∃ r, decodes transition_from_dict item r
       ∧ ctx = TransitionRecord.context_id r ∧ tid = TransitionRecord.id r.
Proof.
  unfold IngestHandler.ingest_transition,
    IngestHandler.ingest_transition_record. intros H.
  destruct item as [| | | | | |data|]; try done.
  destruct (transition_from_dict data) as [r|[]] eqn:E; try done.
  destruct (get_context _ _); [|done].
  destruct (get_state _ (TransitionRecord.source_state_id r) _); [|done].
  destruct (get_state _ (TransitionRecord.target_state_id r) _); [|done].
  destruct (upsert_transition r true store) as [? []]; [|done].
  injection H as _ <- <-. exists r. split; [by exists data | done].
Qed.

Lemma ingest_loop_collects {R} ingest_one
    (from_dict : gmap string json → result R) (id_of ctx_of : R → string) :
  (∀ item store store' ctx i,
     ingest_one item store = (store', Return (ctx, i)) →
     ∃ r, decodes from_dict item r ∧ ctx = ctx_of r ∧ i = id_of r) →
  ∀ items ids ctxs store store' ids' ctxs',
    ingest_loop ingest_one items ids ctxs store = (store', Return (ids', ctxs')) →
    ∃ records,
      Forall2 (decodes from_dict) items records
      ∧ ids' = ids ++ (id_of <$> records)
      ∧ ctxs' = ctxs ∪ list_to_set (ctx_of <$> records).
Proof.
  intros Hone items. induction items as [|item rest IH];
    intros ids ctxs store store' ids' ctxs'; simpl.
  - intros [= _ <- <-]. exists []. split; [constructor|].
    split; [by rewrite app_nil_r | set_solver].
  - destruct (ingest_one item store) as [store1 [[ctx i]|e]] eqn:E; [|done].
    intros H. apply IH in H as (records & Hrec & -> & ->).
    destruct (Hone _ _ _ _ _ E) as (r & Hr & -> & ->).
    exists (r :: records). split; [by constructor|]. simpl.
    split; [by rewrite <- app_assoc | set_solver].
Qed.

Lemma str_le_total : Total str_le.
Proof. intros a b. apply String.leb_total. Qed.

Lemma batch_response_answer key ids (ctxs : gset string) (ctx_ids : list string) :
  key ≠ "status" → key ≠ "count" → key ≠ "context_ids" →
  ctxs = list_to_set ctx_ids →
  batch_answer key ids ctx_ids (batch_response key ids ctxs).
Proof.
  intros H1 H2 H3 ->. unfold batch_answer, batch_response, ok_response. simpl.
  rewrite lookup_insert_eq.
  rewrite lookup_insert_ne, lookup_insert_eq by done.
  rewrite lookup_insert_ne, lookup_insert_ne, lookup_insert_eq by done.
  repeat split.
  exists (sorted (list_to_set ctx_ids)).
  rewrite !lookup_insert_ne, lookup_insert_eq by done.
  split; [done|]. unfold sorted. split; [apply Sorted_merge_sort, str_le_total|].
  split.
  - rewrite merge_sort_Permutation. apply NoDup_elements.
  - intros c. rewrite merge_sort_Permutation. set_solver.
Qed.

(** X14 (what a batch answers).  When [ingest_state_records] or
    [ingest_transition_records] returns, every item was an object the
    decoder accepted, and the answer is [status = "ok"], [count] the
    number of items, the ids of the decoded records in payload order,
    and under [context_ids] their context ids in ascending order,
    each once. *)
Theorem batch_answers_with_ids :
  (∀ items store response,
     (ingest_state_records (JList items) store).2 = Return response →
     ∃ records,
       Forall2 (decodes state_from_dict) items records
       ∧ batch_answer "state_ids" (StateRecord.id <$> records)
           (StateRecord.context_id <$> records) response)
  ∧ (∀ items store response,
       (ingest_transition_records (JList items) store).2 = Return response →
       ∃ records,
         Forall2 (decodes transition_from_dict) items records
         ∧ batch_answer "transition_ids" (TransitionRecord.id <$> records)
             (TransitionRecord.context_id <$> records) response).
Proof.
  split; intros items store response.
  - unfold IngestHandler.ingest_state_records.
    destruct (ingest_loop _ items _ _ _) as [store' [[ids ctxs]|e]] eqn:E; [|done].
    simpl. intros [= <-].
    eapply ingest_loop_collects in E as (records & Hrec & -> & ->);
      [|apply ingest_state_returns].
    exists records. split; [done|]. simpl.
    apply batch_response_answer; try done. set_solver.
  - unfold IngestHandler.ingest_transition_records.
    destruct (ingest_loop _ items _ _ _) as [store' [[ids ctxs]|e]] eqn:E; [|done].
    simpl. intros [= <-].
    eapply ingest_loop_collects in E as (records & Hrec & -> & ->);
      [|apply ingest_transition_returns].
    exists records. split; [done|]. simpl.
    apply batch_response_answer; try done. set_solver.
Qed.

(** ** A bundle that brings what it refers to *)

Lemma ingest_context_grows payload overwrite store :
  grows store (ingest_context payload overwrite store).1.
Proof.
  destruct (ingest_context_store payload overwrite store) as [->|[ctx ->]];
    [apply grows_refl | apply upsert_context_grows].
Qed.

Lemma ingest_context_accepts data ctx store :
  context_from_dict data = Return ctx →
  GraphStoreConfig.max_contexts (_config store) = None →
  ingest_context (JDict data) true store
  = ((upsert_context ctx store).1,
     Return (ok_response [("context_id", JStr (Context.context_id ctx))]))
  ∧ get_context (Context.context_id ctx) (upsert_context ctx store).1 = Some ctx.
Proof.
  intros Hdec Hlim. unfold IngestHandler.ingest_context. rewrite Hdec.
  assert (Hret : (upsert_context ctx store).2 = Return ()).
  { unfold upsert_context. by rewrite Hlim. }
  split.
  - destruct (upsert_context ctx store) as [store1 []]; [|done].
    by destruct (get_context _ _).
  - rewrite upsert_context_lookup, decide_True by done. by rewrite Hret.
Qed.

Lemma ingest_state_accepts item r store :
  decodes state_from_dict item r →
  is_Some (get_context (StateRecord.context_id r) store) →
  GraphStoreConfig.max_states_per_context (_config store) = None →
  ingest_state item store
  = ((upsert_state r store).1,
     Return (StateRecord.context_id r, StateRecord.id r))
  ∧ get_state (StateRecord.context_id r) (StateRecord.id r)
              (upsert_state r store).1 = Some r.
Proof.
  intros (data & -> & Hdec) [ctx Hctx] Hlim.
  unfold IngestHandler.ingest_state. rewrite Hdec, Hctx.
  assert (Hret : (upsert_state r store).2 = Return ()).
  { unfold upsert_state. rewrite Hlim. by destruct (dd_get _ _). }
  split.
  - by destruct (upsert_state r store) as [store1 []].
  - rewrite upsert_state_lookup, decide_True by done. by rewrite Hret.
Qed.

Lemma ingest_transition_accepts item r store :
  decodes transition_from_dict item r →
  is_Some (get_context (TransitionRecord.context_id r) store) →
  is_Some (get_state (TransitionRecord.context_id r)
                     (TransitionRecord.source_state_id r) store) →
  is_Some (get_state (TransitionRecord.context_id r)
                     (TransitionRecord.target_state_id r) store) →
  GraphStoreConfig.max_transitions_per_context (_config store) = None →
  ingest_transition item store
  = ((upsert_transition r true store).1,
     Return (TransitionRecord.context_id r, TransitionRecord.id r))
  ∧ is_Some (get_transition (TransitionRecord.context_id r) (TransitionRecord.id r)
               (upsert_transition r true store).1).
Proof.
  intros (data & -> & Hdec) [ctx Hctx] [s1 Hs1] [s2 Hs2] Hlim.
  unfold IngestHandler.ingest_transition,
    IngestHandler.ingest_transition_record.
  rewrite Hdec, Hctx, Hs1, Hs2.
  assert (Hfull : full_for r store = false).
  { unfold full_for. rewrite Hlim. simpl. apply andb_false_r. }
  pose proof (upsert_transition_outcome r true store) as Hret.
  rewrite Hfull in Hret.
  split.
  - destruct (upsert_transition r true store) as [store1 []]; [|done].
    simpl. rewrite lookup_insert_ne, lookup_insert_eq by done.
    rewrite lookup_insert_ne, lookup_insert_ne, lookup_insert_eq by done. done.
  - rewrite upsert_transition_lookup, decide_True by done. by rewrite Hfull.
Qed.

Lemma ingest_state_contexts cid ctx item store :
  get_context cid store = Some ctx →
  get_context cid (ingest_state item store).1 = Some ctx.
Proof.
  intros H. destruct (ingest_state_store item store) as [->|(r & _ & ->)]; [done|].
  unfold get_context.
  by destruct (upsert_state_frame r store) as (_ & -> & _).
Qed.

Lemma ingest_transition_contexts cid ctx item store :
  get_context cid store = Some ctx →
  get_context cid (ingest_transition item store).1 = Some ctx.
Proof.
  intros H. rewrite ingest_transition_store.
  destruct (ingest_transition_record_store item store)
    as [->|(r & _ & _ & _ & ->)]; [done|].
  unfold get_context.
  by destruct (upsert_transition_frame r true store) as (_ & -> & _).
Qed.

(** A loop whose items are all accepted: [Inv] holds of the store
    throughout, [Got r] says that record [r] is in the store. *)
Lemma ingest_loop_returns {R} ingest_one (ok : json → R → Prop)
    (id_of ctx_of : R → string)
    (Inv : GraphStore.t → Prop) (Got : R → GraphStore.t → Prop) :
  (∀ a b, Inv a → grows a b → Inv b) →
  (∀ r a b, Got r a → grows a b → Got r b) →
  (∀ item r store, ok item r → Inv store →
     ∃ store', ingest_one item store = (store', Return (ctx_of r, id_of r))
               ∧ grows store store' ∧ Got r store') →
  ∀ items records, Forall2 ok items records →
  ∀ ids ctxs store, Inv store →
    ∃ store',
      ingest_loop ingest_one items ids ctxs store
      = (store', Return (ids ++ (id_of <$> records),
                         ctxs ∪ list_to_set (ctx_of <$> records)))
      ∧ grows store store'
      ∧ Forall (λ r, Got r store') records.
Proof.
  intros Hinv Hgot Hone items records Hall.
  induction Hall as [|item r items records Hok Hall IH]; intros ids ctxs store H.
  - exists store. simpl. split; [|split; [apply grows_refl | constructor]].
    f_equal. f_equal. f_equal; [by rewrite app_nil_r | set_solver].
  - destruct (Hone item r store Hok H) as (store1 & E & Hg & Hr).
    destruct (IH (ids ++ [id_of r]) (ctxs ∪ {[ctx_of r]}) store1)
      as (store' & E' & Hg' & Hall'); [by eapply Hinv|].
    exists store'. simpl. rewrite E, E'. split; [|split].
    + f_equal. f_equal. f_equal; [by rewrite <- app_assoc | set_solver].
    + by eapply grows_trans.
    + constructor; [by eapply Hgot | done].
Qed.

(** X15 (a self-contained bundle).  On a store without limits, a
    bundle whose context, states and transitions decode, whose states
    and transitions all belong to that context, and whose transitions
    run between states of the bundle or of the store, is accepted
    whatever the store holds: the answer reports the context id and the
    two counts, and afterwards the context reads back as sent and every
    state and transition of the bundle is in the store. *)
Theorem self_contained_bundle_is_accepted
    (payload dc : gmap string json) (ctx : Context.t)
    (state_items transition_items : list json)
    (states : list StateRecord.t) (transitions : list TransitionRecord.t)
    (store : GraphStore.t)
    (Hlimits : _config store = GraphStoreConfig.default)
    (Hcontext : payload !! "context" = Some (JDict dc))
    (Hstates : payload !! "states" = Some (JList state_items))
    (Htransitions : payload !! "transitions" = Some (JList transition_items))
    (Hdc : context_from_dict dc = Return ctx)
    (Hds : Forall2 (decodes state_from_dict) state_items states)
    (Hdt : Forall2 (decodes transition_from_dict) transition_items transitions)
    (Hown : Forall (λ r, StateRecord.context_id r = Context.context_id ctx) states)
    (Hends : Forall (λ r,
       TransitionRecord.context_id r = Context.context_id ctx
       ∧ (TransitionRecord.source_state_id r ∈ StateRecord.id <$> states
          ∨ is_Some (get_state (Context.context_id ctx)
                               (TransitionRecord.source_state_id r) store))
       ∧ (TransitionRecord.target_state_id r ∈ StateRecord.id <$> states
          ∨ is_Some (get_state (Context.context_id ctx)
                               (TransitionRecord.target_state_id r) store)))
       transitions) :
  let cid := Context.context_id ctx in
  let out := ingest_bundle (JDict payload) store in
  out.2 = Return (ok_response
            [("context", JDict (<["ingested" := JBool true]>
                                (<["context_id" := JStr cid]> ∅)));
             ("states",
              JDict {[ "count" := JInt (Z.of_nat (length state_items)) ]});
             ("transitions",
              JDict {[ "count" := JInt (Z.of_nat (length transition_items)) ]})])
  ∧ get_context cid out.1 = Some ctx
  ∧ (∀ r, r ∈ states → is_Some (get_state cid (StateRecord.id r) out.1))
  ∧ (∀ r, r ∈ transitions →
          is_Some (get_transition cid (TransitionRecord.id r) out.1)).
Proof.
  intros cid out. subst out. unfold IngestHandler.ingest_bundle, present.
  rewrite Hcontext, Hstates, Htransitions.
  (* 1) the context *)
  destruct (ingest_context_accepts dc ctx store Hdc) as [E1 Hc1];
    [by rewrite Hlimits|].
  rewrite E1. fold cid in Hc1 |- *.
  pose proof (upsert_context_grows ctx store) as G1.
  pose proof (upsert_context_frame ctx store) as (_ & Es1 & _).
  set (store1 := (upsert_context ctx store).1) in *.
  assert (L1 : _config store1 = GraphStoreConfig.default)
    by (rewrite <- Hlimits; symmetry; apply G1).
  (* 2) the states *)
  unfold IngestHandler.ingest_state_records.
  destruct (ingest_loop_returns ingest_state
              (λ item r, decodes state_from_dict item r
                         ∧ StateRecord.context_id r = cid)
              StateRecord.id StateRecord.context_id
              (λ st, _config st = GraphStoreConfig.default
                     ∧ is_Some (get_context cid st))
              (λ r st, is_Some (get_state cid (StateRecord.id r) st)))
    with (items := state_items) (records := states)
         (ids := @nil string) (ctxs := (∅ : gset string)) (store := store1)
    as (store2 & E2 & G2 & Hgot2).
  { intros a b [Ha1 Ha2] (Hcfg & Hc & _). split; [by rewrite <- Hcfg | by apply Hc]. }
  { intros r a b Ha (_ & _ & Hs & _). by apply Hs. }
  { intros item r st [Hdec Hr] [Hcfg Hctx].
    destruct (ingest_state_accepts item r st Hdec) as [E Hget];
      [by rewrite Hr | by rewrite Hcfg|].
    exists (upsert_state r st).1. split; [done|].
    split; [apply upsert_state_grows|]. rewrite <- Hr. by rewrite Hget. }
  { clear -Hds Hown. induction Hds; [constructor|].
    apply Forall_cons in Hown as [? ?]. constructor; [done | by apply IHHds]. }
  { split; [done | by rewrite Hc1]. }
  rewrite E2. unfold count_of. rewrite batch_response_count. simpl.
  rewrite length_fmap. rewrite <- (Forall2_length _ _ _ Hds).
  assert (L2 : _config store2 = GraphStoreConfig.default)
    by (rewrite <- L1; symmetry; apply G2).
  (* 3) the transitions *)
  unfold IngestHandler.ingest_transition_records.
  destruct (ingest_loop_returns ingest_transition
              (λ item r, decodes transition_from_dict item r
                 ∧ TransitionRecord.context_id r = cid
                 ∧ is_Some (get_state cid (TransitionRecord.source_state_id r) store2)
                 ∧ is_Some (get_state cid (TransitionRecord.target_state_id r) store2))
              TransitionRecord.id TransitionRecord.context_id
              (λ st, grows store2 st)
              (λ r st, is_Some (get_transition cid (TransitionRecord.id r) st)))
    with (items := transition_items) (records := transitions)
         (ids := @nil string) (ctxs := (∅ : gset string)) (store := store2)
    as (store3 & E3 & G3 & Hgot3).
  { intros a b Ha Hab. by eapply grows_trans. }
  { intros r a b Ha (_ & _ & _ & Ht). by apply Ht. }
  { intros item r st (Hdec & Hr & Hsrc & Htgt) Hst.
    destruct Hst as (Hcfg & Hc & Hs & _).
    destruct (ingest_transition_accepts item r st Hdec) as [E Hget].
    - rewrite Hr. apply Hc, G2. by rewrite Hc1.
    - rewrite Hr. by apply Hs.
    - rewrite Hr. by apply Hs.
    - by rewrite <- Hcfg, L2.
    - exists (upsert_transition r true st).1. split; [done|].
      split; [apply upsert_transition_grows|]. by rewrite <- Hr. }
  { assert (Hin : ∀ s, s ∈ StateRecord.id <$> states
                       ∨ is_Some (get_state cid s store) →
                       is_Some (get_state cid s store2)).
    { intros s [Hs|Hs].
      - apply list_elem_of_fmap in Hs as (r & -> & Hr).
        by apply (proj1 (Forall_forall _ _) Hgot2).
      - apply G2, G1, Hs. }
    clear -Hdt Hends Hin. induction Hdt; [constructor|].
    apply Forall_cons in Hends as [(? & ? & ?) ?].
    constructor; [|by apply IHHdt]. repeat split; auto. }
  { apply grows_refl. }
  rewrite E3. rewrite batch_response_count. simpl.
  rewrite length_fmap. rewrite <- (Forall2_length _ _ _ Hdt).
  split; [done|]. split; [|split].
  - pose proof (ingest_loop_keeps (λ st, get_context cid st = Some ctx)
                  ingest_state (ingest_state_contexts cid ctx)
                  state_items [] ∅ store1 Hc1) as Hc2.
    rewrite E2 in Hc2.
    pose proof (ingest_loop_keeps (λ st, get_context cid st = Some ctx)
                  ingest_transition (ingest_transition_contexts cid ctx)
                  transition_items [] ∅ store2 Hc2) as Hc3.
    by rewrite E3 in Hc3.
  - intros r Hr. apply G3. by apply (proj1 (Forall_forall _ _) Hgot2).
  - intros r Hr. by apply (proj1 (Forall_forall _ _) Hgot3).
Qed.

(** ** Requests the handler refuses *)

(** X16 (a refusal writes nothing).  When [ingest_context] or
    [ingest_state_record] raises [IngestError] (payload not an object,
    decoder failure, unknown context, context already there), the
    store is exactly the store before the call; and
    [ingest_context(..., overwrite=False)] refuses every context whose
    id is already stored. *)
Theorem refused_request_writes_nothing :
  (∀ payload overwrite store msg,
     (ingest_context payload overwrite store).2 = Raise (IngestError msg) →
     (ingest_context payload overwrite store).1 = store)
  ∧ (∀ payload store msg,
       (ingest_state_record payload store).2 = Raise (IngestError msg) →
       (ingest_state_record payload store).1 = store)
  ∧ (∀ data ctx store,
       context_from_dict data = Return ctx →
       is_Some (get_context (Context.context_id ctx) store) →
       ingest_context (JDict data) false store
       = (store, Raise (IngestError ("Context '" +:+ Context.context_id ctx
                                     +:+ "' already exists")))).
Proof.
  split; [|split].
  - intros payload overwrite store msg.
    unfold IngestHandler.ingest_context.
    destruct payload; try done.
    destruct (context_from_dict _) as [ctx|[]]; try done.
    assert (Hup : ∀ msg', (upsert_context ctx store).2 ≠ Raise (IngestError msg')).
    { intros msg'. unfold upsert_context. by case_match. }
    destruct (get_context _ _); [destruct overwrite; simpl; [|done]|];
      destruct (upsert_context ctx store) as [st1 [[]|e]] eqn:E; simpl in *;
      try done; intros [= ->]; by destruct (Hup msg).
  - intros payload store msg.
    unfold IngestHandler.ingest_state_record, IngestHandler.ingest_state.
    destruct payload; try done.
    destruct (state_from_dict _) as [r|[]]; try done.
    destruct (get_context _ _); [|done].
    assert (Hup : ∀ msg', (upsert_state r store).2 ≠ Raise (IngestError msg')).
    { intros msg'. unfold upsert_state. destruct (dd_get _ _). by repeat case_match. }
    destruct (upsert_state r store) as [st1 [[]|e]] eqn:E; simpl in *;
      try done; intros [= ->]; by destruct (Hup msg).
  - intros data ctx store Hdec [x Hx].
    unfold IngestHandler.ingest_context. by rewrite Hdec, Hx.
Qed.

End Requests.

Lemma batch_answers_with_ids_witness :
  ∃ records,
    Forall2 (decodes IngestSample.decode_state)
      [IngestSample.state_item "B"; IngestSample.state_item "A"] records
    ∧ batch_answer "state_ids" (StateRecord.id <$> records)
        (StateRecord.context_id <$> records)
        (batch_response "state_ids" ["B"; "A"] {["ctx1"]}).
Proof.
  apply (proj1 (batch_answers_with_ids IngestSample.decode_state
                  IngestSample.decode_edge)
           [IngestSample.state_item "B"; IngestSample.state_item "A"]
           Sample.store_ctx).
  vm_compute. reflexivity.
Defined.

Lemma self_contained_bundle_is_accepted_witness :
  let out := ingest_bundle IngestSample.decode_context IngestSample.decode_state
               IngestSample.decode_edge (JDict IngestSample.bundle) (init None) in
  out.2 = Return (ok_response
            [("context", JDict (<["ingested" := JBool true]>
                                (<["context_id" := JStr "ctx1"]> ∅)));
             ("states", JDict {[ "count" := JInt 2 ]});
             ("transitions", JDict {[ "count" := JInt 1 ]})])
  ∧ get_context "ctx1" out.1 = Some Sample.ctx1
  ∧ (∀ r, r ∈ [Sample.state "A"; Sample.state "B"] →
          is_Some (get_state "ctx1" (StateRecord.id r) out.1))
  ∧ (∀ r, r ∈ [Sample.edge "t1" "A" "B" 1] →
          is_Some (get_transition "ctx1" (TransitionRecord.id r) out.1)).
Proof.
  apply (self_contained_bundle_is_accepted IngestSample.decode_context
           IngestSample.decode_state IngestSample.decode_edge
           IngestSample.bundle ∅ Sample.ctx1
           [IngestSample.state_item "A"; IngestSample.state_item "B"]
           [IngestSample.edge_item "t1" "A" "B"]
           [Sample.state "A"; Sample.state "B"]
           [Sample.edge "t1" "A" "B" 1] (init None)).
  - reflexivity.
  - vm_compute; reflexivity.
  - vm_compute; reflexivity.
  - vm_compute; reflexivity.
  - reflexivity.
  - repeat constructor; eexists; (split; [reflexivity | vm_compute; reflexivity]).
  - repeat constructor; eexists; (split; [reflexivity | vm_compute; reflexivity]).
  - repeat constructor.
  - repeat constructor; left; set_solver.
Defined.
End IngestLaws.
(** * The listing queries *)

Module QueryLaws.
Import GraphStore StoreSpec QuerySpec StoreFacts QueryHandler.

Lemma selects_all {R} (base : list R) : selects (λ _, True) base base.
Proof. split; [done | naive_solver]. Qed.

Lemma selects_filter {R} (P Q : R → Prop) `{!∀ r, Decision (Q r)} base l :
  selects P base l → selects (λ r, P r ∧ Q r) base (filter Q l).
Proof.
  intros [Hsub Hin]. split.
  - etrans; [apply sublist_filter | done].
  - intros r. rewrite list_elem_of_filter, Hin. naive_solver.
Qed.

Lemma selects_iff {R} (P Q : R → Prop) base l :
  (∀ r, P r ↔ Q r) → selects P base l → selects Q base l.
Proof. intros H [Hsub Hin]. split; [done|]. intros r. rewrite Hin, H. done. Qed.

Lemma metadata_is_true key v metadata :
  metadata_is key v metadata = true ↔ metadata !! key = Some (JStr v).
Proof.
  unfold metadata_is. destruct (metadata !! key) as [[]|]; try done.
  rewrite String.eqb_eq. naive_solver.
Qed.

Lemma by_metadata_selects {R} (metadata : R → gmap string json) key value
    (P : R → Prop) base l :
  selects P base l →
  selects (λ r, P r ∧ metadata_passes key value (metadata r)) base
          (by_metadata metadata key value l).
Proof.
  intros H. unfold by_metadata, metadata_passes. destruct value as [v|].
  - eapply selects_iff; [|by apply selects_filter].
    intros r. simpl. rewrite metadata_is_true. naive_solver.
  - eapply selects_iff; [|done]. naive_solver.
Qed.

Lemma by_intent_selects intent_id (P : TransitionRecord.t → Prop) base l :
  selects P base l →
  selects (λ r, P r ∧ ∀ v, intent_id = Some v →
                  Transition.intent_id (TransitionRecord.transition r) = Some v)
          base (by_intent intent_id l).
Proof.
  intros H. unfold by_intent. destruct intent_id as [v|].
  - eapply selects_iff; [|by apply selects_filter]. naive_solver.
  - eapply selects_iff; [|done]. naive_solver.
Qed.

Lemma given_true arg : given arg = true ↔ ∃ v, arg = Some v ∧ v ≠ "".
Proof.
  destruct arg as [v|]; simpl; [|naive_solver].
  rewrite negb_true_iff, String.eqb_neq. naive_solver.
Qed.

Lemma transition_filters_selects source review_status intent_id
    (P : TransitionRecord.t → Prop) base l :
  selects P base l →
  selects (λ r, P r ∧ transition_passes source review_status intent_id r) base
          (transition_filters source review_status intent_id l).
Proof.
  intros H. unfold transition_filters, transition_passes.
  eapply selects_iff;
    [|apply by_intent_selects, by_metadata_selects, by_metadata_selects, H].
  naive_solver.
Qed.

Section States.
Variable strip_lower : string → string.
Variable _state_record_to_dict : StateRecord.t → json.

Lemma has_tag_passes v tags :
  has_tag strip_lower (strip_lower v) tags
  ↔ ∃ t, t ∈ tags ∧ strip_lower t = strip_lower v.
Proof. unfold has_tag. by rewrite Exists_exists. Qed.

(** X17 (what [list_states] selects).  [list_states] raises
    [QueryError] exactly when the context is unknown; otherwise its
    answer lists, in the store's order, exactly the states of the
    context that pass every filter given, whether or not the tag-only
    shortcut through [find_states_by_tag] was taken: [source] and
    [review_status] filter as soon as they are not [None] (also when
    empty), [tag] only when it is a non-empty string. *)
Theorem list_states_selects (context_id : string)
    (tag source review_status : option string) (store : GraphStore.t) :
  match list_states strip_lower _state_record_to_dict context_id
          tag source review_status store with
  | Raise e =>
      get_context context_id store = None
      ∧ e = QueryError ("Context '" +:+ context_id +:+ "' not found")
  | Return response =>
      is_Some (get_context context_id store)
      ∧ ∃ records,
          response = <["context_id" := JStr context_id]>
                     (<["states" := JList (_state_record_to_dict <$> records)]> ∅)
          ∧ selects (state_passes strip_lower tag source review_status)
                    (GraphStore.list_states context_id store) records
  end.
Proof.
  unfold list_states, _require_context.
  destruct (get_context context_id store) as [ctx|]; [|done].
  split; [done|]. eexists. split; [reflexivity|].
  set (tagP := λ r : StateRecord.t,
         tag_passes strip_lower tag (StateRecord.tags r)).
  assert (Hbase : ∃ P : StateRecord.t → Prop,
    (∀ r, tagP r → P r)
    ∧ selects P (GraphStore.list_states context_id store)
        (if given tag && negb (given source || given review_status)
         then find_states_by_tag strip_lower context_id (default "" tag) store
         else GraphStore.list_states context_id store)).
  { destruct (given tag) eqn:Ht; simpl.
    - apply given_true in Ht as (v & -> & Hv).
      destruct (negb _).
      + exists tagP. split; [done|]. unfold find_states_by_tag. simpl.
        eapply selects_iff; [|apply selects_filter, selects_all].
        intros r. simpl. rewrite has_tag_passes. unfold tagP, tag_passes.
        naive_solver.
      + exists (λ _, True). split; [done | apply selects_all].
    - exists (λ _, True). split; [done | apply selects_all]. }
  destruct Hbase as (P & HP & Hsel).
  apply (by_metadata_selects StateRecord.metadata "source" source) in Hsel.
  apply (by_metadata_selects StateRecord.metadata "review_status" review_status)
    in Hsel.
  destruct (given tag) eqn:Ht.
  - eapply selects_iff; [|apply selects_filter, Hsel].
    intros r. simpl. rewrite has_tag_passes.
    apply given_true in Ht as (v & -> & Hv). simpl.
    unfold state_passes, tag_passes. split.
    + intros [[[_ ?] ?] ?]. naive_solver.
    + intros (? & ? & Htag). repeat split; try done; [|by eapply Htag].
      apply HP. unfold tagP, tag_passes. done.
  - eapply selects_iff; [|exact Hsel].
    intros r. simpl. unfold state_passes. split.
    + intros [[_ ?] ?]. repeat split; try done.
      intros v -> Hv. assert (given (Some v) = true) by (apply given_true; eauto).
      congruence.
    + intros (? & ? & Htag). repeat split; try done. by apply HP.
Qed.

End States.

(** ** Transitions *)

Section Transitions.
Variable iter_set : gset string → list string.
Variable _transition_record_to_dict : TransitionRecord.t → json.

Lemma resolve_exact endpoint idx transitions c s r :
  (∀ X x, x ∈ iter_set X ↔ x ∈ X) →
  index_consistent endpoint idx transitions →
  r ∈ resolve iter_set (default ∅ (transitions !! c)) (index_get idx c s)
  ↔ (∃ tid, default ∅ (transitions !! c) !! tid = Some r) ∧ endpoint r = s.
Proof.
  intros Hiter Hidx. unfold resolve. rewrite list_elem_of_omap. split.
  - intros (tid & Htid & Hr). apply Hiter, Hidx in Htid as (r' & Hr' & Hend).
    rewrite Hr in Hr'. injection Hr' as <-. split; [by exists tid | done].
  - intros [[tid Hr] Hend]. exists tid. split; [|done].
    apply Hiter, Hidx. by exists r.
Qed.

(** X18 (what the transition listings select).  On a store that
    started empty, for every iteration order of the index sets:
    [list_transitions] answers with the stored transitions of the
    context that pass the [source], [review_status] and [intent_id]
    filters given, in the store's order; [list_outgoing] and
    [list_incoming] answer with exactly the stored transitions that
    leave, respectively enter, the state and pass the filters; each
    raises [QueryError] exactly when the context, or for the last two
    the state, is unknown. *)
Theorem transition_listings_select
    (iter_set_elements : ∀ X x, x ∈ iter_set X ↔ x ∈ X)
    (config : option GraphStoreConfig.t) (ops : list op)
    (c s : string) (source review_status intent_id : option string) :
  let store := run ops (init config) in
  let passes := transition_passes source review_status intent_id in
  let answer (key : string) (records : list TransitionRecord.t) :=
    <["context_id" := JStr c]>
    (<["state_id" := JStr s]>
     (<[key := JList (_transition_record_to_dict <$> records)]> ∅)) in
  let unknown (e : exn) :=
    (get_context c store = None
     ∧ e = QueryError ("Context '" +:+ c +:+ "' not found"))
    ∨ (is_Some (get_context c store) ∧ get_state c s store = None
       ∧ e = QueryError ("State '" +:+ s +:+ "' not found in context '"
                         +:+ c +:+ "'")) in
  match list_transitions _transition_record_to_dict c
          source review_status intent_id store with
  | Raise e =>
      get_context c store = None
      ∧ e = QueryError ("Context '" +:+ c +:+ "' not found")
  | Return response =>
      is_Some (get_context c store)
      ∧ ∃ records,
          response = <["context_id" := JStr c]>
                     (<["transitions" :=
                          JList (_transition_record_to_dict <$> records)]> ∅)
          ∧ selects passes (GraphStore.list_transitions c store) records
  end
  ∧ match list_outgoing iter_set _transition_record_to_dict c s
            source review_status intent_id store with
    | Raise e => unknown e
    | Return response =>
        is_Some (get_context c store) ∧ is_Some (get_state c s store)
        ∧ ∃ records,
            response = answer "outgoing" records
            ∧ ∀ r, r ∈ records
                   ↔ stored c store r
                     ∧ TransitionRecord.source_state_id r = s ∧ passes r
    end
  ∧ match list_incoming iter_set _transition_record_to_dict c s
            source review_status intent_id store with
    | Raise e => unknown e
    | Return response =>
        is_Some (get_context c store) ∧ is_Some (get_state c s store)
        ∧ ∃ records,
            response = answer "incoming" records
            ∧ ∀ r, r ∈ records
                   ↔ stored c store r
                     ∧ TransitionRecord.target_state_id r = s ∧ passes r
    end.
Proof.
  intros store passes answer unknown.
  destruct (reachable_consistent config ops) as [Hout Hin]. fold store in Hout, Hin.
  unfold list_transitions, list_outgoing, list_incoming, _require_context,
    _require_state.
  destruct (get_context c store) as [ctx|] eqn:Ec;
    [|split; [done | split; left; done]].
  split; [|split].
  - split; [done|]. eexists. split; [reflexivity|].
    eapply selects_iff;
      [|apply transition_filters_selects, selects_all]. naive_solver.
  - destruct (get_state c s store) as [st|] eqn:Es; [|right; subst unknown; simpl; eauto].
    split; [done|]. split; [done|]. eexists. split; [reflexivity|].
    intros r.
    destruct (transition_filters_selects source review_status intent_id
                (λ _, True) _ _
                (selects_all (GraphStore.list_outgoing iter_set c s store)))
      as [_ ->].
    unfold GraphStore.list_outgoing, get_outgoing_transitions.
    rewrite (resolve_exact TransitionRecord.source_state_id) by done.
    unfold stored, get_transition. naive_solver.
  - destruct (get_state c s store) as [st|] eqn:Es; [|right; subst unknown; simpl; eauto].
    split; [done|]. split; [done|]. eexists. split; [reflexivity|].
    intros r.
    destruct (transition_filters_selects source review_status intent_id
                (λ _, True) _ _
                (selects_all (GraphStore.list_incoming iter_set c s store)))
      as [_ ->].
    unfold GraphStore.list_incoming, get_incoming_transitions.
    rewrite (resolve_exact TransitionRecord.target_state_id) by done.
    unfold stored, get_transition. naive_solver.
Qed.

End Transitions.

Lemma transition_listings_select_witness :
  match list_outgoing elements QuerySample.id_only "ctx1" "A" None None None
          (run QuerySample.ops_ab (init None)) with
  | Return response =>
      ∃ records,
        response = <["context_id" := JStr "ctx1"]>
                   (<["state_id" := JStr "A"]>
                    (<["outgoing" := JList (QuerySample.id_only <$> records)]> ∅))
        ∧ ∀ r, r ∈ records
               ↔ stored "ctx1" (run QuerySample.ops_ab (init None)) r
                 ∧ TransitionRecord.source_state_id r = "A"
                 ∧ transition_passes None None None r
  | Raise _ => False
  end.
Proof.
  pose proof (transition_listings_select elements QuerySample.id_only
                (λ X x, elem_of_elements X x) None QuerySample.ops_ab
                "ctx1" "A" None None None) as (_ & H & _).
  destruct (list_outgoing _ _ _ _ _ _ _ _) as [response|e] eqn:E.
  - exact (proj2 (proj2 H)).
  - vm_compute in E. discriminate E.
Defined.
End QueryLaws.
(** * The workflow store *)

Module WorkflowLaws.
Import WorkflowStore WorkflowSpec HandlerSpec WorkflowFacts.

(** ** Reading after writing *)

Lemma upsert_workflow_lookup workflow self wid :
  get_workflow wid (upsert_workflow workflow self)
  = if decide (wid = Workflow.workflow_id workflow) then Some workflow
    else get_workflow wid self.
Proof.
  unfold get_workflow, upsert_workflow. simpl. case_decide as H.
  - subst. by rewrite lookup_insert_eq.
  - by rewrite lookup_insert_ne.
Qed.

Lemma delete_workflow_lookup workflow_id self wid :
  get_workflow wid (delete_workflow workflow_id self).1
  = if decide (wid = workflow_id) then None else get_workflow wid self.
Proof.
  unfold get_workflow, delete_workflow.
  destruct (_workflows self !! workflow_id) as [wf|] eqn:E; simpl.
  - assert (H : delete workflow_id (_workflows self) !! wid
                = if decide (wid = workflow_id) then None
                  else _workflows self !! wid).
    { case_decide; [subst; apply lookup_delete_eq | by apply lookup_delete_ne]. }
    destruct (_by_context self !! Workflow.context_id wf);
      [case_bool_decide|]; simpl; exact H.
  - case_decide; [by subst|done].
Qed.

Lemma delete_workflow_returns workflow_id self :
  (delete_workflow workflow_id self).2
  = bool_decide (is_Some (get_workflow workflow_id self)).
Proof.
  unfold get_workflow, delete_workflow.
  destruct (_workflows self !! workflow_id) as [wf|] eqn:E.
  - rewrite bool_decide_true by done.
    destruct (_by_context self !! Workflow.context_id wf);
      [case_bool_decide|]; done.
  - rewrite bool_decide_false; [done | by intros [? ?]].
Qed.

(** X19 (deleting a workflow).  [delete_workflow(id)] returns [True]
    exactly when the id was stored; afterwards [get_workflow(id)] is
    [None] and every other workflow reads as before, so a second
    [delete_workflow(id)] returns [False]; and a workflow that was
    upserted reads back until it is deleted. *)
Theorem delete_workflow_forgets_one (workflow_id : string) (self : t) :
  let after := (delete_workflow workflow_id self).1 in
  ((delete_workflow workflow_id self).2 = true
   ↔ is_Some (get_workflow workflow_id self))
  ∧ get_workflow workflow_id after = None
  ∧ (∀ wid, wid ≠ workflow_id → get_workflow wid after = get_workflow wid self)
  ∧ (delete_workflow workflow_id after).2 = false
  ∧ (∀ w, Workflow.workflow_id w = workflow_id →
          get_workflow workflow_id (upsert_workflow w self) = Some w
          ∧ (delete_workflow workflow_id (upsert_workflow w self)).2 = true).
Proof.
  intros after. subst after. repeat split.
  - rewrite delete_workflow_returns. apply bool_decide_eq_true_1.
  - rewrite delete_workflow_returns. apply bool_decide_eq_true_2.
  - rewrite delete_workflow_lookup. by rewrite decide_True.
  - intros wid Hne. rewrite delete_workflow_lookup. by rewrite decide_False.
  - rewrite delete_workflow_returns, delete_workflow_lookup.
    rewrite decide_True by done. rewrite bool_decide_false; [done | by intros [? ?]].
  - rewrite upsert_workflow_lookup. by rewrite decide_True.
  - rewrite delete_workflow_returns, upsert_workflow_lookup.
    rewrite decide_True by done. by rewrite bool_decide_true.
Qed.

(** ** What the store keeps true *)

Lemma step_keyed self o : keyed self → keyed (step self o).
Proof.
  intros H wid w. destruct o as [w0|wid0].
  - change (get_workflow wid (upsert_workflow w0 self) = Some w
            → Workflow.workflow_id w = wid).
    rewrite upsert_workflow_lookup. case_decide as E; [|apply H].
    by intros [= <-].
  - change (get_workflow wid (delete_workflow wid0 self).1 = Some w
            → Workflow.workflow_id w = wid).
    rewrite delete_workflow_lookup. case_decide; [done | apply H].
Qed.

Lemma step_no_empty_entry self o : no_empty_entry self → no_empty_entry (step self o).
Proof.
  intros H c X. destruct o as [w0|wid0]; simpl.
  - unfold upsert_workflow. simpl.
    destruct (decide (c = Workflow.context_id w0)) as [->|Hne].
    + rewrite lookup_insert_eq. intros [= <-]. set_solver.
    + rewrite lookup_insert_ne by done. apply H.
  - unfold delete_workflow.
    destruct (_workflows self !! wid0) as [w0|]; [|apply H].
    destruct (_by_context self !! Workflow.context_id w0) as [ctx_set|] eqn:Hset;
      [case_bool_decide as Hempty|]; simpl.
    + destruct (decide (c = Workflow.context_id w0)) as [->|Hne].
      * by rewrite lookup_delete_eq.
      * rewrite lookup_delete_ne by done. apply H.
    + destruct (decide (c = Workflow.context_id w0)) as [->|Hne].
      * rewrite lookup_insert_eq. intros [= <-] E. apply Hempty.
        rewrite E. apply size_empty.
      * rewrite lookup_insert_ne by done. apply H.
    + apply H.
Qed.

Lemma run_keyed_indexed ops :
  keyed (run ops init) ∧ indexed (run ops init).
Proof.
  split; [|apply run_indexed].
  assert (H : ∀ self, keyed self → keyed (run ops self)).
  { induction ops as [|o ops IH]; intros self Hinv; [done|].
    simpl. apply IH. by apply step_keyed. }
  apply H. intros wid w. unfold init. simpl. by rewrite lookup_empty.
Qed.

(** X20 (what the workflow store keeps true).  After any sequence of
    [upsert_workflow] and [delete_workflow] calls on a new store, every
    workflow is stored under its own id and indexed under its current
    context, and the by-context index has no entry left with an empty
    set. *)
Theorem workflow_store_invariants (ops : list op) :
  keyed (run ops init) ∧ indexed (run ops init) ∧ no_empty_entry (run ops init).
Proof.
  split; [|split; [apply run_indexed|]].
  - apply run_keyed_indexed.
  - assert (H : ∀ self, no_empty_entry self → no_empty_entry (run ops self)).
    { induction ops as [|o ops IH]; intros self Hinv; [done|].
      simpl. apply IH. by apply step_no_empty_entry. }
    apply H. intros c X. unfold init. simpl. by rewrite lookup_empty.
Qed.

(** ** Listing by context *)

Lemma upsert_index_exact w0 self :
  (∀ old, get_workflow (Workflow.workflow_id w0) self = Some old →
          Workflow.context_id old = Workflow.context_id w0) →
  index_exact self → index_exact (upsert_workflow w0 self).
Proof.
  intros Hsame Hex c wid. unfold upsert_workflow. simpl.
  assert (Hold : wid ∈ default ∅ (_by_context self !! c) →
            ∃ w, <[Workflow.workflow_id w0 := w0]> (_workflows self) !! wid = Some w
                 ∧ Workflow.context_id w = c).
  { intros Hin. destruct (Hex c wid Hin) as (w & Hw & Hc).
    destruct (decide (wid = Workflow.workflow_id w0)) as [->|Hne].
    - exists w0. rewrite lookup_insert_eq. split; [done|].
      rewrite <- Hc. symmetry. by apply Hsame.
    - exists w. by rewrite lookup_insert_ne. }
  destruct (decide (c = Workflow.context_id w0)) as [->|Hc].
  - rewrite lookup_insert_eq. simpl. intros [Hin| ->%elem_of_singleton]%elem_of_union.
    + by apply Hold.
    + exists w0. by rewrite lookup_insert_eq.
  - rewrite lookup_insert_ne by done. apply Hold.
Qed.

Lemma delete_index_exact wid0 self :
  index_exact self → index_exact (delete_workflow wid0 self).1.
Proof.
  intros Hex c wid. unfold delete_workflow.
  destruct (_workflows self !! wid0) as [w0|] eqn:Hw0; [|apply Hex].
  assert (Hold : wid ∈ default ∅ (_by_context self !! c) →
            (c = Workflow.context_id w0 → wid ≠ wid0) →
            ∃ w, delete wid0 (_workflows self) !! wid = Some w
                 ∧ Workflow.context_id w = c).
  { intros Hin Hne. destruct (Hex c wid Hin) as (w & Hw & Hc).
    exists w. split; [|done]. rewrite lookup_delete_ne; [done|].
    intros ->. rewrite Hw in Hw0. injection Hw0 as ->. by apply Hne. }
  destruct (_by_context self !! Workflow.context_id w0) as [ctx_set|] eqn:Hset;
    [case_bool_decide as Hempty|]; simpl.
  - destruct (decide (c = Workflow.context_id w0)) as [->|Hc].
    + rewrite lookup_delete_eq. simpl. set_solver.
    + rewrite lookup_delete_ne by done. intros Hin. by apply Hold.
  - destruct (decide (c = Workflow.context_id w0)) as [->|Hc].
    + rewrite lookup_insert_eq. simpl. intros Hin. apply Hold.
      * rewrite Hset. simpl. set_solver.
      * intros _. set_solver.
    + rewrite lookup_insert_ne by done. intros Hin. by apply Hold.
  - intros Hin. apply Hold; [done|]. intros ->. rewrite Hset in Hin.
    simpl in Hin. set_solver.
Qed.

Lemma run_index_exact ops self :
  stable ops self → index_exact self → index_exact (run ops self).
Proof.
  revert self. induction ops as [|o ops IH]; intros self Hst Hex; [done|].
  destruct Hst as [Ho Hst]. simpl. apply IH; [done|].
  destruct o as [w0|wid0]; simpl.
  - by apply upsert_index_exact.
  - by apply delete_index_exact.
Qed.

Lemma lookup_all_present (workflows : gmap string Workflow.t) ids :
  (∀ i, i ∈ ids → is_Some (workflows !! i)) →
  ∃ ws, lookup_all workflows ids = Return ws
        ∧ ∀ w, w ∈ ws ↔ ∃ i, i ∈ ids ∧ workflows !! i = Some w.
Proof.
  induction ids as [|i ids IH]; intros Hall; simpl.
  - exists []. split; [done|]. intros w. split; [by intros ?%elem_of_nil|].
    intros (i & ?%elem_of_nil & _). done.
  - destruct (Hall i) as [wf Hwf]; [by left|]. rewrite Hwf.
    destruct IH as (ws & -> & Hws); [intros; apply Hall; by right|].
    exists (wf :: ws). split; [done|]. intros w.
    rewrite elem_of_cons, Hws. split.
    + intros [->|(j & Hj & Hw)]; [exists i; split; [by left | done]|].
      exists j. split; [by right | done].
    + intros (j & [->|Hj]%elem_of_cons & Hw); [left; congruence|].
      right. by exists j.
Qed.

(** X21 (listing a context).  On a store in which no workflow was ever
    upserted into another context than the one it is stored in,
    [list_workflows(context_id=c, ...)] never raises and returns
    exactly the stored workflows of context [c] that pass the
    [intent_id] and [tag] filters given (the [tag] filter applies to
    every tag that is not [None], the empty one included), for every
    iteration order of the index set. *)
Theorem stable_store_lists_by_context
    (iter_set : gset string → list string) (strip_lower : string → string)
    (iter_set_elements : ∀ X x, x ∈ iter_set X ↔ x ∈ X)
    (ops : list op) (Hstable : stable ops init)
    (c : string) (intent_id tag : option string) :
  index_exact (run ops init)
  ∧ ∃ ws,
      list_workflows iter_set strip_lower (Some c) intent_id tag (run ops init)
      = Return ws
      ∧ ∀ w, w ∈ ws
             ↔ get_workflow (Workflow.workflow_id w) (run ops init) = Some w
               ∧ Workflow.context_id w = c
               ∧ (∀ i, intent_id = Some i → Workflow.intent_id w = Some i)
               ∧ (∀ tg, tag = Some tg →
                        ∃ tt, tt ∈ Workflow.tags w
                              ∧ strip_lower tt = strip_lower tg).
Proof.
  assert (Hex : index_exact (run ops init)).
  { apply run_index_exact; [done|]. intros c' wid. unfold init. simpl.
    rewrite lookup_empty. simpl. set_solver. }
  destruct (run_keyed_indexed ops) as (Hkey & Hidx).
  split; [done|]. unfold list_workflows.
  destruct (lookup_all_present (_workflows (run ops init))
              (iter_set (default ∅ (_by_context (run ops init) !! c))))
    as (ws & -> & Hws).
  { intros i Hi%iter_set_elements. destruct (Hex c i Hi) as (w & -> & _). done. }
  assert (Hbase : ∀ w, w ∈ ws
            ↔ get_workflow (Workflow.workflow_id w) (run ops init) = Some w
              ∧ Workflow.context_id w = c).
  { intros w. rewrite Hws. unfold get_workflow. split.
    - intros (i & Hi%iter_set_elements & Hw).
      rewrite (Hkey _ _ Hw). split; [done|].
      destruct (Hex c i Hi) as (w' & Hw' & Hc). congruence.
    - intros [Hw <-]. exists (Workflow.workflow_id w). split; [|done].
      apply iter_set_elements. by apply Hidx. }
  eexists. split; [reflexivity|]. intros w.
  destruct intent_id as [i|], tag as [tg|];
    rewrite ?list_elem_of_filter, Hbase, ?Exists_exists; naive_solver.
Qed.

Lemma stable_store_lists_by_context_witness :
  ∃ ws,
    list_workflows elements (λ s, s) (Some "b") None None
      (run [Upsert (Sample.workflow "w" "a"); Upsert (Sample.workflow "w" "a");
            Delete "w"; Upsert (Sample.workflow "v" "b")] init)
    = Return ws
    ∧ ∀ w, w ∈ ws
           ↔ get_workflow (Workflow.workflow_id w)
               (run [Upsert (Sample.workflow "w" "a");
                     Upsert (Sample.workflow "w" "a");
                     Delete "w"; Upsert (Sample.workflow "v" "b")] init) = Some w
             ∧ Workflow.context_id w = "b"
             ∧ (∀ i, None = Some i → Workflow.intent_id w = Some i)
             ∧ (∀ tg, None = Some tg →
                      ∃ tt, tt ∈ Workflow.tags w ∧ tt = tg).
Proof.
  apply (stable_store_lists_by_context elements (λ s, s)
           (λ X x, elem_of_elements X x)
           [Upsert (Sample.workflow "w" "a"); Upsert (Sample.workflow "w" "a");
            Delete "w"; Upsert (Sample.workflow "v" "b")]).
  simpl. repeat split.
  - intros old. vm_compute. discriminate.
  - intros old. vm_compute. by intros [= <-].
  - intros old. vm_compute. discriminate.
Defined.

(** ** The codec *)

Section Codec.
Variable str_other : json → string.

Lemma str_strings (l : list string) : Workflow.str str_other <$> (JStr <$> l) = l.
Proof. induction l as [|x l IH]; [done|]. rewrite !fmap_cons. by rewrite IH. Qed.

(** X22 (a workflow survives its dict form).  [Workflow.from_dict]
    accepts every dict that [to_dict] produces and gives back the same
    workflow, whatever [str] does on values that are not strings; and
    a payload that lacks one of the four required keys is refused with
    a [WorkflowError] that names the first missing one. *)
Theorem workflow_dict_round_trip (w : Workflow.t) :
  Workflow.from_dict str_other (JDict (Workflow.to_dict w)) = Workflow.Ok w
  ∧ ∀ key, key ∈ ["workflow_id"; "context_id"; "label"; "description"] →
      Workflow.from_dict str_other (JDict (delete key (Workflow.to_dict w)))
      = Workflow.WorkflowError ("Missing workflow field: '" +:+ key +:+ "'").
Proof.
  split.
  - unfold Workflow.from_dict, Workflow.required, Workflow.to_dict.
    simplify_map_eq. rewrite !str_strings.
    destruct w as [? ? ? ? ? [i|] ? ?]; simpl.
    + simplify_map_eq. done.
    + simplify_map_eq. done.
  - intros key Hkey.
    unfold Workflow.from_dict, Workflow.required, Workflow.to_dict.
    repeat (apply elem_of_cons in Hkey as [->|Hkey]);
      [| | | | by apply elem_of_nil in Hkey]; by simplify_map_eq.
Qed.
End Codec.

(** ** The handler *)

Section Handler.
Variable str_other : json → string.
Variable _transition_record_to_dict : TransitionRecord.t → json.

Local Abbreviation upsert := (WorkflowHandler.upsert_workflow str_other).
Local Abbreviation play := (WorkflowHandler.play str_other).
Local Abbreviation play_all := (WorkflowHandler.play_all str_other).

Lemma missing_nil context_id transition_ids store :
  WorkflowHandler.missing context_id transition_ids store = [] →
  Forall (λ tid, is_Some (GraphStore.get_transition context_id tid store))
         transition_ids.
Proof.
  unfold WorkflowHandler.missing. intros H. apply Forall_forall. intros tid Hin.
  destruct (GraphStore.get_transition context_id tid store) eqn:E; [done|].
  by destruct (filter_nil_not_elem_of _ _ tid H E).
Qed.

Lemma upsert_accepted payload h h' response :
  upsert payload h = (h', Workflow.Ok response) →
  ∃ w, Workflow.from_dict str_other payload = Workflow.Ok w
       ∧ is_Some (GraphStore.get_context (Workflow.context_id w)
                    (WorkflowHandler.store h))
       ∧ Forall (λ tid, is_Some (GraphStore.get_transition (Workflow.context_id w)
                                   tid (WorkflowHandler.store h)))
                (Workflow.transition_ids w)
       ∧ h' = WorkflowHandler.mk (WorkflowHandler.store h)
                (upsert_workflow w (WorkflowHandler.workflow_store h))
       ∧ response = <["status" := JStr "ok"]>
                    (<["workflow" := JDict (Workflow.to_dict w)]> ∅).
Proof.
  unfold WorkflowHandler.upsert_workflow.
  destruct (Workflow.from_dict str_other payload) as [w| |]; [|done..].
  destruct (GraphStore.get_context _ _) eqn:Ec; [|done].
  destruct (WorkflowHandler.missing _ _ _) eqn:Em; [|done].
  intros [= <- <-]. exists w. repeat split; try done.
  by apply missing_nil.
Qed.

Lemma upsert_refused payload h :
  (upsert payload h).1 = h
  ∨ ∃ response, (upsert payload h).2 = Workflow.Ok response.
Proof.
  unfold WorkflowHandler.upsert_workflow.
  destruct (Workflow.from_dict str_other payload) as [w| |]; [|by left..].
  destruct (GraphStore.get_context _ _); [|by left].
  destruct (WorkflowHandler.missing _ _ _); [right; by eexists | by left].
Qed.

Lemma play_resolved h ev : resolved h → resolved (play h ev).
Proof.
  intros H. destruct ev as [o|payload|wid0].
  - intros wid w Hw. destruct (H wid w Hw) as [Hc Ht].
    pose proof (StoreLaws.step_grows (WorkflowHandler.store h) o)
      as (_ & Gc & _ & Gt).
    split; [by apply Gc|]. eapply Forall_impl; [exact Ht|].
    intros tid. apply Gt.
  - simpl. destruct (upsert_refused payload h) as [->|[response Hr]]; [done|].
    destruct (upsert payload h) as [h' a] eqn:E. simpl in *. subst a.
    apply upsert_accepted in E as (w0 & _ & Hc & Ht & -> & _).
    intros wid w. simpl. rewrite upsert_workflow_lookup.
    case_decide; [by intros [= <-] | apply H].
  - simpl. unfold WorkflowHandler.delete_workflow.
    pose proof (delete_workflow_lookup wid0 (WorkflowHandler.workflow_store h))
      as Hl.
    destruct (delete_workflow wid0 _) as [ws1 deleted]. simpl in *.
    intros wid w. rewrite Hl. case_decide; [done | apply H].
Qed.

Lemma play_all_resolved events h : resolved h → resolved (play_all events h).
Proof.
  revert h. induction events as [|ev events IH]; intros h H; [done|].
  simpl. apply IH. by apply play_resolved.
Qed.

Lemma found_all context_id transition_ids store :
  Forall (λ tid, is_Some (GraphStore.get_transition context_id tid store))
         transition_ids →
  Forall2 (λ tid r, GraphStore.get_transition context_id tid store = Some r)
          transition_ids
          (WorkflowHandler.found context_id transition_ids store).
Proof.
  unfold WorkflowHandler.found.
  induction 1 as [|tid tids [r Hr] Hall IH]; simpl; [constructor|].
  rewrite Hr. simpl. by constructor.
Qed.

(** X23 (a stored workflow resolves).  Whatever calls the workflow
    handler and the graph store have served since both stores were new
    (accepted or refused workflow upserts, deletions, graph-store
    upserts), every stored workflow has its context in the graph store
    and every one of its transition ids there; so
    [get_workflow(id, expand_transitions=True)] answers with one
    transition record per id, in order, none skipped, and raises
    [WorkflowError] only for an id that is not stored. *)
Theorem stored_workflows_resolve
    (config : option GraphStoreConfig.t) (events : list WorkflowHandler.event)
    (workflow_id : string) :
  let h := play_all events (WorkflowHandler.mk (GraphStore.init config) init) in
  resolved h
  ∧ match WorkflowHandler.get_workflow _transition_record_to_dict
            workflow_id true h with
    | Workflow.Ok response =>
        ∃ w records,
          get_workflow workflow_id (WorkflowHandler.workflow_store h) = Some w
          ∧ Forall2 (λ tid r, GraphStore.get_transition (Workflow.context_id w)
                                tid (WorkflowHandler.store h) = Some r)
                    (Workflow.transition_ids w) records
          ∧ response
            = <["transitions" := JList (_transition_record_to_dict <$> records)]>
              {[ "workflow" := JDict (Workflow.to_dict w) ]}
    | Workflow.WorkflowError msg =>
        get_workflow workflow_id (WorkflowHandler.workflow_store h) = None
        ∧ msg = "Workflow '" +:+ workflow_id +:+ "' not found"
    | Workflow.Uncaught _ => False
    end.
Proof.
  intros h.
  assert (Hres : resolved h).
  { apply play_all_resolved. intros wid w. unfold get_workflow. simpl.
    by rewrite lookup_empty. }
  split; [done|]. unfold WorkflowHandler.get_workflow.
  destruct (get_workflow workflow_id (WorkflowHandler.workflow_store h))
    as [w|] eqn:E; [|done].
  exists w, (WorkflowHandler.found (Workflow.context_id w)
               (Workflow.transition_ids w) (WorkflowHandler.store h)).
  split; [done|]. split; [|done].
  apply found_all. by apply (Hres workflow_id w).
Qed.

(** X24 (what [upsert_workflow] accepts).  The handler stores a
    workflow only when its payload decodes, its context is in the
    graph store and every transition id it lists is a transition of
    that context; the answer then carries the workflow as [to_dict]
    prints it and the workflow reads back from the workflow store.
    Otherwise it raises [WorkflowError] and both stores are as
    before. *)
Theorem upsert_workflow_validates (payload : json) (h : WorkflowHandler.t) :
  match upsert payload h with
  | (h', Workflow.Ok response) =>
      ∃ w, Workflow.from_dict str_other payload = Workflow.Ok w
           ∧ is_Some (GraphStore.get_context (Workflow.context_id w)
                        (WorkflowHandler.store h))
           ∧ Forall (λ tid, is_Some (GraphStore.get_transition
                                       (Workflow.context_id w) tid
                                       (WorkflowHandler.store h)))
                    (Workflow.transition_ids w)
           ∧ WorkflowHandler.store h' = WorkflowHandler.store h
           ∧ get_workflow (Workflow.workflow_id w)
               (WorkflowHandler.workflow_store h') = Some w
           ∧ response = <["status" := JStr "ok"]>
                        (<["workflow" := JDict (Workflow.to_dict w)]> ∅)
  | (h', Workflow.WorkflowError msg) => h' = h
  | (h', Workflow.Uncaught _) => False
  end.
Proof.
  destruct (upsert payload h) as [h' [response|msg|e]] eqn:E.
  - apply upsert_accepted in E as (w & Hw & Hc & Ht & -> & ->).
    exists w. repeat split; try done. simpl.
    rewrite upsert_workflow_lookup. by rewrite decide_True.
  - destruct (upsert_refused payload h) as [H|[r H]]; rewrite E in H;
      [done | discriminate].
  - unfold WorkflowHandler.upsert_workflow in E.
    assert (Hdec : ∀ e', Workflow.from_dict str_other payload
                         ≠ Workflow.Uncaught e').
    { intros e'. unfold Workflow.from_dict. repeat case_match; done. }
    destruct (Workflow.from_dict str_other payload) as [w| |e'] eqn:Ed;
      [| done | by destruct (Hdec e')].
    destruct (GraphStore.get_context _ _); [|done].
    by destruct (WorkflowHandler.missing _ _ _).
Qed.
End Handler.

End WorkflowLaws.
(** * The record codecs *)

Module CodecLaws.

(** Lookups in a dict that is written out key by key. *)
Ltac lookups :=
  repeat first
    [ rewrite lookup_insert_eq
    | rewrite lookup_insert_ne by done
    | rewrite lookup_delete_eq
    | rewrite lookup_delete_ne by done
    | rewrite lookup_empty ];
  cbn [default from_option id].

Lemma dict_or_empty_dict m : Field.dict_or_empty (Some (JDict m)) = Some m.
Proof.
  unfold Field.dict_or_empty. simpl. case_bool_decide as H; simpl; [|done].
  apply map_size_empty_inv in H. by subst.
Qed.

Lemma as_opt_str_of x : Field.as_opt_str (Some (Field.of_opt_str x)) = Some x.
Proof. by destruct x. Qed.

Lemma str_or_str s now :
  Field.str_or (Some (JStr s)) now = Some (if String.eqb s "" then now else s).
Proof. unfold Field.str_or. simpl. by destruct (String.eqb s ""). Qed.

Lemma Platform_member_value p : Platform_member (JStr (Platform_value p)) = Some p.
Proof. by destruct p. Qed.

Lemma ActionType_member_value a :
  ActionType_member (JStr (ActionType_value a)) = Some a.
Proof. by destruct a. Qed.

Section Context.
Variable repr : json → string.
Variable now : string.

(** X25 (a context survives its dict form).  [Context.from_dict]
    gives back every context that [to_dict] printed, except that an
    empty [created_at] is replaced by the clock reading; a dict without
    ["context_id"] raises [KeyError], and a ["platform"] that is not
    the value of a [Platform] member raises [ValueError]. *)
Theorem context_dict_round_trip (ctx : Context.t) :
  Context.from_dict repr now (Context.to_dict ctx)
  = Some (Return
            (if String.eqb (Context.created_at ctx) ""
             then Context.mk (Context.context_id ctx) (Context.app_id ctx)
                    (Context.version ctx) (Context.platform ctx)
                    (Context.locale ctx) (Context.schema_version ctx) now
                    (Context.environment ctx) (Context.metadata ctx)
             else ctx))
  ∧ Context.from_dict repr now (delete "context_id" (Context.to_dict ctx))
    = Some (Raise (KeyError "context_id"))
  ∧ ∀ value, Platform_member value = None →
      Context.from_dict repr now (<["platform" := value]> (Context.to_dict ctx))
      = Some (Raise (ValueError (repr value +:+ " is not a valid Platform"))).
Proof.
  destruct ctx as [cid app ver plat loc sv created env meta].
  unfold Context.from_dict, Context.to_dict.
  cbn [Context.context_id Context.app_id Context.version Context.platform
       Context.locale Context.schema_version Context.created_at
       Context.environment Context.metadata].
  split; [|split].
  - lookups. rewrite Platform_member_value.
    rewrite !dict_or_empty_dict, !as_opt_str_of, str_or_str. simpl.
    by destruct (String.eqb created "").
  - by lookups.
  - intros value Hv. lookups. by rewrite Hv.
Qed.
End Context.

Section Transition.
Variable repr : json → string.
Variable float_other : json → option (result pyfloat).
Variable int_other : json → option (result Z).
Variable now : string.

Local Abbreviation from_dict :=
  (TransitionRecord.from_dict repr float_other int_other now).

(** X26 (a transition record survives its dict form).
    [TransitionRecord.from_dict] gives back every record that [to_dict]
    printed, except that an empty [discovered_at] is replaced by the
    clock reading; without ["times_observed"] the count is 1; a dict
    without ["context_id"] raises [ValueError], while one whose
    ["transition"] lacks ["id"] raises [KeyError]. *)
Theorem transition_record_dict_round_trip (r : TransitionRecord.t) :
  from_dict (TransitionRecord.to_dict r)
  = Some (Return
            (if String.eqb (TransitionRecord.discovered_at r) ""
             then TransitionRecord.mk (TransitionRecord.context_id r)
                    (TransitionRecord.transition r) now
                    (TransitionRecord.times_observed r)
                    (TransitionRecord.metadata r)
             else r))
  ∧ (TransitionRecord.discovered_at r ≠ "" →
     from_dict (delete "times_observed" (TransitionRecord.to_dict r))
     = Some (Return (TransitionRecord.set_times_observed 1 r)))
  ∧ from_dict (delete "context_id" (TransitionRecord.to_dict r))
    = Some (Raise (ValueError "TransitionRecord.from_dict: missing 'context_id'"))
  ∧ from_dict (<["transition" :=
                   JDict (delete "id" (Transition.to_dict
                                         (TransitionRecord.transition r)))]>
               (TransitionRecord.to_dict r))
    = Some (Raise (KeyError "id")).
Proof.
  destruct r as [cid [tid src tgt [ty el raw ameta] intent conf tmeta]
                 disc n meta].
  unfold TransitionRecord.from_dict, TransitionRecord.to_dict,
    Transition.to_dict, Action.to_dict, TransitionRecord.set_times_observed.
  cbn [TransitionRecord.context_id TransitionRecord.transition
       TransitionRecord.discovered_at TransitionRecord.times_observed
       TransitionRecord.metadata Transition.id Transition.source_state_id
       Transition.target_state_id Transition.action Transition.intent_id
       Transition.confidence Transition.metadata Action.type Action.element_id
       Action.raw_input Action.metadata].
  split; [|split; [|split]].
  - lookups. rewrite dict_or_empty_dict. lookups.
    rewrite ActionType_member_value, !dict_or_empty_dict. simpl.
    rewrite ?dict_or_empty_dict.
    by destruct el, raw, intent, (String.eqb disc "").
  - intros Hdisc. lookups. rewrite dict_or_empty_dict. lookups.
    rewrite ActionType_member_value, !dict_or_empty_dict. simpl.
    rewrite ?dict_or_empty_dict.
    apply String.eqb_neq in Hdisc. rewrite ?Hdisc.
    by destruct el, raw, intent.
  - by lookups.
  - lookups. rewrite dict_or_empty_dict. lookups.
    rewrite ActionType_member_value, !dict_or_empty_dict. by lookups.
Qed.
End Transition.

End CodecLaws.
(** * More on the state tracker *)

Module TrackerLaws.
Import StateTracker TrackerSpec.

Lemma observe_state_cases state uuid now self :
  index_tracked self →
  let state1 :=
    if String.eqb (UIState.id state) ""
       && StateTrackerConfig.auto_generate_ids (_config self)
    then UIState.set_id uuid state else state in
  (∃ key state_id tracked,
     _make_dedup_key state1 self = Some key
     ∧ _index_by_key self !! key = Some state_id
     ∧ _states_by_id self !! state_id = Some tracked
     ∧ observe_state state uuid now self
       = (mk (_config self)
             (<[state_id := TrackedState.touch now tracked]> (_states_by_id self))
             (_index_by_key self),
          Return (state_id, false)))
  ∨ (∃ index',
       (index' = _index_by_key self
        ∨ ∃ key, index' = <[key := UIState.id state1]> (_index_by_key self))
       ∧ observe_state state uuid now self
         = (mk (_config self)
               (<[UIState.id state1 := TrackedState.new state1 now]>
                  (_states_by_id self))
               index',
            Return (UIState.id state1, true))).
Proof.
  intros Hinv state1. unfold observe_state. fold state1.
  destruct (_make_dedup_key state1 self) as [key|] eqn:Ek.
  - destruct (_index_by_key self !! key) as [state_id|] eqn:Ei.
    + destruct (Hinv key state_id Ei) as [tracked Ht]. rewrite Ht.
      left. by exists key, state_id, tracked.
    + right. eexists. split; [right; by exists key | done].
  - right. eexists. split; [by left | done].
Qed.

Lemma observe_state_keeps state uuid now self :
  index_tracked self ∧ seen_once self →
  index_tracked (observe_state state uuid now self).1
  ∧ seen_once (observe_state state uuid now self).1.
Proof.
  intros [Hidx Hseen].
  destruct (observe_state_cases state uuid now self Hidx)
    as [(key & state_id & tracked & _ & Hi & Ht & ->)
       |(index' & Hindex & ->)]; simpl.
  - split.
    + intros k i Hk. simpl in *. apply Hidx in Hk.
      destruct (decide (i = state_id)) as [->|Hne];
        [by rewrite lookup_insert_eq | by rewrite lookup_insert_ne].
    + intros i t. simpl.
      destruct (decide (i = state_id)) as [->|Hne].
      * rewrite lookup_insert_eq. intros [= <-]. simpl.
        specialize (Hseen _ _ Ht). lia.
      * rewrite lookup_insert_ne by done. apply Hseen.
  - split.
    + intros k i. simpl. intros Hk.
      assert (Hcase : i = UIState.id
                (if String.eqb (UIState.id state) ""
                    && StateTrackerConfig.auto_generate_ids (_config self)
                 then UIState.set_id uuid state else state)
              ∨ _index_by_key self !! k = Some i).
      { destruct Hindex as [->|[key ->]]; [by right|].
        destruct (decide (k = key)) as [->|Hne].
        - rewrite lookup_insert_eq in Hk. left. congruence.
        - rewrite lookup_insert_ne in Hk by done. by right. }
      destruct Hcase as [->|Hold]; [by rewrite lookup_insert_eq|].
      apply Hidx in Hold.
      match goal with
      | |- is_Some (<[?j := _]> _ !! i) =>
          destruct (decide (i = j)) as [->|Hne];
          [by rewrite lookup_insert_eq | by rewrite lookup_insert_ne]
      end.
    + intros i t. simpl.
      match goal with
      | |- <[?j := _]> _ !! i = _ → _ =>
          destruct (decide (i = j)) as [->|Hne];
          [rewrite lookup_insert_eq; by intros [= <-]
          | rewrite lookup_insert_ne by done; apply Hseen]
      end.
Qed.

Lemma observe_all_keeps observations self :
  index_tracked self ∧ seen_once self →
  index_tracked (observe_all observations self)
  ∧ seen_once (observe_all observations self).
Proof.
  revert self. induction observations as [|[[state uuid] now] obs IH];
    intros self H; [done|].
  simpl. apply IH. by apply observe_state_keeps.
Qed.

Lemma size_insert_bounds {V} (m : gmap string V) j v :
  (size m ≤ size (<[j := v]> m) ≤ size m + 1)%nat.
Proof.
  destruct (m !! j) eqn:E.
  - rewrite map_size_insert_Some by (by rewrite E). lia.
  - rewrite map_size_insert_None by done. lia.
Qed.

Lemma init_keeps config : index_tracked (init config) ∧ seen_once (init config).
Proof. split; intros ? ?; simpl; by rewrite lookup_empty. Qed.

(** X27 ([observe_state] on a tracker of its own making).  On a
    tracker that started empty and was only changed by [observe_state],
    the lookup [self._states_by_id[state_id]] never raises [KeyError]:
    every call returns an id that is tracked afterwards with
    [times_seen ≥ 1]; a merged observation ([is_new] false) adds one to
    [times_seen] and leaves [len(tracker)] as it is, a new one starts
    at [times_seen = 1] and makes [len(tracker)] grow by at most one. *)
Theorem observe_state_always_returns
    (config : option StateTrackerConfig.t)
    (observations : list (UIState.t * string * string))
    (state : UIState.t) (uuid now : string) :
  let self := observe_all observations (init config) in
  ∃ self' state_id is_new tracked,
    observe_state state uuid now self = (self', Return (state_id, is_new))
    ∧ get_tracked state_id self' = Some tracked
    ∧ 1 ≤ TrackedState.times_seen tracked
    ∧ (len self ≤ len self' ≤ len self + 1)%nat
    ∧ if is_new
      then TrackedState.times_seen tracked = 1
      else len self' = len self
           ∧ ∃ before, get_tracked state_id self = Some before
                       ∧ TrackedState.times_seen tracked
                         = TrackedState.times_seen before + 1.
Proof.
  intros self.
  destruct (observe_all_keeps observations (init config) (init_keeps config))
    as [Hidx Hseen]. fold self in Hidx, Hseen.
  destruct (observe_state_cases state uuid now self Hidx)
    as [(key & state_id & tracked & _ & Hi & Ht & ->)
       |(index' & Hindex & ->)].
  - eexists _, state_id, false, (TrackedState.touch now tracked).
    split; [done|]. unfold get_tracked, len. simpl.
    rewrite lookup_insert_eq.
    assert (Hsize : size (<[state_id := TrackedState.touch now tracked]>
                           (_states_by_id self)) = size (_states_by_id self)).
    { apply map_size_insert_Some. by rewrite Ht. }
    rewrite Hsize. specialize (Hseen _ _ Ht).
    split; [done|]. split; [lia|]. split; [lia|]. split; [done|].
    by exists tracked.
  - eexists _, _, true, _. split; [done|]. unfold get_tracked, len. simpl.
    rewrite lookup_insert_eq. split; [done|]. split; [done|]. split; [|done].
    apply size_insert_bounds.
Qed.

End TrackerLaws.
(** * More on the signer *)

Module SignerLaws.
Import Signer SignerFacts.

(** ** The shape of a signature *)

(** The encoding is a run of alphabet characters followed by at most
    two padding characters. *)
Lemma urlsafe_b64encode_shape bs :
  ∃ body pad,
    Base64.urlsafe_b64encode bs = body +:+ pad
    ∧ Forall (λ c, c ∈ Base64.alphabet) (list_ascii_of_string body)
    ∧ (pad = "" ∨ pad = "=" ∨ pad = "==")
    ∧ String.length body = ((4 * length bs + 2) / 3)%nat.
Proof.
  assert (H : ∀ n (bs : list N), (length bs < n)%nat →
    ∃ body pad,
      Base64.urlsafe_b64encode bs = body +:+ pad
      ∧ Forall (λ c, c ∈ Base64.alphabet) (list_ascii_of_string body)
      ∧ (pad = "" ∨ pad = "=" ∨ pad = "==")
      ∧ String.length body = ((4 * length bs + 2) / 3)%nat).
  { clear bs. induction n as [|n IH]; intros bs Hlen; [lia|].
    destruct bs as [|a [|b [|c rest]]].
    - exists "", "". split; [done|]. split; [constructor|].
      split; [by left | done].
    - exists (String (Base64.digit (a / 4))
               (String (Base64.digit ((a mod 4) * 16)) ""))%N, "==".
      split; [done|].
      split.
      { cbn [list_ascii_of_string].
        repeat (apply Forall_cons; split; [apply digit_in_alphabet|]).
        by apply Forall_nil. }
      split; [by right; right | done].
    - exists (String (Base64.digit (a / 4))
               (String (Base64.digit ((a mod 4) * 16 + b / 16))
                  (String (Base64.digit ((b mod 16) * 4)) "")))%N, "=".
      split; [done|].
      split.
      { cbn [list_ascii_of_string].
        repeat (apply Forall_cons; split; [apply digit_in_alphabet|]).
        by apply Forall_nil. }
      split; [by right; left | done].
    - destruct (IH rest) as (body & pad & E & Hbody & Hpad & Hl);
        [simpl in Hlen; lia|].
      exists (String (Base64.digit (a / 4))
               (String (Base64.digit ((a mod 4) * 16 + b / 16))
                  (String (Base64.digit ((b mod 16) * 4 + c / 64))
                     (String (Base64.digit (c mod 64)) body))))%N, pad.
      cbn [Base64.urlsafe_b64encode]. rewrite E. split; [done|].
      split.
      { cbn [list_ascii_of_string].
        repeat (apply Forall_cons; split; [apply digit_in_alphabet|]). done. }
      split; [done|]. cbn [String.length length]. rewrite Hl.
      replace (4 * S (S (S (length rest))) + 2)%nat
        with (4 * length rest + 2 + 4 * 3)%nat by lia.
      rewrite Nat.div_add by lia. lia. }
  apply (H (S (length bs))). lia.
Qed.

Lemma alphabet_no_pad c : c ∈ Base64.alphabet → Ascii.eqb c "="%char = false.
Proof.
  intros Hc. pose proof alphabet_ascii_no_pad as H. rewrite Forall_forall in H.
  by destruct (H _ Hc).
Qed.

Lemma rstrip_eq_padding pad :
  pad = "" ∨ pad = "=" ∨ pad = "==" → Base64.rstrip_eq pad = "".
Proof. by intros [->|[->| ->]]. Qed.

Lemma rstrip_eq_body body pad :
  Forall (λ c, c ∈ Base64.alphabet) (list_ascii_of_string body) →
  pad = "" ∨ pad = "=" ∨ pad = "==" →
  Base64.rstrip_eq (body +:+ pad) = body.
Proof.
  intros Hbody Hpad. induction body as [|c body IH].
  - by apply rstrip_eq_padding.
  - simpl in Hbody. apply Forall_cons in Hbody as [Hc Hbody].
    change (String c body +:+ pad) with (String c (body +:+ pad)).
    cbn [Base64.rstrip_eq]. rewrite (IH Hbody).
    destruct body; [by rewrite (alphabet_no_pad c Hc) | done].
Qed.

Section Signing.
Variable json_dumps : json → result string.

(** X28 (the shape of a signature).  A signature that [sign] returns
    consists of characters of the URL-safe base64 alphabet only, so it
    carries no padding, and for a digest of [n] bytes it has
    [(4n + 2) / 3] characters, rounded down: 43 for the 32 bytes of
    SHA-256. *)
Theorem signature_has_no_padding (self : t) (payload : json) (sig : string)
    (Hsign : sign json_dumps payload self = Return sig) :
  ∃ canon,
    json_dumps payload = Return canon
    ∧ Forall (λ c, c ∈ Base64.alphabet) (list_ascii_of_string sig)
    ∧ String.length sig
      = ((4 * length (_digestmod self (_key_bytes self) (encode canon)) + 2)
         / 3)%nat.
Proof.
  unfold sign, _canonical_json_bytes in Hsign.
  destruct (json_dumps payload) as [canon|e]; [|done].
  injection Hsign as <-. exists canon. split; [done|].
  destruct (urlsafe_b64encode_shape
              (_digestmod self (_key_bytes self) (encode canon)))
    as (body & pad & -> & Hbody & Hpad & Hlen).
  by rewrite rstrip_eq_body.
Qed.

(** ** What [verify] accepts *)

Lemma sign_ascii self payload sig :
  sign json_dumps payload self = Return sig → isascii sig = true.
Proof.
  unfold sign, _canonical_json_bytes.
  destruct (json_dumps payload); [|done]. intros [= <-].
  apply rstrip_eq_ascii, urlsafe_b64encode_ascii.
Qed.

(** X29 ([verify] accepts the signature and nothing else).
    [verify(payload, signature)] returns [True] exactly when
    [signature] is a non-empty string equal to [sign(payload)]; a
    signature that is [None], empty or otherwise false gives [False]
    before the payload is looked at, so also for a payload that cannot
    be serialized. *)
Theorem verify_accepts_only_the_signature
    (self : t) (payload signature : json) :
  (verify json_dumps payload signature self = Return true
   ↔ ∃ s, signature = JStr s ∧ s ≠ ""
          ∧ sign json_dumps payload self = Return s)
  ∧ (truthy signature = false →
     verify json_dumps payload signature self = Return false).
Proof.
  split.
  - unfold verify. split.
    + destruct (truthy signature) eqn:Ht; simpl; [|done].
      destruct (sign json_dumps payload self) as [expected|e]; [|done].
      unfold compare_digest. destruct signature as [| | | |s| | |]; try done.
      destruct (isascii expected && isascii s); [|done].
      intros [= He]. apply String.eqb_eq in He as ->.
      exists s. split; [done|]. split; [|done].
      intros ->. done.
    + intros (s & -> & Hs & Hsign). rewrite Hsign.
      assert (Ht : truthy (JStr s) = true).
      { simpl. apply negb_true_iff. by apply String.eqb_neq. }
      rewrite Ht. simpl. rewrite (sign_ascii _ _ _ Hsign). simpl.
      by rewrite String.eqb_refl.
  - intros Ht. unfold verify. by rewrite Ht.
Qed.

(** ** Signing a record again *)

(** X30 (signing a record again).  When [sign_record(r, f)] returns
    [r'], then [r'] holds under [f] the signature of [r] without [f]
    and agrees with [r] on every other key; signing [r'] again gives
    [r'] again, and whatever [r] held under [f] before, a stale
    signature for instance, plays no part. *)
Theorem sign_record_is_idempotent
    (self : t) (r r' : gmap string json) (f : string)
    (Hsigned : sign_record json_dumps r f self = Return r') :
  sign_record json_dumps r' f self = Return r'
  ∧ (∀ v, sign_record json_dumps (<[f := v]> r) f self = Return r')
  ∧ (∀ k, k ≠ f → r' !! k = r !! k)
  ∧ ∃ sig, r' !! f = Some (JStr sig)
           ∧ sign json_dumps (JDict (delete f r)) self = Return sig.
Proof.
  unfold sign_record in *.
  destruct (sign json_dumps (JDict (delete f r)) self) as [sig|e] eqn:Hsign;
    [|done].
  injection Hsigned as <-. split; [|split; [|split]].
  - by rewrite delete_insert_eq, delete_delete_eq, Hsign.
  - intros v. by rewrite delete_insert_eq, Hsign.
  - intros k Hk. rewrite lookup_insert_ne by done. by rewrite lookup_delete_ne.
  - exists sig. by rewrite lookup_insert_eq.
Qed.
End Signing.

Lemma signature_has_no_padding_witness :
  ∃ canon,
    Sample.toy_dumps (JDict ∅) = Return canon
    ∧ Forall (λ c, c ∈ Base64.alphabet) (list_ascii_of_string "TWFu")
    ∧ String.length "TWFu" = 4%nat.
Proof.
  exact (signature_has_no_padding Sample.toy_dumps Sample.toy_signer (JDict ∅)
           "TWFu" eq_refl).
Defined.

Lemma sign_record_is_idempotent_witness :
  sign_record Sample.toy_dumps
    (<["signature" := JStr "TWFu"]> {[ "x" := JInt 1 ]}) "signature"
    Sample.toy_signer
  = Return (<["signature" := JStr "TWFu"]> {[ "x" := JInt 1 ]}).
Proof.
  assert (H : sign_record Sample.toy_dumps {[ "x" := JInt 1 ]} "signature"
                Sample.toy_signer
              = Return (<["signature" := JStr "TWFu"]> {[ "x" := JInt 1 ]}))
    by (vm_compute; reflexivity).
  exact (proj1 (sign_record_is_idempotent Sample.toy_dumps Sample.toy_signer
                  _ _ _ H)).
Defined.

End SignerLaws.
